(** * Void-Constellation: the constellation graph engine of [src/App.tsx]

    A shallow embedding of [ConstellationGraph]: the reconciliation effect
    that merges a new graph snapshot into the held physics state, the obstacle
    model [getPlanetConfig], the three force phases of [renderLoop] and the
    edge and node drawing that follows them.

    JavaScript numbers are IEEE 754 binary64 values, so they are embedded as
    Rocq's primitive floats, whose operations are the same correctly rounded
    binary64 operations ([Math.sqrt] is taken to be the correctly rounded
    square root, as every engine implements it).  [Math.random] is embedded
    as an explicit sequence of draws with a cursor. *)

From Stdlib Require Import ZArith Lia List String Bool Floats.
From Stdlib Require Reals Lra Psatz.
From stdpp Require Import base list.
Import ListNotations.

Set Warnings "-inexact-float".

(** ** JavaScript number primitives *)

Module JS.
Local Open Scope float_scope.

(** [ToBoolean] on a number: [0], [-0] and [NaN] are falsy. *)
Definition truthy (a : float) : bool := negb ((a =? 0) || is_nan a).

(** [a || b] on numbers. *)
Definition or_else (a b : float) : float := if truthy a then a else b.

(** [Math.min(a, b)]: [NaN] if either is, and [-0] below [+0]. *)
Definition Math_min (a b : float) : float :=
  if is_nan a || is_nan b then nan
  else if a <? b then a
  else if b <? a then b
  else if get_sign a then a else b.

(** [Math.max(a, b)], for stating the clamp the force divisor is compared
    with: [NaN] if either is, and [+0] above [-0]. *)
Definition Math_max (a b : float) : float :=
  if is_nan a || is_nan b then nan
  else if a <? b then b
  else if b <? a then a
  else if get_sign a then b else a.

Definition Math_sqrt (a : float) : float := sqrt a.

Definition Math_PI : float := 3.141592653589793.

(** [Number.isFinite]. *)
Definition isFinite (a : float) : bool := is_finite a.
End JS.

(** ** Data model *)

(** A node of a snapshot as [refreshGraph] builds it: [{ id, type }]. *)
Record SnapshotNode := mkSnapshotNode {
  snap_id : string;
  snap_type : string
}.

Record Link := mkLink {
  source : string;
  target : string
}.

(** The [graphData] prop. *)
Record GraphData := mkGraphData {
  gd_nodes : list SnapshotNode;
  gd_links : list Link
}.

(** A held node: the snapshot fields spread, plus the kinematic fields. *)
Record Node := mkNode {
  node_id : string;
  node_type : string;
  node_x : float;
  node_y : float;
  node_vx : float;
  node_vy : float
}.

(** [physicsRef.current]. *)
Record Physics := mkPhysics {
  nodes : list Node;
  links : list Link
}.

(** [nodes.find(n => n.id === ident)]: the first node with that id. *)
Definition findNode (ident : string) (l : list Node) : option Node :=
  List.find (fun old => String.eqb (node_id old) ident) l.

(** The position [find] stops at; the spring phase mutates the object found,
    which is the array element at this index. *)
Fixpoint findIndex (ident : string) (l : list Node) : option nat :=
  match l with
  | [] => None
  | n :: rest =>
      if String.eqb (node_id n) ident then Some 0%nat
      else option_map S (findIndex ident rest)
  end.

(** ** Reconciliation (the first [useEffect]) *)

Section Reconcile.
Local Open Scope float_scope.

(** [window.innerWidth], [window.innerHeight] and the values the successive
    calls of [Math.random()] return. *)
Variables (width height : float) (rand : nat -> float).

(** The callback of [graphData.nodes.map]; [k] counts the draws made so far. *)
Definition reconcileNode (held : list Node) (k : nat) (n : SnapshotNode)
  : Node * nat :=
  match findNode (snap_id n) held with
  | Some existing =>
      (mkNode (snap_id n) (snap_type n)
              (node_x existing) (node_y existing)
              (node_vx existing) (node_vy existing), k)
  | None =>
      (mkNode (snap_id n) (snap_type n)
              (rand k * width)
              (rand (S k) * height * 0.5)
              0 0, S (S k))
  end.

Fixpoint reconcileNodes (held : list Node) (k : nat) (ns : list SnapshotNode)
  : list Node * nat :=
  match ns with
  | [] => ([], k)
  | n :: rest =>
      let '(n', k') := reconcileNode held k n in
      let '(rest', k'') := reconcileNodes held k' rest in
      (n' :: rest', k'')
  end.

(** [physicsRef.current = { nodes: newNodes, links: graphData.links }]. *)
Definition reconcile (current : Physics) (k : nat) (graphData : GraphData)
  : Physics * nat :=
  let '(newNodes, k') := reconcileNodes (nodes current) k (gd_nodes graphData) in
  (mkPhysics newNodes (gd_links graphData), k').
End Reconcile.

(** ** Obstacle model *)

Record PlanetConfig := mkPlanetConfig {
  planet_x : float;
  planet_y : float;
  planet_radius : float
}.

Section Planet.
Local Open Scope float_scope.

Definition getPlanetConfig (w h : float) : PlanetConfig :=
  let isMobile := w <? 768 in
  mkPlanetConfig
    (if isMobile then - w * 0.2 else - w * 0.1)
    (if isMobile then h * 0.8 else h * 1.1)
    (if isMobile then h * 0.6 else JS.Math_min w h * 0.8).
End Planet.

(** ** Physics integrator (the first half of [renderLoop]) *)

Section Integrator.
Local Open Scope float_scope.

Definition REPULSION : float := 2000.
Definition SPRING_LENGTH : float := 120.
Definition SPRING_K : float := 0.02.
Definition DAMPING : float := 0.85.
Definition CENTER_GRAVITY : float := 0.0003.

Definition addVelocity (n : Node) (fx fy : float) : Node :=
  mkNode (node_id n) (node_type n) (node_x n) (node_y n)
         (node_vx n + fx) (node_vy n + fy).

Definition subVelocity (n : Node) (fx fy : float) : Node :=
  mkNode (node_id n) (node_type n) (node_x n) (node_y n)
         (node_vx n - fx) (node_vy n - fy).

(** *** 1. Repulsion *)

(** [dx * dx + dy * dy] for the pair, before the zero test. *)
Definition pairDistSq (a b : Node) : float :=
  let dx := node_x a - node_x b in
  let dy := node_y a - node_y b in
  dx * dx + dy * dy.

(** [if (distSq === 0) distSq = 1]. *)
Definition floorDistSq (distSq : float) : float :=
  if distSq =? 0 then 1 else distSq.

(** [force = REPULSION / distSq] after the zero test. *)
Definition repulsionMagnitude (a b : Node) : float :=
  REPULSION / floorDistSq (pairDistSq a b).

(** [(fx, fy)] of the inner loop body. *)
Definition repulsionForce (a b : Node) : float * float :=
  let dx := node_x a - node_x b in
  let dy := node_y a - node_y b in
  let distSq := floorDistSq (dx * dx + dy * dy) in
  let dist := JS.Math_sqrt distSq in
  let force := REPULSION / distSq in
  ((dx / dist) * force, (dy / dist) * force).

(** The body of the inner loop, on the array: [nodes[i]] is written, then
    [nodes[j]] is read back and written. *)
Definition repelPair (i j : nat) (ns : list Node) : list Node :=
  match ns !! i, ns !! j with
  | Some a, Some b =>
      let '(fx, fy) := repulsionForce a b in
      let ns1 := <[i := addVelocity a fx fy]> ns in
      match ns1 !! j with
      | Some b' => <[j := subVelocity b' fx fy]> ns1
      | None => ns1
      end
  | _, _ => ns
  end.

(** [for (let j = i + 1; j < nodes.length; j++)]. *)
Definition repelRow (i : nat) (ns : list Node) : list Node :=
  fold_left (fun acc j => repelPair i j acc)
            (seq (S i) (length ns - S i)) ns.

(** [for (let i = 0; i < nodes.length; i++)]. *)
Definition repulsion (ns : list Node) : list Node :=
  fold_left (fun acc i => repelRow i acc) (seq 0 (length ns)) ns.

(** *** 2. Attraction along links *)

Definition springForce (s t : Node) : float * float :=
  let dx := node_x t - node_x s in
  let dy := node_y t - node_y s in
  let dist := JS.or_else (JS.Math_sqrt (dx * dx + dy * dy)) 1 in
  let force := (dist - SPRING_LENGTH) * SPRING_K in
  ((dx / dist) * force, (dy / dist) * force).

(** [dist] and [force] of the callback, as it computes them. *)
Definition springDist (s t : Node) : float :=
  let dx := node_x t - node_x s in
  let dy := node_y t - node_y s in
  JS.or_else (JS.Math_sqrt (dx * dx + dy * dy)) 1.

Definition springMagnitude (s t : Node) : float :=
  (springDist s t - SPRING_LENGTH) * SPRING_K.

(** The callback of [links.forEach]; [source] and [target] are the array
    elements [find] returns, so a link from a node to itself updates one
    object twice. *)
Definition springLink (ns : list Node) (l : Link) : list Node :=
  match findIndex (source l) ns, findIndex (target l) ns with
  | Some si, Some ti =>
      match ns !! si, ns !! ti with
      | Some s, Some t =>
          let '(fx, fy) := springForce s t in
          let ns1 := <[si := addVelocity s fx fy]> ns in
          match ns1 !! ti with
          | Some t' => <[ti := subVelocity t' fx fy]> ns1
          | None => ns1
          end
      | _, _ => ns
      end
  | _, _ => ns
  end.

Definition attraction (ns : list Node) (ls : list Link) : list Node :=
  fold_left springLink ls ns.

(** *** 3. Gravity, planet collision, damping and integration *)

Definition buffer : float := 20.

Definition settleNode (width height : float) (planet : PlanetConfig) (n : Node)
  : Node :=
  let vx1 := node_vx n + (width * 0.7 - node_x n) * CENTER_GRAVITY in
  let vy1 := node_vy n + (height * 0.3 - node_y n) * CENTER_GRAVITY in
  let dxPlanet := node_x n - planet_x planet in
  let dyPlanet := node_y n - planet_y planet in
  let distPlanet := JS.Math_sqrt (dxPlanet * dxPlanet + dyPlanet * dyPlanet) in
  let pushed := distPlanet <? planet_radius planet + buffer in
  let pushForce := (planet_radius planet + buffer - distPlanet) * 0.1 in
  let vx2 := if pushed then vx1 + (dxPlanet / distPlanet) * pushForce else vx1 in
  let vy2 := if pushed then vy1 + (dyPlanet / distPlanet) * pushForce else vy1 in
  let vx3 := vx2 * DAMPING in
  let vy3 := vy2 * DAMPING in
  mkNode (node_id n) (node_type n) (node_x n + vx3) (node_y n + vy3) vx3 vy3.

Definition settle (width height : float) (ns : list Node) : list Node :=
  map (settleNode width height (getPlanetConfig width height)) ns.

(** One integration step over [physicsRef.current], with [canvas.width] and
    [canvas.height]. *)
Definition integrate (width height : float) (p : Physics) : Physics :=
  mkPhysics
    (settle width height (attraction (repulsion (nodes p)) (links p)))
    (links p).
End Integrator.

(** ** Renderer (the second half of [renderLoop]) *)

(** The calls made on the 2D context, in order. *)
Inductive CanvasOp :=
| SetFillStyle (c : string)
| FillRect (x y w h : float)
| BeginPath
| Arc (x y r a0 a1 : float)
| Fill
| SetLineWidth (w : float)
| SetStrokeStyle (c : string)
| SetShadowBlur (b : float)
| SetShadowColor (c : string)
| Stroke
| MoveTo (x y : float)
| LineTo (x y : float)
| SetLineDash (segments : list float).

Section Renderer.
Local Open Scope float_scope.
Local Open Scope string_scope.

Definition drawPlanet (planet : PlanetConfig) : list CanvasOp :=
  [ BeginPath;
    Arc (planet_x planet) (planet_y planet) (planet_radius planet)
        0 (JS.Math_PI * 2);
    SetFillStyle "#000000"; Fill;
    SetLineWidth 4; SetStrokeStyle "#FFFFFF";
    SetShadowBlur 40; SetShadowColor "rgba(255, 255, 255, 0.8)";
    Stroke; SetShadowBlur 0 ].

(** The callback of the second [links.forEach]. *)
Definition drawEdge (ns : list Node) (l : Link) : list CanvasOp :=
  match findNode (source l) ns, findNode (target l) ns with
  | Some s, Some t =>
      [ BeginPath; MoveTo (node_x s) (node_y s); LineTo (node_x t) (node_y t) ]
      ++ (if String.eqb (node_type t) "output"
          then [ SetStrokeStyle "rgba(192, 192, 192, 0.3)"; SetLineDash [2; 4] ]
          else [ SetStrokeStyle "rgba(255, 255, 255, 0.4)"; SetLineDash [] ])
      ++ [ Stroke ]
  | _, _ => []
  end.

Definition drawEdges (ns : list Node) (ls : list Link) : list CanvasOp :=
  flat_map (drawEdge ns) ls.

Definition drawNode (n : Node) : list CanvasOp :=
  BeginPath ::
  (if String.eqb (node_type n) "agent" then
     [ Arc (node_x n) (node_y n) 4 0 (JS.Math_PI * 2);
       SetFillStyle "#FFFFFF"; SetShadowBlur 10; SetShadowColor "#FFFFFF";
       Fill; SetShadowBlur 0 ]
   else if String.eqb (node_type n) "form" then
     [ Arc (node_x n) (node_y n) 2 0 (JS.Math_PI * 2);
       SetFillStyle "#C0C0C0"; Fill ]
   else if String.eqb (node_type n) "output" then
     [ Arc (node_x n) (node_y n) 1 0 (JS.Math_PI * 2);
       SetStrokeStyle "#666666"; Stroke ]
   else []).

Definition render (width height : float) (p : Physics) : list CanvasOp :=
  [ SetFillStyle "#000000"; FillRect 0 0 width height ]
  ++ drawPlanet (getPlanetConfig width height)
  ++ [ SetLineWidth 1 ]
  ++ drawEdges (nodes p) (links p)
  ++ [ SetLineDash [] ]
  ++ flat_map drawNode (nodes p).

(** The number of edges a frame strokes. *)
Definition renderedEdges (ns : list Node) (ls : list Link) : nat :=
  length (List.filter
            (fun op => match op with MoveTo _ _ => true | _ => false end)
            (drawEdges ns ls)).

(** One tick of [renderLoop]: integrate, then draw the integrated state. *)
Definition renderLoop (width height : float) (p : Physics)
  : Physics * list CanvasOp :=
  let p' := integrate width height p in
  (p', render width height p').
End Renderer.

(** ** Frame loop (the second [useEffect])

    [renderLoop] reschedules itself with [requestAnimationFrame]; every frame
    reads [canvas.width] and [canvas.height] afresh, so a run of frames is
    given by the canvas sizes the frames see, in order. *)

Definition runFrames (sizes : list (float * float)) (p : Physics) : Physics :=
  fold_left (fun q size => fst (renderLoop size.1 size.2 q)) sizes p.

(** ** Graph data adapter ([refreshGraph] in [App]) *)

(** The entity records of the three stores, with the fields the adapter
    reads. *)
Record Agent := mkAgent {
  agent_id : string
}.

Record Form := mkForm {
  form_id : string;
  form_agentId : string
}.

Record Output := mkOutput {
  output_id : string;
  output_formId : string
}.

(** The two arrays [refreshGraph] pushes onto. *)
Definition pushAgent (acc : list SnapshotNode * list Link) (a : Agent)
  : list SnapshotNode * list Link :=
  (acc.1 ++ [mkSnapshotNode (agent_id a) "agent"], acc.2).

Definition pushForm (acc : list SnapshotNode * list Link) (f : Form)
  : list SnapshotNode * list Link :=
  (acc.1 ++ [mkSnapshotNode (form_id f) "form"],
   acc.2 ++ [mkLink (form_agentId f) (form_id f)]).

Definition pushOutput (acc : list SnapshotNode * list Link) (o : Output)
  : list SnapshotNode * list Link :=
  (acc.1 ++ [mkSnapshotNode (output_id o) "output"],
   acc.2 ++ [mkLink (output_formId o) (output_id o)]).

(** [refreshGraph], on what the three [getAll] calls returned. *)
Definition refreshGraph (allAgents : list Agent) (allForms : list Form)
           (allOutputs : list Output) : GraphData :=
  let acc := fold_left pushAgent allAgents ([], []) in
  let acc := fold_left pushForm allForms acc in
  let acc := fold_left pushOutput allOutputs acc in
  mkGraphData acc.1 acc.2.

(** ** The model call with retries ([callGemini]) *)

(** What a [catch] of the retry loop can receive. *)
Inductive Thrown :=
| Raised (reason : string)
| HttpError (status : Z)
| NoText.

(** A response as the loop body reads it: [ok], [status], and the text
    [data.candidates?.[0]?.content?.parts?.[0]?.text] of the body, which is
    [inl] when reading the body throws and [None] when the chain gives
    [undefined]. *)
Record Response := mkResponse {
  ok : bool;
  status : Z;
  body : Thrown + option string
}.

Section CallGemini.
Local Open Scope float_scope.

(** Parsed JSON values, [JSON.parse], and the outcome of the [n]-th call of
    [fetch] ([inl] when the promise rejects). *)
Variables (Json Schema : Type).
Variable JSON_parse : string -> Thrown + Json.
Variable fetch : nat -> Thrown + Response.

Inductive Reply :=
| Parsed (value : Json)
| Plain (text : string).

(** How a call ends: [return], [throw], or the end of the [for] loop. *)
Inductive Completion :=
| Returned (value : Reply)
| Threw (error : Thrown)
| FellThrough.

(** The body of the [try] block. *)
Definition attemptOnce (jsonSchema : option Schema) (outcome : Thrown + Response)
  : Thrown + Reply :=
  match outcome with
  | inl e => inl e
  | inr response =>
      if negb (ok response) then inl (HttpError (status response))
      else match body response with
           | inl e => inl e
           | inr None => inl NoText
           | inr (Some text) =>
               if String.eqb text "" then inl NoText
               else match jsonSchema with
                    | Some _ =>
                        match JSON_parse text with
                        | inl e => inl e
                        | inr value => inr (Parsed value)
                        end
                    | None => inr (Plain text)
                    end
           end
  end.

(** [for (let attempt = 0; attempt < 5; attempt++)], with the delays slept so
    far; [fuel] is [5 - attempt]. *)
Fixpoint retryLoop (jsonSchema : option Schema) (fuel attempt : nat)
         (delay : float) (slept : list float) : Completion * list float :=
  match fuel with
  | O => (FellThrough, slept)
  | S fuel' =>
      match attemptOnce jsonSchema (fetch attempt) with
      | inr value => (Returned value, slept)
      | inl error =>
          if Nat.eqb attempt 4 then (Threw error, slept)
          else retryLoop jsonSchema fuel' (S attempt) (delay * 2)
                         (slept ++ [delay])
      end
  end.

Definition callGemini (jsonSchema : option Schema) : Completion * list float :=
  retryLoop jsonSchema 5 0 1000 [].
End CallGemini.

(** * Notions the statements are written with *)

(** ** Numbers as their specification sees them *)

Section FloatNotions.
Local Open Scope Z_scope.

(** The classes of a number, on its specification. *)
Definition SFfinite (a : spec_float) : bool :=
  match a with
  | S754_zero _ | S754_finite _ _ _ => true
  | _ => false
  end.

(** Non-negative: a zero of either sign, a positive number or [+infinity]. *)
Definition SFnonneg (f : spec_float) : Prop :=
  match f with
  | S754_zero _ | S754_finite false _ _ | S754_infinity false => True
  | _ => False
  end.

Definition SFpos (f : spec_float) : Prop :=
  match f with
  | S754_finite false _ _ | S754_infinity false => True
  | _ => False
  end.

(** What a float with a given sign looks like. *)
Definition signed (s : bool) (f : spec_float) : Prop :=
  match f with
  | S754_zero s' | S754_infinity s' | S754_finite s' _ _ => s' = s
  | S754_nan => False
  end.

Definition nonzero (f : spec_float) : Prop :=
  match f with
  | S754_zero _ | S754_nan => False
  | _ => True
  end.

(** How far [shr_fexp] shifts a mantissa right. *)
Definition shift (m e : Z) : Z :=
  Z.max 0 (fexp prec emax (Zdigits2 m + e) - e).

(** The float made of a rounded mantissa, after the second alignment. *)
Definition rounded (s : bool) (m e : Z) : spec_float :=
  match m / 2 ^ shift m e with
  | Z0 => S754_zero s
  | Zpos p =>
      if e + shift m e <=? emax - prec
      then S754_finite s p (e + shift m e) else S754_infinity s
  | Zneg _ => S754_nan
  end.
End FloatNotions.

(** ** Phases, pairs and links *)

Section PhaseNotions.
Local Open Scope float_scope.

(** What and where a node is; the repulsion and spring phases change
    nothing but velocities. *)
Definition place (n : Node) : string * string * float * float :=
  (node_id n, node_type n, node_x n, node_y n).

(** The pairs the two nested loops visit, in the order they visit them. *)
Definition unorderedPairs (n : nat) : list (nat * nat) :=
  flat_map (fun i => map (pair i) (seq (S i) (n - S i))) (seq 0 n).

(** What symmetry asks one pair to contribute: from the positions at the
    start of the phase, [(fx, fy)] is added to the velocity of the first
    node and its negation to the velocity of the second. *)
Definition exchange (start acc : list Node) (p : nat * nat) : list Node :=
  match start !! p.1, start !! p.2 with
  | Some a, Some b =>
      let '(fx, fy) := repulsionForce a b in
      alter (fun n => addVelocity n (- fx) (- fy)) p.2
            (alter (fun n => addVelocity n fx fy) p.1 acc)
  | _, _ => acc
  end.

(** A node whose velocity is [NaN]. *)
Definition lostVelocity (n : Node) : Prop :=
  node_vx n = nan /\ node_vy n = nan.

(** The node with nothing left but its id and type. *)
Definition lost (n : Node) : Node :=
  mkNode (node_id n) (node_type n) nan nan nan nan.

(** The delays [callGemini] sleeps between its five attempts. *)
Definition backoff : list float := [1000; 2000; 4000; 8000].

(** Both endpoints of the link resolve to a node of the list. *)
Definition resolves (ns : list Node) (l : Link) : bool :=
  match findNode (source l) ns, findNode (target l) ns with
  | Some _, Some _ => true
  | _, _ => false
  end.
(** A snapshot node is new when no held node has its id. *)
Definition isNew (held : list Node) (n : SnapshotNode) : bool :=
  match findNode (snap_id n) held with Some _ => false | None => true end.

(** Who a node is. *)
Definition identity (n : Node) : string * string := (node_id n, node_type n).

(** A node with a [NaN] coordinate. *)
Definition astray (n : Node) : Prop := node_x n = nan \/ node_y n = nan.

(** The node at index [j] has lost its velocity. *)
Definition lostAt (ns : list Node) (j : nat) : Prop :=
  exists n, ns !! j = Some n /\ lostVelocity n.
End PhaseNotions.

(** ** From the stores to the canvas *)

Section PipelineNotions.

(** The held state once the snapshot [refreshGraph] makes of the stores has
    been reconciled and the frames have run. *)
Definition shown (width height : float) (rand : nat -> float)
           (allAgents : list Agent) (allForms : list Form)
           (allOutputs : list Output) (current : Physics) (k : nat)
           (sizes : list (float * float)) : Physics :=
  runFrames sizes
    (fst (reconcile width height rand current k
            (refreshGraph allAgents allForms allOutputs))).

(** The number of edges a frame strokes: the [stroke] calls of the edge
    loop. *)
Definition strokedEdges (ns : list Node) (ls : list Link) : nat :=
  length (List.filter
            (fun op => match op with Stroke => true | _ => false end)
            (drawEdges ns ls)).

(** The number of stars a frame draws. *)
Definition renderedStars (ns : list Node) : nat :=
  length (List.filter
            (fun op => match op with Arc _ _ _ _ _ => true | _ => false end)
            (flat_map drawNode ns)).
End PipelineNotions.

(** ** One step on a pair *)

Section StepNotions.
Local Open Scope float_scope.

(** [distPlanet < planet.radius + buffer]: the obstacle pushes the node. *)
Definition reached (width height : float) (n : Node) : bool :=
  let planet := getPlanetConfig width height in
  let dxPlanet := node_x n - planet_x planet in
  let dyPlanet := node_y n - planet_y planet in
  JS.Math_sqrt (dxPlanet * dxPlanet + dyPlanet * dyPlanet)
  <? planet_radius planet + buffer.

(** The velocity and the position the last phase gives a node the obstacle
    does not push, one coordinate at a time: [v] is the velocity the force
    phases left, [span] the canvas width or height and [share] the fraction
    of it the center of gravity sits at. *)
Definition settledVelocity (span share v p : float) : float :=
  (v + (span * share - p) * CENTER_GRAVITY) * DAMPING.

Definition settledPosition (span share v p : float) : float :=
  p + settledVelocity span share v p.

(** A node with no velocity. *)
Definition atRest (n : Node) : Prop := node_vx n = 0 /\ node_vy n = 0.

(** Coordinates within 8192 pixels of the origin, and a canvas side of at
    most 8192 pixels. *)
Definition inRange (v : float) : bool := (-8192 <=? v) && (v <=? 8192).

Definition onCanvas (n : Node) : bool :=
  inRange (node_x n) && inRange (node_y n).

Definition canvasSide (v : float) : bool := (0 <=? v) && (v <=? 8192).
End StepNotions.

(** ** Binary64 numbers as real numbers *)

Module RealValue.
Import Reals.
Local Open Scope R_scope.

(** [m * 2^e] as a real number. *)
Definition F2R (m e : Z) : R := IZR m * powerRZ 2 e.

(** The real number a finite float stands for (zero for the others). *)
Definition SF2R (f : spec_float) : R :=
  match f with
  | S754_finite s m e => if s then - F2R (Zpos m) e else F2R (Zpos m) e
  | _ => 0
  end.

Definition toR (x : float) : R := SF2R (Prim2SF x).

(** The relative and the absolute error a rounding is charged with. *)
Definition eps : R := powerRZ 2 (-50).
Definition eta : R := powerRZ 2 (-1073).
End RealValue.

Module RealNotions.
Import Reals RealValue.
Local Open Scope R_scope.
(** [r] is the rounding of the real number [x]: finite and within the
    errors, or out of range. *)
Definition SFrounds (r : spec_float) (x : R) : Prop :=
  (SFfinite r = true /\ Rabs (SF2R r - x) <= eps * Rabs x + eta /\
   (0 <= x -> 0 <= SF2R r) /\ (x <= 0 -> SF2R r <= 0)) \/
  (powerRZ 2 1000 < Rabs x /\
   ((0 < x /\ r = S754_infinity false) \/ (x < 0 /\ r = S754_infinity true))).

Definition rounds (r : float) (x : R) : Prop := SFrounds (Prim2SF r) x.
End RealNotions.

(** The Euclidean distance of two nodes, as a real number. *)
Module RealDistance.
Import Reals.
Import RealValue.
Local Open Scope R_scope.
Definition distance (a b : Node) : R :=
  sqrt ((toR (node_x a) - toR (node_x b)) * (toR (node_x a) - toR (node_x b))
        + (toR (node_y a) - toR (node_y b)) * (toR (node_y a) - toR (node_y b))).
End RealDistance.

(** ** Inputs of the worked scenarios *)

Section ScenarioInputs.
Local Open Scope string_scope.
Local Open Scope float_scope.

(** The end-to-end snapshot of the specification: agent ["a1"] is held, and
    the new snapshot adds form ["f1"] and the link between them. *)
Definition snapshot2 : GraphData :=
  mkGraphData [mkSnapshotNode "a1" "agent"; mkSnapshotNode "f1" "form"]
              [mkLink "a1" "f1"].

(** [Math.random()] returning [u] first and [v] on every later call. *)
Definition draws (u v : float) (k : nat) : float :=
  match k with O => u | S _ => v end.
End ScenarioInputs.

(** * Facts about binary64 arithmetic

    Derived from the specification of the primitive operations
    ([SpecFloat], [FloatAxioms]). *)

Module Binary64.
Local Open Scope float_scope.

Lemma SFcompare_antisym (a b : spec_float) :
  SFcompare b a = option_map CompOpp (SFcompare a b).
Proof.
  destruct a as [sa|sa| |sa ma ea], b as [sb|sb| |sb mb eb]; simpl;
    try reflexivity;
    try (destruct sa; reflexivity); try (destruct sb; reflexivity);
    try (destruct sa, sb; reflexivity).
  destruct sa, sb; try reflexivity;
    rewrite (Z.compare_antisym ea eb);
    destruct (ea ?= eb)%Z; simpl; try reflexivity;
    f_equal; rewrite ?CompOpp_involutive;
    [ exact (Pos.compare_cont_antisym mb ma Eq)
    | symmetry; exact (Pos.compare_cont_antisym ma mb Eq) ].
Qed.

(** [a < b] on specifications is the comparison [Lt]. *)
Lemma SFltb_Lt (a b : spec_float) :
  SFltb a b = true -> SFcompare a b = Some Lt.
Proof.
  unfold SFltb. destruct (SFcompare a b) as [[ | | ]|];
    (reflexivity || discriminate).
Qed.

(** [a <= b] excludes [b < a]. *)
Lemma leb_not_ltb (a b : float) : (a <=? b) = true -> (b <? a) = false.
Proof.
  rewrite FloatAxioms.leb_spec, FloatAxioms.ltb_spec. unfold SFleb, SFltb.
  rewrite (SFcompare_antisym (Prim2SF a) (Prim2SF b)).
  destruct (SFcompare (Prim2SF a) (Prim2SF b)) as [[ | | ]|];
    simpl; congruence.
Qed.

Lemma ltb_not_leb (a b : float) : (a <? b) = true -> (b <=? a) = false.
Proof.
  rewrite FloatAxioms.leb_spec, FloatAxioms.ltb_spec. unfold SFleb, SFltb.
  rewrite (SFcompare_antisym (Prim2SF a) (Prim2SF b)).
  destruct (SFcompare (Prim2SF a) (Prim2SF b)) as [[ | | ]|];
    simpl; congruence.
Qed.

(** Subtraction is addition of the opposite, bit for bit. *)
Lemma SFsub_add_opp (a b : spec_float) :
  SFsub prec emax a b = SFadd prec emax a (SFopp b).
Proof.
  destruct a as [sa|sa| |sa ma ea], b as [sb|sb| |sb mb eb]; simpl;
    try reflexivity;
    try (destruct sa, sb; reflexivity).
Qed.

Lemma sub_add_opp (a b : float) : a - b = a + - b.
Proof.
  apply Prim2SF_inj.
  rewrite FloatAxioms.sub_spec, FloatAxioms.add_spec, FloatAxioms.opp_spec.
  apply SFsub_add_opp.
Qed.

(** [NaN] is absorbing. *)
Lemma add_nan_r (a : float) : a + nan = nan.
Proof.
  apply Prim2SF_inj. rewrite FloatAxioms.add_spec.
  change (Prim2SF nan) with S754_nan.
  now destruct (Prim2SF a) as [[]|[]| |].
Qed.

Lemma add_nan_l (a : float) : nan + a = nan.
Proof.
  apply Prim2SF_inj. rewrite FloatAxioms.add_spec.
  change (Prim2SF nan) with S754_nan. reflexivity.
Qed.

Lemma mul_nan_l (a : float) : nan * a = nan.
Proof.
  apply Prim2SF_inj. rewrite FloatAxioms.mul_spec.
  change (Prim2SF nan) with S754_nan. reflexivity.
Qed.

Lemma mul_comm (a b : float) : a * b = b * a.
Proof.
  apply Prim2SF_inj. rewrite !FloatAxioms.mul_spec.
  destruct (Prim2SF a) as [sa|sa| |sa ma ea],
           (Prim2SF b) as [sb|sb| |sb mb eb]; simpl;
    try reflexivity; try (now rewrite xorb_comm).
  now rewrite xorb_comm, Pos.mul_comm, Z.add_comm.
Qed.

(** The specification compares mantissas with the kernel's own copy of
    [Pos.compare_cont]; these restate the library lemmas on it. *)
Lemma compare_cont_refl (m : positive) : PosDef.Pos.compare_cont Eq m m = Eq.
Proof. exact (Pos.compare_cont_refl m Eq). Qed.

Lemma compare_cont_spec (m n : positive) :
  PosDef.Pos.compare_cont Eq m n = (m ?= n)%positive.
Proof. reflexivity. Qed.

Lemma SFcompare_refl_finite (s : bool) (m : positive) (e : Z) :
  SFcompare (S754_finite s m e) (S754_finite s m e) = Some Eq.
Proof.
  simpl. rewrite Z.compare_refl, compare_cont_refl. now destruct s.
Qed.

Lemma is_finite_spec (a : float) : is_finite a = SFfinite (Prim2SF a).
Proof.
  unfold is_finite, is_nan, is_infinity.
  rewrite !FloatAxioms.eqb_spec, FloatAxioms.abs_spec.
  change (Prim2SF infinity) with (S754_infinity false).
  unfold SFeqb.
  destruct (Prim2SF a) as [s|s| |s m e]; try reflexivity.
  - now destruct s.
  - now rewrite SFcompare_refl_finite.
Qed.

(** A finite number minus itself is [+0]. *)
Lemma sub_diag (a : float) : is_finite a = true -> a - a = 0.
Proof.
  rewrite is_finite_spec. intros Hfin.
  apply Prim2SF_inj. rewrite FloatAxioms.sub_spec.
  change (Prim2SF 0) with (S754_zero false).
  destruct (Prim2SF a) as [s|s| |s m e]; simpl in *; try discriminate.
  - now destruct s.
  - rewrite Z.min_id, Z.sub_diag. reflexivity.
Qed.
End Binary64.

(** * Rounding to binary64

    What [binary_round_aux], the rounding step shared by every operation of
    the specification, does to an exact positive mantissa. *)

Module Rounding.
Import Binary64.
Local Open Scope Z_scope.

(** Goals about the exponent function of binary64 are linear once its
    constants are in sight. *)
Ltac fexp_lia := unfold fexp, emin, prec, emax; lia.

Lemma digits2_bounds (p : positive) :
  2 ^ (Zpos (digits2_pos p) - 1) <= Zpos p < 2 ^ Zpos (digits2_pos p).
Proof.
  induction p as [p IH | p IH |]; simpl digits2_pos.
  - rewrite Pos2Z.inj_succ.
    replace (Z.succ (Zpos (digits2_pos p)) - 1)
      with (Z.succ (Zpos (digits2_pos p) - 1)) by lia.
    rewrite !Z.pow_succ_r by lia. lia.
  - rewrite Pos2Z.inj_succ.
    replace (Z.succ (Zpos (digits2_pos p)) - 1)
      with (Z.succ (Zpos (digits2_pos p) - 1)) by lia.
    rewrite !Z.pow_succ_r by lia. lia.
  - simpl. lia.
Qed.

Lemma iter_pos_nat {A : Type} (f : A -> A) (p : positive) (x : A) :
  SpecFloat.iter_pos f p x = Nat.iter (Pos.to_nat p) f x.
Proof.
  revert x. induction p as [p IH | p IH |]; intros x; simpl SpecFloat.iter_pos.
  - rewrite !IH, Pos2Nat.inj_xI, <- Nat.iter_succ_r.
    replace (S (2 * Pos.to_nat p))%nat
      with (Pos.to_nat p + S (Pos.to_nat p))%nat by lia.
    now rewrite Nat.iter_add.
  - rewrite !IH, Pos2Nat.inj_xO.
    replace (2 * Pos.to_nat p)%nat
      with (Pos.to_nat p + Pos.to_nat p)%nat by lia.
    now rewrite Nat.iter_add.
  - reflexivity.
Qed.

Lemma shr_1_m (x : shr_record) : 0 <= shr_m x -> shr_m (shr_1 x) = shr_m x / 2.
Proof.
  destruct x as [m r s]. simpl. intros Hm.
  rewrite <- Z.div2_div.
  destruct m as [|[p|p|]|p]; try reflexivity; lia.
Qed.

Lemma shr_1_r (x : shr_record) :
  0 <= shr_m x -> shr_r (shr_1 x) = Z.odd (shr_m x).
Proof.
  destruct x as [m r s]. simpl. intros Hm.
  destruct m as [|[p|p|]|p]; try reflexivity; lia.
Qed.

Lemma shr_nat_m (k : nat) (x : shr_record) :
  0 <= shr_m x -> shr_m (Nat.iter k shr_1 x) = shr_m x / 2 ^ Z.of_nat k.
Proof.
  intros Hx. induction k as [|k IH].
  - simpl. now rewrite Z.div_1_r.
  - rewrite Nat.iter_succ, shr_1_m, IH.
    + rewrite Nat2Z.inj_succ, Z.pow_succ_r by lia.
      rewrite Z.div_div by lia. f_equal. lia.
    + rewrite IH. apply Z.div_pos; lia.
Qed.

Lemma shr_nat_r (k : nat) (x : shr_record) :
  0 <= shr_m x ->
  shr_r (Nat.iter (S k) shr_1 x) = Z.odd (shr_m x / 2 ^ Z.of_nat k).
Proof.
  intros Hx. rewrite Nat.iter_succ, shr_1_r, shr_nat_m by
    (try rewrite shr_nat_m by assumption; try apply Z.div_pos; lia).
  reflexivity.
Qed.

Lemma shift_nonneg (m e : Z) : 0 <= shift m e.
Proof. unfold shift. lia. Qed.

Lemma shr_fexp_exact (m e : Z) :
  0 <= m ->
  exists mrs,
    shr_fexp prec emax m e loc_Exact = (mrs, e + shift m e) /\
    shr_m mrs = m / 2 ^ shift m e /\
    (shr_r mrs = true ->
     0 < shift m e /\ Z.odd (m / 2 ^ (shift m e - 1)) = true).
Proof.
  intros Hm. unfold shr_fexp, shr, shift.
  destruct (fexp prec emax (Zdigits2 m + e) - e) as [|n|n] eqn:Hn.
  - exists (Build_shr_record m false false). simpl.
    rewrite Z.add_0_r, Z.div_1_r. repeat split; discriminate.
  - exists (SpecFloat.iter_pos shr_1 n (Build_shr_record m false false)).
    rewrite Z.max_r by lia. split; [reflexivity|].
    rewrite iter_pos_nat.
    split.
    + rewrite shr_nat_m by assumption. simpl shr_m.
      now rewrite positive_nat_Z.
    + destruct (Pos.to_nat n) as [|k] eqn:Hk; [lia|].
      rewrite shr_nat_r by assumption. simpl shr_m.
      intros Hodd. split; [lia|].
      replace (Zpos n - 1) with (Z.of_nat k) by lia. exact Hodd.
  - exists (Build_shr_record m false false). simpl.
    rewrite Z.add_0_r, Z.div_1_r. repeat split; discriminate.
Qed.

Lemma round_nearest_even_bounds (mrs : shr_record) :
  shr_m mrs <= round_nearest_even (shr_m mrs) (loc_of_shr_record mrs)
            <= shr_m mrs + (if shr_r mrs then 1 else 0).
Proof.
  destruct mrs as [m [|] [|]]; simpl; try lia.
  destruct (Z.even m); lia.
Qed.

(** Rounding an exact mantissa: the mantissa is shifted right to its
    precision, moved to a neighbour [m1] of the quotient, and aligned again. *)
Lemma binary_round_aux_exact (s : bool) (m : positive) (e : Z) :
  exists m1,
    Zpos m / 2 ^ shift (Zpos m) e <= m1 <= Zpos m / 2 ^ shift (Zpos m) e + 1 /\
    (m1 = Zpos m / 2 ^ shift (Zpos m) e + 1 ->
     0 < shift (Zpos m) e /\
     Z.odd (Zpos m / 2 ^ (shift (Zpos m) e - 1)) = true) /\
    binary_round_aux prec emax s (Zpos m) e loc_Exact
    = rounded s m1 (e + shift (Zpos m) e).
Proof.
  destruct (shr_fexp_exact (Zpos m) e) as (mrs & Hshr & Hq & Hr); [lia|].
  pose proof (round_nearest_even_bounds mrs) as Hrne.
  set (m1 := round_nearest_even (shr_m mrs) (loc_of_shr_record mrs)) in *.
  exists m1. rewrite <- Hq. split; [|split].
  - destruct (shr_r mrs); lia.
  - intros Hup. apply Hr. destruct (shr_r mrs); [reflexivity | lia].
  - unfold binary_round_aux. rewrite Hshr. fold m1.
    assert (H1 : 0 <= m1).
    { assert (0 <= shr_m mrs); [|lia]. rewrite Hq.
      pose proof (shift_nonneg (Zpos m) e). apply Z.div_pos; lia. }
    destruct (shr_fexp_exact m1 (e + shift (Zpos m) e) H1)
      as (mrs2 & Hshr2 & Hq2 & _).
    rewrite Hshr2. unfold rounded. rewrite Hq2. reflexivity.
Qed.

Lemma shift_lt_digits (m : positive) (e : Z) :
  -1074 <= e -> shift (Zpos m) e <= Zpos (digits2_pos m) - 1.
Proof.
  intros He. unfold shift, fexp, emin, prec, emax. simpl Zdigits2.
  pose proof (Pos2Z.is_pos (digits2_pos m)). lia.
Qed.

(** Above the smallest exponent the shifted mantissa does not vanish. *)
Lemma quotient_pos (m : positive) (e : Z) :
  -1074 <= e -> 1 <= Zpos m / 2 ^ shift (Zpos m) e.
Proof.
  intros He.
  pose proof (shift_lt_digits m e He) as Hs.
  pose proof (shift_nonneg (Zpos m) e) as Hs0.
  pose proof (digits2_bounds m) as [Hd _].
  apply Z.div_le_lower_bound; [apply Z.pow_pos_nonneg; lia|].
  rewrite Z.mul_1_r.
  transitivity (2 ^ (Zpos (digits2_pos m) - 1)); [|assumption].
  apply Z.pow_le_mono_r; lia.
Qed.

Lemma rounded_signed (s : bool) (m e : Z) : 0 <= m -> signed s (rounded s m e).
Proof.
  intros Hm. unfold rounded.
  pose proof (shift_nonneg m e).
  assert (0 <= m / 2 ^ shift m e) by (apply Z.div_pos; lia).
  destruct (m / 2 ^ shift m e); try lia; simpl; [reflexivity|].
  now destruct (_ <=? _).
Qed.

Lemma rounded_nonzero (s : bool) (m e : Z) :
  1 <= m -> -1074 <= e -> nonzero (rounded s m e).
Proof.
  intros Hm He. unfold rounded.
  destruct m as [|p|p]; try lia.
  pose proof (quotient_pos p e He).
  destruct (Zpos p / 2 ^ shift (Zpos p) e); try lia.
  now destruct (_ <=? _).
Qed.

Lemma binary_round_aux_signed (s : bool) (m : positive) (e : Z) :
  signed s (binary_round_aux prec emax s (Zpos m) e loc_Exact).
Proof.
  destruct (binary_round_aux_exact s m e) as (m1 & [Hlo _] & _ & ->).
  apply rounded_signed.
  pose proof (shift_nonneg (Zpos m) e).
  assert (0 <= Zpos m / 2 ^ shift (Zpos m) e) by (apply Z.div_pos; lia).
  lia.
Qed.

Lemma binary_round_aux_nonzero (s : bool) (m : positive) (e : Z) :
  -1074 <= e -> nonzero (binary_round_aux prec emax s (Zpos m) e loc_Exact).
Proof.
  intros He.
  destruct (binary_round_aux_exact s m e) as (m1 & [Hlo _] & _ & ->).
  pose proof (quotient_pos m e He). pose proof (shift_nonneg (Zpos m) e).
  apply rounded_nonzero; lia.
Qed.

Lemma binary_round_signed_nonzero (s : bool) (m : positive) (e : Z) :
  -1074 <= e ->
  signed s (binary_round prec emax s m e) /\
  nonzero (binary_round prec emax s m e).
Proof.
  intros He. unfold binary_round, shl_align.
  destruct (fexp prec emax (Zpos (digits2_pos m) + e) - e) eqn:Hd;
    (split; [apply binary_round_aux_signed | apply binary_round_aux_nonzero]);
    try assumption.
  fexp_lia.
Qed.


Lemma pow2_pos (k : Z) : 0 <= k -> 0 < 2 ^ k.
Proof. intros. apply Z.pow_pos_nonneg; lia. Qed.

Lemma pow2_split (a b : Z) : 0 <= a <= b -> 2 ^ b = 2 ^ a * 2 ^ (b - a).
Proof. intros. rewrite <- Z.pow_add_r by lia. f_equal. lia. Qed.

Lemma digits_le (m : positive) (k : Z) :
  Zpos m < 2 ^ k -> Zpos (digits2_pos m) <= k.
Proof.
  intros Hm. pose proof (digits2_bounds m) as [Hlo _].
  destruct (Z_lt_le_dec k (Zpos (digits2_pos m))) as [Hlt|]; [|assumption].
  exfalso.
  destruct (Z_lt_le_dec k 0) as [Hneg|Hk].
  - rewrite Z.pow_neg_r in Hm by assumption. lia.
  - assert (2 ^ k <= 2 ^ (Zpos (digits2_pos m) - 1))
      by (apply Z.pow_le_mono_r; lia).
    lia.
Qed.

Lemma digits_gt (m : positive) (k : Z) :
  2 ^ k <= Zpos m -> k < Zpos (digits2_pos m).
Proof.
  intros Hm. pose proof (digits2_bounds m) as [_ Hhi].
  destruct (Z_lt_le_dec k (Zpos (digits2_pos m))) as [|Hle]; [assumption|].
  exfalso.
  assert (2 ^ Zpos (digits2_pos m) <= 2 ^ k) by (apply Z.pow_le_mono_r; lia).
  lia.
Qed.

(** Rounding to nearest stays at or below [K] when the exact mantissa is
    below the midpoint between [K] and [K + 1]. *)
Lemma nearest_upper (m : positive) (n m1 K : Z) :
  0 <= n ->
  Zpos m / 2 ^ n <= m1 <= Zpos m / 2 ^ n + 1 ->
  (m1 = Zpos m / 2 ^ n + 1 -> 0 < n /\ Z.odd (Zpos m / 2 ^ (n - 1)) = true) ->
  2 * Zpos m < (2 * K + 1) * 2 ^ n ->
  m1 <= K.
Proof.
  intros Hn Hm1 Hup Hlt.
  pose proof (pow2_pos n Hn) as Hpn.
  pose proof (Z.mul_div_le (Zpos m) (2 ^ n) Hpn) as Hq.
  set (q := Zpos m / 2 ^ n) in *.
  assert (Hqk : q <= K) by nia.
  destruct (Z.eq_dec m1 (q + 1)) as [Heq | Hne]; [|lia].
  destruct (Hup Heq) as [Hn0 Hodd].
  assert (Hpn1 : 0 < 2 ^ (n - 1)) by (apply pow2_pos; lia).
  assert (H2 : 2 ^ n = 2 * 2 ^ (n - 1)).
  { replace n with (Z.succ (n - 1)) at 1 by lia. apply Z.pow_succ_r. lia. }
  set (u := Zpos m / 2 ^ (n - 1)) in *.
  assert (Hu : u / 2 = q).
  { unfold u, q. rewrite Z.div_div by lia. rewrite H2. f_equal. lia. }
  pose proof (Z.mul_div_le (Zpos m) (2 ^ (n - 1)) Hpn1) as Hum. fold u in Hum.
  assert (Hu2 : u = 2 * q + 1).
  { rewrite <- Hu. pose proof (Zdiv2_odd_eqn u) as Hd.
    rewrite Hodd in Hd. rewrite Z.div2_div in Hd. lia. }
  nia.
Qed.

(** A valid finite float: its exponent is in range, its mantissa has at most
    53 bits, and exactly 53 above the smallest exponent. *)
Lemma valid_finite (s : bool) (m : positive) (e : Z) :
  SpecFloat.valid_binary prec emax (S754_finite s m e) = true ->
  -1074 <= e <= 971 /\ Zpos m < 2 ^ 53 /\ (-1074 < e -> 2 ^ 52 <= Zpos m).
Proof.
  simpl. unfold bounded, canonical_mantissa, fexp, emin, prec, emax.
  intros H. apply andb_prop in H as [Hc He].
  apply Z.eqb_eq in Hc. apply Z.leb_le in He.
  pose proof (digits2_bounds m) as [Hlo Hhi].
  split; [lia|]. split.
  - assert (2 ^ Zpos (digits2_pos m) <= 2 ^ 53)
      by (apply Z.pow_le_mono_r; lia).
    lia.
  - intros Hn. replace (Zpos (digits2_pos m)) with 53 in Hlo by lia.
    exact Hlo.
Qed.

(** Valid positive floats compare as the numbers they stand for. *)
Lemma compare_lt_of_value (m1 m2 : positive) (e1 e2 c : Z) :
  SpecFloat.valid_binary prec emax (S754_finite false m1 e1) = true ->
  SpecFloat.valid_binary prec emax (S754_finite false m2 e2) = true ->
  c <= e1 -> c <= e2 ->
  Zpos m1 * 2 ^ (e1 - c) < Zpos m2 * 2 ^ (e2 - c) ->
  SFcompare (S754_finite false m1 e1) (S754_finite false m2 e2) = Some Lt.
Proof.
  intros Hv1 Hv2 Hc1 Hc2 Hlt.
  apply valid_finite in Hv1 as (He1 & Hm1 & Hn1).
  apply valid_finite in Hv2 as (He2 & Hm2 & Hn2).
  simpl. destruct (Z.compare_spec e1 e2) as [Heq | Hl | Hg].
  - subst e2. rewrite compare_cont_spec.
    pose proof (pow2_pos (e1 - c) ltac:(lia)).
    assert (Zpos m1 < Zpos m2) by nia.
    f_equal. apply Pos.compare_lt_iff. lia.
  - reflexivity.
  - exfalso.
    specialize (Hn1 ltac:(lia)).
    pose proof (pow2_pos (e2 - c) ltac:(lia)) as Hp2.
    pose proof (pow2_split (e2 - c) (e1 - c) ltac:(lia)) as Hs.
    replace (e1 - c - (e2 - c)) with (e1 - e2) in Hs by lia.
    assert (2 <= 2 ^ (e1 - e2)).
    { change 2 with (2 ^ 1) at 1. apply Z.pow_le_mono_r; lia. }
    rewrite Hs in Hlt. nia.
Qed.

Lemma value_of_compare_lt (m1 m2 : positive) (e1 e2 : Z) :
  SpecFloat.valid_binary prec emax (S754_finite false m1 e1) = true ->
  SpecFloat.valid_binary prec emax (S754_finite false m2 e2) = true ->
  SFcompare (S754_finite false m1 e1) (S754_finite false m2 e2) = Some Lt ->
  e1 <= e2 /\ Zpos m1 < Zpos m2 * 2 ^ (e2 - e1).
Proof.
  intros Hv1 Hv2.
  apply valid_finite in Hv1 as (He1 & Hm1 & Hn1).
  apply valid_finite in Hv2 as (He2 & Hm2 & Hn2).
  simpl. destruct (Z.compare_spec e1 e2) as [Heq | Hl | Hg];
    try discriminate.
  - subst e2. rewrite compare_cont_spec. intros [= Hc].
    pose proof (Pos2Z.pos_lt_pos m1 m2 Hc).
    rewrite Z.sub_diag, Z.pow_0_r. lia.
  - intros _. split; [lia|].
    specialize (Hn2 ltac:(lia)).
    assert (2 <= 2 ^ (e2 - e1)).
    { change 2 with (2 ^ 1) at 1. apply Z.pow_le_mono_r; lia. }
    nia.
Qed.

(** A rounded mantissa below a valid float [W], on a grid no coarser than
    that of [W], gives a float below [W]. *)
Lemma rounded_lt (m1 e1 : Z) (mW : positive) (eW : Z) :
  0 <= m1 -> e1 <= eW ->
  SpecFloat.valid_binary prec emax (S754_finite false mW eW) = true ->
  m1 < Zpos mW * 2 ^ (eW - e1) ->
  SpecFloat.valid_binary prec emax (rounded false m1 e1) = true ->
  SFltb (rounded false m1 e1) (S754_finite false mW eW) = true.
Proof.
  intros Hm1 He1 HvW Hlt. unfold rounded, SFltb.
  pose proof (valid_finite _ _ _ HvW) as (HeW & HmW & _).
  pose proof (shift_nonneg m1 e1) as Hs0.
  pose proof (pow2_pos _ Hs0) as Hps.
  pose proof (Z.mul_div_le m1 _ Hps) as Hq.
  pose proof (Z.div_pos m1 _ Hm1 Hps) as Hq0.
  destruct (m1 / 2 ^ shift m1 e1) as [|p|p] eqn:Hp; [reflexivity| |lia].
  destruct m1 as [|m1|m1]; try lia.
  assert (Hgrid : e1 + shift (Zpos m1) e1 <= eW).
  { pose proof (pow2_pos (eW - e1) ltac:(lia)).
    assert (Hm1W : Zpos m1 < 2 ^ (53 + (eW - e1))).
    { rewrite Z.pow_add_r by lia. nia. }
    apply digits_le in Hm1W.
    unfold shift, fexp, emin, prec, emax. simpl Zdigits2.
    clear - He1 HeW Hm1W. lia. }
  destruct (_ <=? _) eqn:Hle;
    [|apply Z.leb_gt in Hle; unfold emax, prec in Hle; lia].
  intros Hv.
  rewrite (compare_lt_of_value _ _ _ _ e1); try assumption; try lia.
  replace (e1 + shift (Zpos m1) e1 - e1) with (shift (Zpos m1) e1) by lia.
  lia.
Qed.

(** An exact product that is below a normal float [W] by at least the
    fraction [2^-53] of [W] rounds to a float below [W]. *)
Lemma round_below (m : positive) (e : Z) (mW : positive) (eW : Z) :
  SpecFloat.valid_binary prec emax (S754_finite false mW eW) = true ->
  2 ^ 52 <= Zpos mW -> -1074 < eW -> e < eW ->
  Zpos m * 2 ^ 53 <= Zpos mW * 2 ^ (eW - e) * (2 ^ 53 - 1) ->
  SpecFloat.valid_binary prec emax
    (binary_round_aux prec emax false (Zpos m) e loc_Exact) = true ->
  SFltb (binary_round_aux prec emax false (Zpos m) e loc_Exact)
        (S754_finite false mW eW) = true.
Proof.
  intros HvW Hnorm HeW0 He Hfrac.
  destruct (binary_round_aux_exact false m e) as (m1 & Hb & Hup & ->).
  intros Hv.
  pose proof (valid_finite _ _ _ HvW) as (HeW & HmW & _).
  pose proof (shift_nonneg (Zpos m) e) as Hn0.
  set (n1 := shift (Zpos m) e) in *.
  pose proof (pow2_pos (eW - e) ltac:(lia)) as HE.
  set (E := 2 ^ (eW - e)) in *.
  change (2 ^ 53) with 9007199254740992 in *.
  change (2 ^ 52) with 4503599627370496 in *.
  assert (HmW' : Zpos m < Zpos mW * E) by nia.
  (* the grid of the rounding is no coarser than that of W *)
  assert (Hd : Zpos (digits2_pos m) <= 53 + (eW - e)).
  { apply digits_le. rewrite Z.pow_add_r by lia. fold E.
    change (2 ^ 53) with 9007199254740992. nia. }
  assert (Hn1 : n1 = Z.max 0 (Z.max (Zpos (digits2_pos m) + e - 53) (-1074) - e))
    by reflexivity.
  assert (Hgrid : n1 <= eW - e) by lia.
  pose proof (pow2_pos n1 Hn0) as Hpn.
  assert (Hsplit : E = 2 ^ n1 * 2 ^ (eW - (e + n1))).
  { unfold E. rewrite (pow2_split n1 (eW - e)) by lia. do 2 f_equal. lia. }
  pose proof (pow2_pos (eW - (e + n1)) ltac:(lia)) as HpG.
  set (G := 2 ^ (eW - (e + n1))) in *.
  assert (Hfar : 2 ^ n1 < 2 * (Zpos mW * E - Zpos m)).
  { destruct (Z.eq_dec n1 (eW - e)) as [Heq | Hne].
    - assert (HG1 : G = 1).
      { unfold G. replace (eW - (e + n1)) with 0 by lia. reflexivity. }
      assert (Hdm : 2 ^ (52 + n1) <= Zpos m).
      { pose proof (digits2_bounds m) as [Hlo _].
        replace (52 + n1) with (Zpos (digits2_pos m) - 1) by lia. exact Hlo. }
      rewrite Z.pow_add_r in Hdm by lia.
      change (2 ^ 52) with 4503599627370496 in Hdm.
      nia.
    - assert (2 <= G).
      { unfold G. change 2 with (2 ^ 1) at 1. apply Z.pow_le_mono_r; lia. }
      nia. }
  assert (Hm1 : m1 <= Zpos mW * G - 1).
  { apply (nearest_upper m n1); try assumption. nia. }
  apply rounded_lt; try assumption.
  - pose proof (Z.div_pos (Zpos m) (2 ^ n1) ltac:(lia) Hpn). lia.
  - lia.
  - fold G. lia.
Qed.

Lemma iter_xO_value (m d : positive) :
  Zpos (Pos.iter xO m d) = Zpos m * 2 ^ Zpos d.
Proof.
  induction d as [|d IH] using Pos.peano_ind.
  - simpl. lia.
  - rewrite Pos.iter_succ, Pos2Z.inj_succ, Z.pow_succ_r by lia.
    rewrite Pos2Z.inj_xO, IH. lia.
Qed.

(** Aligning a mantissa to a lower exponent keeps the number. *)
Lemma shl_align_value (m : positive) (e e' : Z) :
  e' <= e -> Zpos (fst (shl_align m e e')) = Zpos m * 2 ^ (e - e').
Proof.
  intros He. unfold shl_align.
  destruct (e' - e) as [|d|d] eqn:Hd; try lia; simpl fst.
  - replace (e - e') with 0 by lia. simpl. lia.
  - rewrite iter_xO_value. do 2 f_equal. lia.
Qed.

Lemma rounded_exponent (s s' : bool) (m e : Z) (p : positive) (e' : Z) :
  rounded s m e = S754_finite s' p e' -> e <= e'.
Proof.
  unfold rounded. pose proof (shift_nonneg m e).
  destruct (m / 2 ^ shift m e); try discriminate.
  destruct (_ <=? _); [|discriminate].
  intros [= _ _ <-]. lia.
Qed.

(** Rounding never lowers the exponent. *)
Lemma binary_round_aux_exponent (s s' : bool) (m : positive) (e : Z)
      (p : positive) (e' : Z) :
  binary_round_aux prec emax s (Zpos m) e loc_Exact = S754_finite s' p e' ->
  e <= e'.
Proof.
  destruct (binary_round_aux_exact s m e) as (m1 & _ & _ & ->).
  intros H. apply rounded_exponent in H.
  pose proof (shift_nonneg (Zpos m) e). lia.
Qed.

Lemma binary_round_exponent (s s' : bool) (m : positive) (e : Z)
      (p : positive) (e' : Z) :
  binary_round prec emax s m e = S754_finite s' p e' ->
  Z.min e (Zpos (digits2_pos m) + e - 53) <= e'.
Proof.
  unfold binary_round, shl_align.
  destruct (fexp prec emax (Zpos (digits2_pos m) + e) - e) eqn:Hd;
    intros H; apply binary_round_aux_exponent in H;
    unfold fexp, emin, prec, emax in *; lia.
Qed.
End Rounding.

(** * Order and scaling facts about binary64 numbers *)

Module Binary64Order.
Import Binary64 Rounding.
Local Open Scope float_scope.

Lemma leb0_spec (a : float) : (0 <=? a) = true <-> SFnonneg (Prim2SF a).
Proof.
  rewrite FloatAxioms.leb_spec. change (Prim2SF 0) with (S754_zero false).
  unfold SFleb. destruct (Prim2SF a) as [s|[|]| |[|] m e]; simpl;
    intuition discriminate.
Qed.

Lemma ltb0_spec (a : float) : (0 <? a) = true <-> SFpos (Prim2SF a).
Proof.
  rewrite FloatAxioms.ltb_spec. change (Prim2SF 0) with (S754_zero false).
  unfold SFltb. destruct (Prim2SF a) as [s|[|]| |[|] m e]; simpl;
    intuition discriminate.
Qed.

Lemma nonneg_not_nan (a : float) : (0 <=? a) = true -> is_nan a = false.
Proof.
  rewrite leb0_spec. unfold is_nan. rewrite FloatAxioms.eqb_spec. unfold SFeqb.
  destruct (Prim2SF a) as [s|[|]| |[|] m e]; simpl; try tauto; intros _.
  now rewrite Z.compare_refl, compare_cont_refl.
Qed.

(** A non-negative number times a positive finite one is non-negative. *)
Lemma mul_nonneg (a c : float) (mc : positive) (ec : Z) :
  Prim2SF c = S754_finite false mc ec ->
  (0 <=? a) = true -> (0 <=? a * c) = true.
Proof.
  intros Hc. rewrite !leb0_spec, FloatAxioms.mul_spec, Hc.
  destruct (Prim2SF a) as [s|[|]| |[|] m e]; simpl; try tauto. intros _.
  pose proof (binary_round_aux_signed false (m * mc) (e + ec)) as H.
  simpl in H.
  destruct (binary_round_aux _ _ _ _ _ _) as [s'|s'| |s' m' e'];
    simpl in *; subst; tauto.
Qed.


Lemma SFcompare_pos (m1 m2 : positive) (e1 e2 : Z) :
  SFcompare (S754_finite false m1 e1) (S754_finite false m2 e2)
  = Some match (e1 ?= e2)%Z with
         | Lt => Lt
         | Gt => Gt
         | Eq => (m1 ?= m2)%positive
         end.
Proof. reflexivity. Qed.

(** A finite number from 1 upwards: positive and normal. *)
Lemma ge1_finite_spec (w : float) :
  (1 <=? w) = true -> (w <? infinity) = true ->
  exists mw ew,
    Prim2SF w = S754_finite false mw ew /\
    (2 ^ 52 <= Zpos mw)%Z /\ (-52 <= ew)%Z.
Proof.
  rewrite FloatAxioms.leb_spec, FloatAxioms.ltb_spec.
  change (Prim2SF 1) with (S754_finite false 4503599627370496 (-52)).
  change (Prim2SF infinity) with (S754_infinity false).
  pose proof (Prim2SF_valid w) as Hv.
  unfold SFleb, SFltb.
  destruct (Prim2SF w) as [s|[|]| |[|] mw ew]; try discriminate.
  rewrite SFcompare_pos.
  intros H1 _. exists mw, ew. split; [reflexivity|].
  apply valid_finite in Hv as (He & Hm & Hn).
  destruct (Z.compare_spec (-52) ew); try discriminate; split; try lia;
    apply Hn; lia.
Qed.

(** A non-negative number below 1: a zero, or a positive mantissa and
    exponent with [m * 2^e < 1]. *)
Lemma unit_interval_spec (r : float) :
  (0 <=? r) = true -> (r <? 1) = true ->
  (exists s, Prim2SF r = S754_zero s) \/
  (exists mr er,
      Prim2SF r = S754_finite false mr er /\
      (er <= -52)%Z /\ (Zpos mr < 2 ^ 53)%Z /\
      (Zpos mr < 2 ^ 52 * 2 ^ (-52 - er))%Z).
Proof.
  rewrite leb0_spec, FloatAxioms.ltb_spec.
  change (Prim2SF 1) with (S754_finite false 4503599627370496 (-52)).
  pose proof (Prim2SF_valid r) as Hv.
  destruct (Prim2SF r) as [s|[|]| |[|] mr er]; simpl SFnonneg; try tauto.
  - intros _ _. left. now exists s.
  - intros _. simpl. discriminate.
  - intros _ Hlt. right. exists mr, er. split; [reflexivity|].
    apply SFltb_Lt in Hlt.
    apply value_of_compare_lt in Hlt as [He Hm]; [|assumption|reflexivity].
    apply valid_finite in Hv as (_ & Hm53 & _).
    change (Zpos 4503599627370496) with (2 ^ 52)%Z in Hm. lia.
Qed.

(** A draw from the unit interval scales a finite [w >= 1] to strictly less
    than [w]. *)
Lemma mul_lt_self (r w : float) :
  (0 <=? r) = true -> (r <? 1) = true ->
  (1 <=? w) = true -> (w <? infinity) = true ->
  (r * w <? w) = true.
Proof.
  intros Hr0 Hr1 Hw1 Hwf.
  destruct (ge1_finite_spec w Hw1 Hwf) as (mw & ew & Hw & Hmw & Hew).
  pose proof (Prim2SF_valid w) as Hvw. rewrite Hw in Hvw.
  pose proof (Prim2SF_valid (r * w)) as Hv.
  rewrite FloatAxioms.ltb_spec. rewrite FloatAxioms.mul_spec in *. rewrite Hw in *.
  destruct (unit_interval_spec r Hr0 Hr1)
    as [[s Hz] | (mr & er & Hf & Her & Hm53 & Hmr)].
  - rewrite Hz. reflexivity.
  - rewrite Hf in *. simpl SF64mul in *.
    apply round_below; try assumption; try lia.
    replace (ew - (er + ew))%Z with (52 + (-52 - er))%Z by lia.
    rewrite Z.pow_add_r by lia.
    assert (HA : (1 <= 2 ^ (-52 - er))%Z).
    { change 1%Z with (2 ^ 0)%Z. apply Z.pow_le_mono_r; lia. }
    set (A := (2 ^ (-52 - er))%Z) in *.
    change (2 ^ 53)%Z with 9007199254740992%Z in *.
    change (2 ^ 52)%Z with 4503599627370496%Z in *.
    rewrite Pos2Z.inj_mul.
    clearbody A.
    destruct (Z.eq_dec A 1%Z) as [-> | HA1]; nia.
Qed.

Lemma normal_digits (m : positive) :
  (2 ^ 52 <= Zpos m < 2 ^ 53)%Z -> SpecFloat.digits2_pos m = 53%positive.
Proof.
  intros [Hlo Hhi]. apply digits_gt in Hlo. apply digits_le in Hhi.
  apply Pos2Z.inj. lia.
Qed.

(** Halving a finite number from 1 upwards lowers its exponent by one. *)
Lemma div_two_spec (h : float) (mh : positive) (eh : Z) :
  Prim2SF h = S754_finite false mh eh ->
  (2 ^ 52 <= Zpos mh)%Z -> (-52 <= eh)%Z ->
  Prim2SF (h / 2) = S754_finite false mh (eh - 1).
Proof.
  intros Hh Hm He.
  pose proof (Prim2SF_valid h) as Hv. rewrite Hh in Hv.
  apply valid_finite in Hv as (Heh & Hm53 & _).
  pose proof (normal_digits mh (conj Hm Hm53)) as Hd.
  rewrite FloatAxioms.div_spec, Hh.
  change (Prim2SF 2) with (S754_finite false 4503599627370496 (-51)).
  unfold SF64div, SFdiv, SFdiv_core_binary.
  cbn [Zdigits2 xorb]. rewrite Hd.
  change (Zpos (digits2_pos 4503599627370496)) with 53%Z.
  replace (Z.min (fexp prec emax (53 + eh - (53 + -51))) (eh - -51))%Z
    with (eh - 2)%Z by fexp_lia.
  replace (eh - -51 - (eh - 2))%Z with 53%Z by lia.
  assert (Hdiv : IntDef.Z.div_eucl (Z.shiftl (Zpos mh) 53) 4503599627370496
                 = (Zpos mh~0, 0%Z)).
  { change (IntDef.Z.div_eucl (Z.shiftl (Zpos mh) 53) 4503599627370496)
      with (Z.div_eucl (Z.shiftl (Zpos mh) 53) 4503599627370496).
    rewrite Z.shiftl_mul_pow2 by lia.
    replace (Zpos mh * 2 ^ 53)%Z with (Zpos mh~0 * 4503599627370496)%Z by lia.
    pose proof (Z.div_mul (Zpos mh~0) 4503599627370496 ltac:(lia)) as Hq.
    pose proof (Z.mod_mul (Zpos mh~0) 4503599627370496 ltac:(lia)) as Hr.
    unfold Z.div, Z.modulo in Hq, Hr.
    destruct (Z.div_eucl _ _) as [q r]. simpl in Hq, Hr. now subst. }
  rewrite Hdiv.
  change (new_location 4503599627370496 0) with loc_Exact.
  unfold binary_round_aux, shr_fexp.
  change (Zdigits2 (Zpos mh~0))
    with (Zpos (Pos.succ (SpecFloat.digits2_pos mh))).
  replace (fexp prec emax (Zpos (Pos.succ (SpecFloat.digits2_pos mh)) + (eh - 2))
           - (eh - 2))%Z
    with 1%Z by (rewrite Hd; fexp_lia).
  cbn [shr shr_record_of_loc SpecFloat.iter_pos shr_1 shr_m loc_of_shr_record
       round_nearest_even orb].
  change (Zdigits2 (Zpos mh)) with (Zpos (SpecFloat.digits2_pos mh)).
  rewrite Hd.
  replace (fexp prec emax (53 + (eh - 2 + 1)) - (eh - 2 + 1))%Z
    with 0%Z by fexp_lia.
  cbn [shr shr_record_of_loc shr_m].
  replace (eh - 2 + 1)%Z with (eh - 1)%Z by lia.
  replace (eh - 1 <=? emax - prec)%Z with true
    by (symmetry; apply Z.leb_le; unfold emax, prec; lia).
  reflexivity.
Qed.

(** Halving keeps a non-negative number strictly below half of a finite
    [h >= 1] that it is below. *)
Lemma half_lt (t h : float) :
  (0 <=? t) = true -> (t <? h) = true ->
  (1 <=? h) = true -> (h <? infinity) = true ->
  (t * 0.5 <? h / 2) = true.
Proof.
  intros Ht0 Hth Hh1 Hhf.
  destruct (ge1_finite_spec h Hh1 Hhf) as (mh & eh & Hh & Hmh & Heh).
  pose proof (Prim2SF_valid h) as Hvh. rewrite Hh in Hvh.
  pose proof (Prim2SF_valid (h / 2)) as HvW.
  pose proof (Prim2SF_valid (t * 0.5)) as Hv.
  pose proof (Prim2SF_valid t) as Hvt.
  rewrite FloatAxioms.ltb_spec in *.
  rewrite (div_two_spec h mh eh Hh Hmh Heh) in *.
  rewrite FloatAxioms.mul_spec in *. rewrite Hh in Hth.
  change (Prim2SF 0.5) with (S754_finite false 4503599627370496 (-53)) in *.
  apply leb0_spec in Ht0.
  destruct (Prim2SF t) as [s|[|]| |[|] mt et]; simpl in Ht0; try tauto;
    try discriminate; try reflexivity.
  apply SFltb_Lt in Hth.
  apply value_of_compare_lt in Hth as [Het Hmt]; try assumption.
  pose proof (valid_finite _ _ _ Hvt) as (_ & Hmt53 & _).
  pose proof (valid_finite _ _ _ Hvh) as (_ & Hmh53 & _).
  simpl SF64mul in *.
  apply round_below; try assumption; try lia.
  replace (eh - 1 - (et + -53))%Z with (52 + (eh - et))%Z by lia.
  rewrite Z.pow_add_r by lia.
  assert (HB : (1 <= 2 ^ (eh - et))%Z).
  { change 1%Z with (2 ^ 0)%Z. apply Z.pow_le_mono_r; lia. }
  set (B := (2 ^ (eh - et))%Z) in *. clearbody B.
  change (2 ^ 53)%Z with 9007199254740992%Z in *.
  change (2 ^ 52)%Z with 4503599627370496%Z in *.
  rewrite Pos2Z.inj_mul.
  change (Zpos 4503599627370496) with 4503599627370496%Z.
  destruct (Z.eq_dec B 1%Z) as [-> | HB1]; [lia|].
  assert (HX : (9007199254740992 <= Zpos mh * B)%Z) by nia.
  set (X := (Zpos mh * B)%Z) in *.
  replace (Zpos mh * (4503599627370496 * B))%Z with (4503599627370496 * X)%Z
    by (unfold X; lia).
  lia.
Qed.
End Binary64Order.

(** * Reconciliation *)

Section ReconcileFacts.
Variables (width height : float) (rand : nat -> float).

Lemma findNode_Some (ident : string) (l : list Node) (n : Node) :
  findNode ident l = Some n -> In n l /\ node_id n = ident.
Proof.
  unfold findNode. intros H. apply find_some in H as [Hin Heq].
  split; [assumption | now apply String.eqb_eq].
Qed.

Lemma findNode_None (ident : string) (l : list Node) :
  findNode ident l = None -> ~ In ident (map node_id l).
Proof.
  unfold findNode. intros H Hin.
  apply in_map_iff in Hin as (n & Hid & Hn).
  pose proof (find_none _ _ H n Hn) as Hne. simpl in Hne.
  rewrite Hid, String.eqb_refl in Hne. discriminate.
Qed.

(** With unique ids, [find] returns the one held node that has the id. *)
Lemma findNode_unique (l : list Node) (old : Node) :
  NoDup (map node_id l) -> old ∈ l -> findNode (node_id old) l = Some old.
Proof.
  unfold findNode. induction l as [|n rest IH]; simpl; intros Hnd Hin.
  - now apply list_elem_of_In in Hin.
  - inversion Hnd as [|? ? Hfresh Hrest]; subst.
    apply list_elem_of_In in Hin. destruct Hin as [-> | Hin].
    + now rewrite String.eqb_refl.
    + destruct (String.eqb_spec (node_id n) (node_id old)) as [Heq | _].
      * exfalso. apply Hfresh. rewrite Heq.
        apply list_elem_of_In. now apply in_map.
      * apply IH; [assumption | now apply list_elem_of_In].
Qed.

Lemma reconcileNodes_length (held : list Node) (ns : list SnapshotNode) (k : nat) :
  length (fst (reconcileNodes width height rand held k ns)) = length ns.
Proof.
  revert k. induction ns as [|n rest IH]; intros k; simpl; [reflexivity|].
  destruct (reconcileNode width height rand held k n) as [n' k'].
  specialize (IH k').
  destruct (reconcileNodes width height rand held k' rest) as [rest' k''].
  simpl in *. now rewrite IH.
Qed.

(** The [i]-th new node is the callback's result on the [i]-th snapshot
    node, at the draw count reached by then. *)
Lemma reconcileNodes_lookup (held : list Node) (ns : list SnapshotNode)
      (k i : nat) (n : SnapshotNode) :
  ns !! i = Some n ->
  exists k', (k <= k')%nat /\
    fst (reconcileNodes width height rand held k ns) !! i
    = Some (fst (reconcileNode width height rand held k' n)).
Proof.
  revert k i. induction ns as [|m rest IH]; intros k i Hi; [discriminate|].
  simpl.
  destruct (reconcileNode width height rand held k m) as [m' k1] eqn:Hm.
  destruct (reconcileNodes width height rand held k1 rest) as [rest' k2] eqn:Hrest.
  destruct i as [|i]; simpl in *.
  - injection Hi as <-. exists k. rewrite Hm. split; [lia | reflexivity].
  - destruct (IH k1 i Hi) as (k' & Hle & Hk'). rewrite Hrest in Hk'.
    exists k'. split; [|exact Hk'].
    assert (k <= k1)%nat; [|lia].
    unfold reconcileNode in Hm.
    destruct (findNode (snap_id m) held); injection Hm as _ <-; lia.
Qed.

Lemma reconcileNode_existing (held : list Node) (k : nat) (n : SnapshotNode)
      (old : Node) :
  findNode (snap_id n) held = Some old ->
  fst (reconcileNode width height rand held k n)
  = mkNode (snap_id n) (snap_type n)
           (node_x old) (node_y old) (node_vx old) (node_vy old).
Proof. intros H. unfold reconcileNode. now rewrite H. Qed.

Lemma reconcileNode_fresh (held : list Node) (k : nat) (n : SnapshotNode) :
  findNode (snap_id n) held = None ->
  fst (reconcileNode width height rand held k n)
  = mkNode (snap_id n) (snap_type n)
           (rand k * width)%float (rand (S k) * height * 0.5)%float 0%float 0%float.
Proof. intros H. unfold reconcileNode. now rewrite H. Qed.

(** C1.  Reconciliation preserves kinematics: a held node whose id occurs
    in the new snapshot is found again, at the snapshot's position for that
    id, with exactly its [x], [y], [vx] and [vy] (and the snapshot's type),
    before any integration step has run. *)
Theorem reconcile_preserves_kinematics
        (current : Physics) (k : nat) (graphData : GraphData)
        (old : Node) (i : nat) (n : SnapshotNode) :
  NoDup (map node_id (nodes current)) ->
  old ∈ nodes current ->
  gd_nodes graphData !! i = Some n ->
  snap_id n = node_id old ->
  nodes (fst (reconcile width height rand current k graphData)) !! i
  = Some (mkNode (node_id old) (snap_type n)
                 (node_x old) (node_y old) (node_vx old) (node_vy old)).
Proof.
  intros Hnd Hin Hi Hid. unfold reconcile.
  destruct (reconcileNodes_lookup (nodes current) _ k i n Hi) as (k' & _ & Hk').
  destruct (reconcileNodes width height rand (nodes current) k (gd_nodes graphData))
    as [newNodes k''] eqn:Hrec.
  simpl in *. rewrite Hk'.
  rewrite (reconcileNode_existing _ _ _ old).
  - now rewrite Hid.
  - rewrite Hid. now apply findNode_unique.
Qed.
End ReconcileFacts.

(** ** Where new nodes spawn *)

Section SpawnRegion.
Import Binary64Order.
Local Open Scope float_scope.

Variables (width height : float) (rand : nat -> float).

(** [Math.random()] returns numbers in the unit interval [0, 1). *)
Hypothesis rand_unit : forall j, (0 <=? rand j) = true /\ (rand j <? 1) = true.

(** The viewport has a finite size of at least one pixel each way. *)
Hypothesis width_pos : (1 <=? width) = true /\ (width <? infinity) = true.
Hypothesis height_pos : (1 <=? height) = true /\ (height <? infinity) = true.

Lemma spawn_x (j : nat) :
  (0 <=? rand j * width) = true /\ (rand j * width <? width) = true.
Proof.
  destruct (rand_unit j) as [H0 H1]. destruct width_pos as [Hw1 Hwf].
  split; [|now apply mul_lt_self].
  destruct (ge1_finite_spec width Hw1 Hwf) as (mw & ew & Hw & _).
  now apply mul_nonneg with mw ew.
Qed.

Lemma spawn_y (j : nat) :
  (0 <=? rand j * height * 0.5) = true /\
  (rand j * height * 0.5 <? height / 2) = true.
Proof.
  destruct (rand_unit j) as [H0 H1]. destruct height_pos as [Hh1 Hhf].
  destruct (ge1_finite_spec height Hh1 Hhf) as (mh & eh & Hh & _).
  assert (Ht0 : (0 <=? rand j * height) = true)
    by now apply mul_nonneg with mh eh.
  split.
  - now apply mul_nonneg with (mc := 4503599627370496%positive) (ec := (-53)%Z).
  - apply half_lt; try assumption. now apply mul_lt_self.
Qed.

(** C4, as amended.  New-node spawn region: with draws in the unit interval
    and a viewport of finite width and height of at least one pixel, every
    node that reconciliation introduces (its id is not found among the held
    nodes) gets [0 <= x < width], [0 <= y < height / 2] and [vx = vy = 0]. *)
Theorem spawn_region
        (current : Physics) (k : nat) (graphData : GraphData)
        (i : nat) (n : SnapshotNode) :
  gd_nodes graphData !! i = Some n ->
  findNode (snap_id n) (nodes current) = None ->
  exists n',
    nodes (fst (reconcile width height rand current k graphData)) !! i = Some n' /\
    node_id n' = snap_id n /\
    (0 <=? node_x n') = true /\ (node_x n' <? width) = true /\
    (0 <=? node_y n') = true /\ (node_y n' <? height / 2) = true /\
    node_vx n' = 0 /\ node_vy n' = 0.
Proof.
  intros Hi Hnew. unfold reconcile.
  destruct (reconcileNodes_lookup width height rand (nodes current) _ k i n Hi)
    as (k' & _ & Hk').
  destruct (reconcileNodes width height rand (nodes current) k (gd_nodes graphData))
    as [newNodes k''].
  simpl in *. rewrite Hk', (reconcileNode_fresh _ _ _ _ _ _ Hnew).
  eexists. split; [reflexivity|]. simpl.
  destruct (spawn_x k') as [Hx0 Hx1]. destruct (spawn_y (S k')) as [Hy0 Hy1].
  repeat split; assumption.
Qed.
End SpawnRegion.

(** * Obstacle model *)

Module PlanetFacts.
Import Binary64.
Local Open Scope float_scope.

Lemma binary_round_aux_opp (s : bool) (m e : Z) (l : location) :
  binary_round_aux prec emax (negb s) m e l
  = SFopp (binary_round_aux prec emax s m e l).
Proof.
  unfold binary_round_aux.
  destruct (shr_fexp prec emax m e l) as [mrs' e'].
  destruct (shr_fexp prec emax _ e' loc_Exact) as [mrs'' e''].
  destruct (shr_m mrs''); try reflexivity.
  now destruct (e'' <=? emax - prec)%Z.
Qed.

(** The sign moves freely across a product. *)
Lemma mul_opp_l (a b : float) : - a * b = - (a * b).
Proof.
  apply Prim2SF_inj.
  rewrite FloatAxioms.mul_spec, !FloatAxioms.opp_spec, FloatAxioms.mul_spec.
  destruct (Prim2SF a) as [sa|sa| |sa ma ea],
           (Prim2SF b) as [sb|sb| |sb mb eb]; simpl;
    try reflexivity; try (now destruct sa, sb).
  rewrite <- binary_round_aux_opp. now destruct sa, sb.
Qed.

Lemma neg_scale (c w : float) : - w * c = - c * w.
Proof. now rewrite mul_opp_l, (mul_comm w c), <- mul_opp_l. Qed.

(** C6.  The obstacle model: below 768 px of width (mobile) it is
    [x = -0.2 w], [y = 0.8 h], [radius = 0.6 h]; from 768 px on (desktop)
    it is [x = -0.1 w], [y = 1.1 h], [radius = 0.8 min(w, h)]. *)
Theorem getPlanetConfig_spec (w h : float) :
  ((w <? 768) = true ->
     getPlanetConfig w h = mkPlanetConfig (-0.2 * w) (0.8 * h) (0.6 * h)) /\
  ((768 <=? w) = true ->
     getPlanetConfig w h
     = mkPlanetConfig (-0.1 * w) (1.1 * h) (0.8 * JS.Math_min w h)).
Proof.
  unfold getPlanetConfig. split; intros Hw.
  - rewrite Hw. f_equal; [apply (neg_scale 0.2) | apply mul_comm ..].
  - rewrite (leb_not_ltb _ _ Hw).
    f_equal; [apply (neg_scale 0.1) | apply mul_comm ..].
Qed.

Lemma getPlanetConfig_witness :
  getPlanetConfig 390 844 = mkPlanetConfig (-0.2 * 390) (0.8 * 844) (0.6 * 844) /\
  getPlanetConfig 1920 1080
  = mkPlanetConfig (-0.1 * 1920) (1.1 * 1080) (0.8 * JS.Math_min 1920 1080).
Proof.
  split.
  - apply (proj1 (getPlanetConfig_spec 390 844)). reflexivity.
  - apply (proj2 (getPlanetConfig_spec 1920 1080)). reflexivity.
Defined.
End PlanetFacts.

(** * Repulsion phase *)

Module RepulsionFacts.
Import Binary64.
Local Open Scope float_scope.

(** The force the loop body applies along the separation vector. *)
Lemma repulsionForce_magnitude (a b : Node) :
  repulsionForce a b
  = let dx := node_x a - node_x b in
    let dy := node_y a - node_y b in
    let dist := JS.Math_sqrt (floorDistSq (pairDistSq a b)) in
    ((dx / dist) * repulsionMagnitude a b, (dy / dist) * repulsionMagnitude a b).
Proof. reflexivity. Qed.

Lemma SFcompare_Eq_finite (a : spec_float) (s : bool) (m : positive) (e : Z) :
  SFcompare a (S754_finite s m e) = Some Eq -> a = S754_finite s m e.
Proof.
  destruct a as [sa|sa| |sa ma ea]; simpl; try discriminate;
    destruct sa, s; try discriminate;
      destruct (Z.compare_spec ea e) as [-> | |]; try discriminate;
      rewrite compare_cont_spec;
      destruct (Pos.compare_spec ma m) as [-> | |]; try discriminate;
      reflexivity.
Qed.

(** From 1 upwards the clamp [max(d, 1)] is [d] itself. *)
Lemma Math_max_ge_1 (d : float) : (1 <=? d) = true -> JS.Math_max d 1 = d.
Proof.
  intros Hd. unfold JS.Math_max.
  rewrite (leb_not_ltb _ _ Hd).
  assert (Hnan : is_nan d = false).
  { unfold is_nan. rewrite FloatAxioms.eqb_spec.
    rewrite FloatAxioms.leb_spec in Hd. unfold SFleb, SFeqb in *.
    change (Prim2SF 1) with (S754_finite false 4503599627370496 (-52)) in Hd.
    destruct (Prim2SF d) as [s|s| |s m e]; try discriminate.
    - now destruct s.
    - now rewrite SFcompare_refl_finite. }
  rewrite Hnan. change (is_nan 1) with false. simpl.
  destruct (1 <? d) eqn:Hlt; [reflexivity|].
  assert (Hone : d = 1).
  { apply Prim2SF_inj.
    rewrite FloatAxioms.leb_spec in Hd. rewrite FloatAxioms.ltb_spec in Hlt.
    unfold SFleb, SFltb in *.
    change (Prim2SF 1) with (S754_finite false 4503599627370496 (-52)) in *.
    apply SFcompare_Eq_finite.
    rewrite SFcompare_antisym.
    destruct (SFcompare _ (Prim2SF d)) as [[ | | ]|]; try discriminate.
    reflexivity. }
  now rewrite Hone.
Qed.

(** At a zero squared distance the clamp is 1. *)
Lemma Math_max_zero (d : float) : (d =? 0) = true -> JS.Math_max d 1 = 1.
Proof.
  intros Hd. unfold JS.Math_max, is_nan.
  rewrite FloatAxioms.eqb_spec in Hd.
  rewrite FloatAxioms.eqb_spec, FloatAxioms.ltb_spec.
  change (Prim2SF 0) with (S754_zero false) in Hd.
  change (Prim2SF 1) with (S754_finite false 4503599627370496 (-52)).
  unfold SFeqb, SFltb in *.
  destruct (Prim2SF d) as [s|s| |s m e]; try discriminate; try reflexivity.
  - now destruct s.
  - now destruct s.
Qed.

(** C7, as amended.  The squared distance is replaced by 1 only when it is
    exactly 0; every other pair is divided by its squared distance itself.
    So the force is [R / max(distSq, 1)] for coincident pairs and for pairs
    at least 1 apart, and [R / distSq] for every pair with a non-zero
    squared distance, those strictly between 0 and 1 included. *)
Theorem repulsion_divisor (a b : Node) :
  ((pairDistSq a b =? 0) = true \/ (1 <=? pairDistSq a b) = true ->
     repulsionMagnitude a b = REPULSION / JS.Math_max (pairDistSq a b) 1) /\
  ((pairDistSq a b =? 0) = false ->
     repulsionMagnitude a b = REPULSION / pairDistSq a b).
Proof.
  unfold repulsionMagnitude, floorDistSq. split.
  - intros [Hz | Hge].
    + now rewrite Hz, Math_max_zero.
    + rewrite (Math_max_ge_1 _ Hge).
      destruct (pairDistSq a b =? 0) eqn:Hz; [|reflexivity].
      exfalso.
      rewrite FloatAxioms.eqb_spec in Hz. rewrite FloatAxioms.leb_spec in Hge.
      change (Prim2SF 0) with (S754_zero false) in Hz.
      change (Prim2SF 1) with (S754_finite false 4503599627370496 (-52)) in Hge.
      unfold SFeqb, SFleb in *.
      destruct (Prim2SF (pairDistSq a b)) as [s|s| |s m e]; simpl in *;
        try discriminate; destruct s; discriminate.
  - now intros ->.
Qed.
End RepulsionFacts.

(** ** Symmetry of the pairwise exchange *)

Module RepulsionSymmetry.
Import Binary64.
Local Open Scope float_scope.

Lemma subVelocity_addVelocity (n : Node) (fx fy : float) :
  subVelocity n fx fy = addVelocity n (- fx) (- fy).
Proof. unfold subVelocity, addVelocity. now rewrite !sub_add_opp. Qed.

Lemma repulsionForce_place (a a' b b' : Node) :
  place a = place a' -> place b = place b' ->
  repulsionForce a b = repulsionForce a' b'.
Proof.
  unfold place, repulsionForce. intros [= _ _ -> ->] [= _ _ -> ->]. reflexivity.
Qed.

Lemma place_addVelocity (n : Node) (fx fy : float) :
  place (addVelocity n fx fy) = place n.
Proof. reflexivity. Qed.

(** The loop body on two distinct in-range indices. *)
Lemma repelPair_distinct (i j : nat) (ns : list Node) (a b : Node) :
  i <> j -> ns !! i = Some a -> ns !! j = Some b ->
  repelPair i j ns
  = alter (fun n => addVelocity n (- (repulsionForce a b).1) (- (repulsionForce a b).2)) j
      (alter (fun n => addVelocity n (repulsionForce a b).1 (repulsionForce a b).2) i ns).
Proof.
  intros Hij Hi Hj. unfold repelPair. rewrite Hi, Hj.
  destruct (repulsionForce a b) as [fx fy]. simpl.
  rewrite list_lookup_insert_ne, Hj by assumption.
  rewrite subVelocity_addVelocity.
  apply list_eq. intros k.
  destruct (decide (k = j)) as [-> | Hkj].
  - rewrite list_lookup_insert_eq
      by (rewrite length_insert; now apply lookup_lt_Some with b).
    rewrite list_lookup_alter_eq, list_lookup_alter_ne, Hj by assumption.
    reflexivity.
  - rewrite list_lookup_insert_ne, list_lookup_alter_ne by congruence.
    destruct (decide (k = i)) as [-> | Hki].
    + rewrite list_lookup_insert_eq by now apply lookup_lt_Some with a.
      now rewrite list_lookup_alter_eq, Hi.
    + now rewrite list_lookup_insert_ne, list_lookup_alter_ne by congruence.
Qed.

Lemma repelPair_length (i j : nat) (ns : list Node) :
  length (repelPair i j ns) = length ns.
Proof.
  unfold repelPair.
  destruct (ns !! i) as [a|]; [|reflexivity].
  destruct (ns !! j) as [b|]; [|reflexivity].
  destruct (repulsionForce a b) as [fx fy].
  destruct (_ !! j); now rewrite ?length_insert.
Qed.

Lemma repelRow_length (i : nat) (ns : list Node) :
  length (repelRow i ns) = length ns.
Proof.
  unfold repelRow. generalize (seq (S i) (length ns - S i)) as js.
  intros js. revert ns. induction js as [|j js IH]; intros ns; simpl.
  - reflexivity.
  - now rewrite IH, repelPair_length.
Qed.

Lemma repulsion_rows (n : nat) (rows : list nat) (acc : list Node) :
  length acc = n ->
  fold_left (fun acc i => repelRow i acc) rows acc
  = fold_left (fun acc p => repelPair p.1 p.2 acc)
              (flat_map (fun i => map (pair i) (seq (S i) (n - S i))) rows) acc.
Proof.
  revert acc. induction rows as [|i rows IH]; intros acc Hlen; simpl;
    [reflexivity|].
  rewrite fold_left_app.
  assert (Hrow : fold_left (fun acc p => repelPair p.1 p.2 acc)
                           (map (pair i) (seq (S i) (n - S i))) acc
                 = repelRow i acc).
  { unfold repelRow. rewrite Hlen.
    generalize (seq (S i) (n - S i)) as js. intros js. clear Hlen.
    revert acc. induction js as [|j js IHjs]; intros acc; simpl;
      [reflexivity | apply IHjs]. }
  rewrite Hrow. apply IH. now rewrite repelRow_length.
Qed.

(** The nested loops are one pass over [unorderedPairs]. *)
Lemma repulsion_pairs (ns : list Node) :
  repulsion ns
  = fold_left (fun acc p => repelPair p.1 p.2 acc)
              (unorderedPairs (length ns)) ns.
Proof. now apply repulsion_rows. Qed.

Lemma unorderedPairs_spec (n i j : nat) :
  In (i, j) (unorderedPairs n) <-> (i < j < n)%nat.
Proof.
  unfold unorderedPairs. rewrite in_flat_map. split.
  - intros (i' & Hi' & Hj). apply in_map_iff in Hj as (j' & [= <- <-] & Hj').
    apply in_seq in Hi'. apply in_seq in Hj'. lia.
  - intros Hij. exists i. split; [apply in_seq; lia|].
    apply in_map_iff. exists j. split; [reflexivity | apply in_seq; lia].
Qed.

Lemma place_alter (f : Node -> Node) (k : nat) (l : list Node) :
  (forall n, place (f n) = place n) ->
  place <$> alter f k l = place <$> l.
Proof.
  intros Hf. apply list_eq. intros i. rewrite !list_lookup_fmap.
  destruct (decide (i = k)) as [-> | Hne].
  - rewrite list_lookup_alter_eq. destruct (l !! k); simpl; [|reflexivity].
    now rewrite Hf.
  - now rewrite list_lookup_alter_ne by congruence.
Qed.

Lemma place_exchange (start acc : list Node) (p : nat * nat) :
  place <$> exchange start acc p = place <$> acc.
Proof.
  unfold exchange.
  destruct (start !! p.1) as [a|]; [|reflexivity].
  destruct (start !! p.2) as [b|]; [|reflexivity].
  destruct (repulsionForce a b) as [fx fy].
  now rewrite !place_alter by (intros; apply place_addVelocity).
Qed.

(** While nothing has moved, the loop body is the symmetric exchange. *)
Lemma repelPair_exchange (start acc : list Node) (i j : nat) :
  place <$> acc = place <$> start ->
  (i < j < length start)%nat ->
  repelPair i j acc = exchange start acc (i, j).
Proof.
  intros Hplace [Hij Hj].
  destruct (lookup_lt_is_Some_2 start i ltac:(lia)) as [a0 Ha0].
  destruct (lookup_lt_is_Some_2 start j Hj) as [b0 Hb0].
  assert (Hi' : place <$> acc !! i = Some (place a0))
    by now rewrite <- list_lookup_fmap, Hplace, list_lookup_fmap, Ha0.
  assert (Hj' : place <$> acc !! j = Some (place b0))
    by now rewrite <- list_lookup_fmap, Hplace, list_lookup_fmap, Hb0.
  destruct (acc !! i) as [a|] eqn:Ha; [|discriminate].
  destruct (acc !! j) as [b|] eqn:Hb; [|discriminate].
  simpl in Hi', Hj'.
  assert (Hpa : place a = place a0) by congruence.
  assert (Hpb : place b = place b0) by congruence.
  rewrite (repelPair_distinct i j acc a b) by (assumption || lia).
  unfold exchange. cbn [fst snd]. rewrite Ha0, Hb0.
  rewrite (repulsionForce_place a a0 b b0) by assumption.
  now destruct (repulsionForce a0 b0) as [fx fy].
Qed.

Lemma fold_repelPair_exchange (start : list Node) (ps : list (nat * nat))
      (acc : list Node) :
  place <$> acc = place <$> start ->
  (forall p, In p ps -> (p.1 < p.2 < length start)%nat) ->
  fold_left (fun acc p => repelPair p.1 p.2 acc) ps acc
  = fold_left (exchange start) ps acc.
Proof.
  revert acc. induction ps as [|[i j] ps IH]; intros acc Hacc Hin; simpl;
    [reflexivity|].
  rewrite (repelPair_exchange start acc i j Hacc (Hin (i, j) (or_introl eq_refl))).
  apply IH.
  - now rewrite place_exchange.
  - intros p Hp. apply Hin. now right.
Qed.

Lemma repulsion_exchange (ns : list Node) :
  repulsion ns = fold_left (exchange ns) (unorderedPairs (length ns)) ns.
Proof.
  rewrite repulsion_pairs. apply fold_repelPair_exchange; [reflexivity|].
  intros [i j]. apply unorderedPairs_spec.
Qed.

(** C2.  Repulsion symmetry: the repulsion phase is one pass over the
    unordered pairs [i < j] of distinct nodes, and what it does for each
    pair is to add the pair's [(fx, fy)], computed from the positions the
    phase started with, to the velocity of node [i] and exactly its negation
    [(-fx, -fy)] to the velocity of node [j]. *)
Theorem repulsion_symmetry (ns : list Node) :
  repulsion ns = fold_left (exchange ns) (unorderedPairs (length ns)) ns /\
  (forall i j, In (i, j) (unorderedPairs (length ns)) <-> (i < j < length ns)%nat).
Proof.
  split; [apply repulsion_exchange | intros i j; apply unorderedPairs_spec].
Qed.
End RepulsionSymmetry.

(** * Dangling links *)

Module DanglingLinks.
Local Open Scope float_scope.

(** [find] and its index see only the ids, in order. *)
Lemma findIndex_ids (ident : string) (ns ns' : list Node) :
  map node_id ns = map node_id ns' ->
  findIndex ident ns = findIndex ident ns'.
Proof.
  revert ns'. induction ns as [|n ns IH]; intros [|n' ns'] H;
    try discriminate; [reflexivity|].
  injection H as Hid Hrest. simpl. rewrite Hid.
  now rewrite (IH ns' Hrest).
Qed.

Lemma findNode_findIndex (ident : string) (ns : list Node) :
  findNode ident ns = None <-> findIndex ident ns = None.
Proof.
  unfold findNode. induction ns as [|n ns IH]; simpl; [tauto|].
  destruct (String.eqb (node_id n) ident); [split; discriminate|].
  rewrite IH. destruct (findIndex ident ns); simpl; split; congruence.
Qed.

Lemma resolves_findIndex (ns : list Node) (l : Link) :
  resolves ns l
  = match findIndex (source l) ns, findIndex (target l) ns with
    | Some _, Some _ => true
    | _, _ => false
    end.
Proof.
  unfold resolves.
  pose proof (findNode_findIndex (source l) ns) as Hs.
  pose proof (findNode_findIndex (target l) ns) as Ht.
  destruct (findNode (source l) ns), (findIndex (source l) ns),
           (findNode (target l) ns), (findIndex (target l) ns);
    try reflexivity; exfalso; destruct Hs, Ht; intuition congruence.
Qed.

Lemma resolves_ids (ns ns' : list Node) (l : Link) :
  map node_id ns = map node_id ns' -> resolves ns l = resolves ns' l.
Proof.
  intros H. rewrite !resolves_findIndex.
  now rewrite (findIndex_ids _ ns ns' H), (findIndex_ids _ ns ns' H).
Qed.

Lemma ids_insert (ns : list Node) (i : nat) (old new : Node) :
  ns !! i = Some old -> node_id new = node_id old ->
  map node_id (<[i := new]> ns) = map node_id ns.
Proof.
  revert i. induction ns as [|n ns IH]; intros [|i] Hi Hid; simpl in *;
    try discriminate.
  - injection Hi as ->. now rewrite Hid.
  - now rewrite (IH i Hi Hid).
Qed.

(** The spring phase keeps every node's id in place. *)
Lemma springLink_ids (ns : list Node) (l : Link) :
  map node_id (springLink ns l) = map node_id ns.
Proof.
  unfold springLink.
  destruct (findIndex (source l) ns) as [si|]; [|reflexivity].
  destruct (findIndex (target l) ns) as [ti|]; [|reflexivity].
  destruct (ns !! si) as [s|] eqn:Hs; [|reflexivity].
  destruct (ns !! ti) as [t|] eqn:Ht; [|reflexivity].
  destruct (springForce s t) as [fx fy].
  assert (H1 : map node_id (<[si := addVelocity s fx fy]> ns) = map node_id ns)
    by now apply ids_insert with s.
  set (ns1 := <[si := addVelocity s fx fy]> ns) in *.
  destruct (ns1 !! ti) as [t'|] eqn:Ht'; [|exact H1].
  rewrite <- H1. now apply ids_insert with t'.
Qed.

(** A link with an unresolved endpoint leaves the node list as it is. *)
Lemma springLink_dangling (ns : list Node) (l : Link) :
  resolves ns l = false -> springLink ns l = ns.
Proof.
  unfold resolves, springLink. intros H.
  destruct (findNode (source l) ns) eqn:Hs.
  - destruct (findNode (target l) ns) eqn:Ht; [discriminate|].
    apply findNode_findIndex in Ht. rewrite Ht.
    now destruct (findIndex (source l) ns).
  - apply findNode_findIndex in Hs. now rewrite Hs.
Qed.

(** ... and draws nothing. *)
Lemma drawEdge_dangling (ns : list Node) (l : Link) :
  resolves ns l = false -> drawEdge ns l = [].
Proof.
  unfold resolves, drawEdge. intros H.
  destruct (findNode (source l) ns); [|reflexivity].
  now destruct (findNode (target l) ns).
Qed.

Lemma drawEdge_resolved_moves (ns : list Node) (l : Link) :
  resolves ns l = true ->
  length (List.filter
            (fun op => match op with MoveTo _ _ => true | _ => false end)
            (drawEdge ns l)) = 1%nat.
Proof.
  unfold resolves, drawEdge. intros H.
  destruct (findNode (source l) ns); [|discriminate].
  destruct (findNode (target l) ns) as [t|]; [|discriminate].
  simpl. now destruct (String.eqb (node_type t) "output").
Qed.

Lemma attraction_live (ns cur : list Node) (ls : list Link) :
  map node_id cur = map node_id ns ->
  attraction cur ls = attraction cur (List.filter (resolves ns) ls).
Proof.
  unfold attraction. revert cur.
  induction ls as [|l ls IH]; intros cur Hids; simpl; [reflexivity|].
  destruct (resolves ns l) eqn:Hl; simpl.
  - apply IH. now rewrite springLink_ids.
  - rewrite springLink_dangling by now rewrite (resolves_ids cur ns).
    now apply IH.
Qed.

Lemma attraction_ids (ns : list Node) (ls : list Link) :
  map node_id (attraction ns ls) = map node_id ns.
Proof.
  unfold attraction. revert ns.
  induction ls as [|l ls IH]; intros ns; simpl; [reflexivity|].
  now rewrite IH, springLink_ids.
Qed.

Lemma drawEdges_live (ns cur : list Node) (ls : list Link) :
  map node_id cur = map node_id ns ->
  drawEdges cur ls = drawEdges cur (List.filter (resolves ns) ls).
Proof.
  intros Hids. unfold drawEdges.
  induction ls as [|l ls IH]; simpl; [reflexivity|].
  destruct (resolves ns l) eqn:Hl; simpl.
  - now rewrite IH.
  - rewrite drawEdge_dangling by now rewrite (resolves_ids cur ns).
    exact IH.
Qed.

Lemma renderedEdges_live (ns cur : list Node) (ls : list Link) :
  map node_id cur = map node_id ns ->
  renderedEdges cur ls = length (List.filter (resolves ns) ls).
Proof.
  intros Hids. unfold renderedEdges, drawEdges.
  induction ls as [|l ls IH]; simpl; [reflexivity|].
  rewrite List.filter_app, length_app, IH.
  destruct (resolves ns l) eqn:Hl; simpl.
  - now rewrite drawEdge_resolved_moves by now rewrite (resolves_ids cur ns).
  - now rewrite drawEdge_dangling by now rewrite (resolves_ids cur ns).
Qed.

Lemma repelPair_ids (i j : nat) (ns : list Node) :
  map node_id (repelPair i j ns) = map node_id ns.
Proof.
  unfold repelPair.
  destruct (ns !! i) as [a|] eqn:Ha; [|reflexivity].
  destruct (ns !! j) as [b|] eqn:Hb; [|reflexivity].
  destruct (repulsionForce a b) as [fx fy].
  assert (H1 : map node_id (<[i := addVelocity a fx fy]> ns) = map node_id ns)
    by now apply ids_insert with a.
  set (ns1 := <[i := addVelocity a fx fy]> ns) in *.
  destruct (ns1 !! j) as [b'|] eqn:Hb'; [|exact H1].
  rewrite <- H1. now apply ids_insert with b'.
Qed.

Lemma repulsion_ids (ns : list Node) :
  map node_id (repulsion ns) = map node_id ns.
Proof.
  rewrite RepulsionSymmetry.repulsion_pairs.
  generalize (unorderedPairs (length ns)) as ps.
  intros ps. revert ns. induction ps as [|p ps IH]; intros ns; simpl;
    [reflexivity|].
  now rewrite IH, repelPair_ids.
Qed.

Lemma settle_ids (width height : float) (ns : list Node) :
  map node_id (settle width height ns) = map node_id ns.
Proof. unfold settle. rewrite map_map. reflexivity. Qed.

Lemma integrate_ids (width height : float) (p : Physics) :
  map node_id (nodes (integrate width height p)) = map node_id (nodes p).
Proof.
  unfold integrate. simpl.
  now rewrite settle_ids, attraction_ids, repulsion_ids.
Qed.

(** C5.  Dangling link tolerance: the links with an endpoint that does not
    resolve in the held node list can be dropped without changing anything
    a tick computes.  The integration step yields the same nodes as on the
    resolved links alone, so no velocity changes on account of a dangling
    link; the renderer issues the same edge drawing calls as for the
    resolved links alone, and strokes as many edges as there are resolved
    links.  The step and the renderer are total: no case raises. *)
Theorem dangling_links_ignored (width height : float) (p : Physics) :
  nodes (integrate width height p)
  = nodes (integrate width height
             (mkPhysics (nodes p) (List.filter (resolves (nodes p)) (links p)))) /\
  drawEdges (nodes (integrate width height p)) (links p)
  = drawEdges (nodes (integrate width height p))
              (List.filter (resolves (nodes p)) (links p)) /\
  renderedEdges (nodes (integrate width height p)) (links p)
  = length (List.filter (resolves (nodes p)) (links p)).
Proof.
  split; [|split].
  - unfold integrate. simpl. f_equal.
    apply attraction_live, repulsion_ids.
  - apply drawEdges_live, integrate_ids.
  - apply renderedEdges_live, integrate_ids.
Qed.
End DanglingLinks.

(** * What the force phases leave alone *)

Module PhaseFacts.
Import RepulsionSymmetry.
Local Open Scope float_scope.

Lemma place_insert (ns : list Node) (i : nat) (old new : Node) :
  ns !! i = Some old -> place new = place old ->
  place <$> <[i := new]> ns = place <$> ns.
Proof.
  intros Hi Hp. rewrite list_fmap_insert, Hp.
  apply list_insert_id. now rewrite list_lookup_fmap, Hi.
Qed.

Lemma place_fold_exchange (start : list Node) (ps : list (nat * nat))
      (acc : list Node) :
  place <$> fold_left (exchange start) ps acc = place <$> acc.
Proof.
  revert acc. induction ps as [|p ps IH]; intros acc; simpl; [reflexivity|].
  now rewrite IH, place_exchange.
Qed.

Lemma place_repulsion (ns : list Node) : place <$> repulsion ns = place <$> ns.
Proof.
  rewrite repulsion_exchange. apply place_fold_exchange.
Qed.

Lemma place_springLink (ns : list Node) (l : Link) :
  place <$> springLink ns l = place <$> ns.
Proof.
  unfold springLink.
  destruct (findIndex (source l) ns) as [si|]; [|reflexivity].
  destruct (findIndex (target l) ns) as [ti|]; [|reflexivity].
  destruct (ns !! si) as [s|] eqn:Hs; [|reflexivity].
  destruct (ns !! ti) as [t|] eqn:Ht; [|reflexivity].
  destruct (springForce s t) as [fx fy].
  assert (H1 : place <$> <[si := addVelocity s fx fy]> ns = place <$> ns)
    by now apply place_insert with s.
  set (ns1 := <[si := addVelocity s fx fy]> ns) in *.
  destruct (ns1 !! ti) as [t'|] eqn:Ht'; [|exact H1].
  rewrite <- H1. now apply place_insert with t'.
Qed.

Lemma place_attraction (ns : list Node) (ls : list Link) :
  place <$> attraction ns ls = place <$> ns.
Proof.
  unfold attraction. revert ns.
  induction ls as [|l ls IH]; intros ns; simpl; [reflexivity|].
  now rewrite IH, place_springLink.
Qed.
End PhaseFacts.

(** * A node on the obstacle center *)

Module ObstacleCenter.
Import Binary64 Rounding Binary64Order RepulsionSymmetry PhaseFacts.
Local Open Scope float_scope.

Lemma Math_min_nonneg (a b : float) :
  (0 <=? a) = true -> (0 <=? b) = true -> (0 <=? JS.Math_min a b) = true.
Proof.
  intros Ha Hb. unfold JS.Math_min.
  rewrite (nonneg_not_nan a Ha), (nonneg_not_nan b Hb). simpl.
  destruct (a <? b); [assumption|].
  destruct (b <? a); [assumption|].
  now destruct (get_sign a).
Qed.



End ObstacleCenter.

(** * Coincident nodes in the guarded phases *)

Module CoincidentNodes.
Import Binary64.
Local Open Scope float_scope.

(** Two nodes on the same finite point: the zero test makes the divisor 1,
    and the repulsion between them is [(+0, +0)]. *)
Lemma coincident_repulsion (a b : Node) :
  is_finite (node_x a) = true -> is_finite (node_y a) = true ->
  node_x b = node_x a -> node_y b = node_y a ->
  repulsionForce a b = (0, 0).
Proof.
  intros Hfx Hfy Hx Hy. unfold repulsionForce.
  rewrite Hx, Hy, (sub_diag _ Hfx), (sub_diag _ Hfy). reflexivity.
Qed.

(** Likewise [|| 1] makes the spring's divisor 1, and the spring between
    them contributes [(-0, -0)]. *)
Lemma coincident_spring (s t : Node) :
  is_finite (node_x s) = true -> is_finite (node_y s) = true ->
  node_x t = node_x s -> node_y t = node_y s ->
  springForce s t = (-0, -0).
Proof.
  intros Hfx Hfy Hx Hy. unfold springForce.
  rewrite Hx, Hy, (sub_diag _ Hfx), (sub_diag _ Hfy). reflexivity.
Qed.
End CoincidentNodes.

(** * Spring attraction *)

Module SpringFacts.
Import Binary64 Rounding Binary64Order RepulsionSymmetry.
Local Open Scope float_scope.

(** Beyond the rest length the spring force is strictly positive: neither
    the subtraction nor the scaling by the stiffness rounds to zero. *)
Lemma stretched_force_pos (dist : float) :
  (SPRING_LENGTH <? dist) = true ->
  (0 <? (dist - SPRING_LENGTH) * SPRING_K) = true.
Proof.
  intros Hd. apply ltb0_spec.
  rewrite FloatAxioms.mul_spec, FloatAxioms.sub_spec.
  rewrite FloatAxioms.ltb_spec in Hd.
  pose proof (Prim2SF_valid dist) as Hv.
  change (Prim2SF SPRING_LENGTH)
    with (S754_finite false 8444249301319680 (-46)) in *.
  change (Prim2SF SPRING_K)
    with (S754_finite false 5764607523034235 (-58)).
  destruct (Prim2SF dist) as [s|[|]| |[|] md ed]; try discriminate;
    [exact I|].
  apply SFltb_Lt in Hd.
  apply value_of_compare_lt in Hd as [Hed Hmd]; [|reflexivity|assumption].
  unfold SF64sub, SFsub. rewrite Z.min_r by lia.
  pose proof (shl_align_value md ed (-46) Hed) as HA.
  pose proof (shl_align_value 8444249301319680 (-46) (-46) ltac:(lia)) as HB.
  change (2 ^ (-46 - -46))%Z with 1%Z in HB.
  unfold cond_Zopp.
  destruct (Zpos (fst (shl_align md ed (-46)))
            - Zpos (fst (shl_align 8444249301319680 (-46) (-46))))%Z
    as [|D|D] eqn:HD; try lia.
  unfold binary_normalize.
  destruct (binary_round_signed_nonzero false D (-46) ltac:(lia)) as [Hs Hnz].
  destruct (binary_round prec emax false D (-46)) as [s'|s'| |s' p e'] eqn:Hbr;
    simpl in Hs, Hnz; try tauto; subst s'; [exact I|].
  apply binary_round_exponent in Hbr.
  pose proof (Pos2Z.is_pos (digits2_pos D)).
  unfold SF64mul, SFmul. cbn [xorb].
  pose proof (binary_round_aux_signed false (p * 5764607523034235) (e' + -58))
    as Hs2.
  pose proof (binary_round_aux_nonzero false (p * 5764607523034235) (e' + -58)
                ltac:(lia)) as Hnz2.
  destruct (binary_round_aux _ _ _ _ _ _) as [s'|s'| |s' p' e''];
    simpl in Hs2, Hnz2; try tauto; subst s'; exact I.
Qed.

Lemma springForce_magnitude (s t : Node) :
  springForce s t
  = ((node_x t - node_x s) / springDist s t * springMagnitude s t,
     (node_y t - node_y s) / springDist s t * springMagnitude s t).
Proof. reflexivity. Qed.

(** The callback on a link between two different nodes of the list. *)
Lemma springLink_resolved (ns : list Node) (l : Link) (si ti : nat)
      (s t : Node) :
  findIndex (source l) ns = Some si -> findIndex (target l) ns = Some ti ->
  ns !! si = Some s -> ns !! ti = Some t -> si <> ti ->
  springLink ns l
  = <[ti := subVelocity t (springForce s t).1 (springForce s t).2]>
      (<[si := addVelocity s (springForce s t).1 (springForce s t).2]> ns).
Proof.
  intros Hsi Hti Hs Ht Hne. unfold springLink.
  rewrite Hsi, Hti, Hs, Ht.
  destruct (springForce s t) as [fx fy]. cbn [fst snd].
  now rewrite list_lookup_insert_ne, Ht by assumption.
Qed.

(** The spring phase on two linked nodes whose distance, as the phase
    computes it, exceeds the rest length 120: the spring force
    [(dist - 120) * 0.02] is strictly positive, and the phase adds
    [force * (dx, dy) / dist], the pull along the vector from the source to
    the target, to the velocity of the source and exactly its negation to the
    velocity of the target. *)
Lemma stretched_link_pulls (a f : Node) :
  node_id a <> node_id f ->
  (SPRING_LENGTH <? springDist a f) = true ->
  (0 <? springMagnitude a f) = true /\
  attraction [a; f] [mkLink (node_id a) (node_id f)]
  = [ addVelocity a
        ((node_x f - node_x a) / springDist a f * springMagnitude a f)
        ((node_y f - node_y a) / springDist a f * springMagnitude a f);
      addVelocity f
        (- ((node_x f - node_x a) / springDist a f * springMagnitude a f))
        (- ((node_y f - node_y a) / springDist a f * springMagnitude a f)) ].
Proof.
  intros Hid Hd. split; [now apply stretched_force_pos|].
  unfold attraction. cbn [fold_left].
  rewrite (springLink_resolved [a; f] _ 0%nat 1%nat a f); try reflexivity.
  - rewrite subVelocity_addVelocity, springForce_magnitude. reflexivity.
  - cbn [findIndex source]. now rewrite String.eqb_refl.
  - cbn [findIndex target].
    destruct (String.eqb_spec (node_id a) (node_id f)) as [Heq | _];
      [contradiction|].
    now rewrite String.eqb_refl.
  - discriminate.
Qed.
End SpringFacts.

(** * Worked scenarios *)

Module Scenarios.
Import RepulsionFacts.
Local Open Scope string_scope.
Local Open Scope float_scope.

Lemma reconcile_preserves_kinematics_witness :
  nodes (fst (reconcile 1000 1000 (draws 0.621 0.2)
                        (mkPhysics [mkNode "a1" "agent" 500 100 1.5 (-2)] [])
                        0 snapshot2)) !! 0%nat
  = Some (mkNode "a1" "agent" 500 100 1.5 (-2)).
Proof.
  apply (reconcile_preserves_kinematics 1000 1000 (draws 0.621 0.2)
           (mkPhysics [mkNode "a1" "agent" 500 100 1.5 (-2)] []) 0 snapshot2
           (mkNode "a1" "agent" 500 100 1.5 (-2)) 0%nat
           (mkSnapshotNode "a1" "agent")).
  - apply NoDup_singleton.
  - apply list_elem_of_here.
  - reflexivity.
  - reflexivity.
Defined.

(** C7, as stated, fails half a pixel apart: the squared distance 0.25 is
    not raised to 1, and the force is [2000 / 0.25 = 8000] where the clamp
    would give [2000 / max(0.25, 1) = 2000]. *)
Lemma repulsion_not_clamped_below_one :
  pairDistSq (mkNode "a" "agent" 0 0 0 0) (mkNode "b" "agent" 0.5 0 0 0) = 0.25 /\
  repulsionMagnitude (mkNode "a" "agent" 0 0 0 0) (mkNode "b" "agent" 0.5 0 0 0)
  = 8000 /\
  REPULSION / JS.Math_max
                (pairDistSq (mkNode "a" "agent" 0 0 0 0)
                            (mkNode "b" "agent" 0.5 0 0 0)) 1
  = 2000 /\
  (8000 =? 2000) = false.
Proof. repeat split; vm_compute; reflexivity. Qed.

Lemma repulsion_divisor_witness :
  repulsionMagnitude (mkNode "a" "agent" 0 0 0 0) (mkNode "b" "agent" 3 4 0 0)
  = REPULSION / JS.Math_max
                  (pairDistSq (mkNode "a" "agent" 0 0 0 0)
                              (mkNode "b" "agent" 3 4 0 0)) 1 /\
  repulsionMagnitude (mkNode "a" "agent" 0 0 0 0) (mkNode "b" "agent" 0.5 0 0 0)
  = REPULSION / pairDistSq (mkNode "a" "agent" 0 0 0 0)
                           (mkNode "b" "agent" 0.5 0 0 0).
Proof.
  split.
  - apply (proj1 (repulsion_divisor (mkNode "a" "agent" 0 0 0 0)
                                    (mkNode "b" "agent" 3 4 0 0))).
    right. reflexivity.
  - apply (proj2 (repulsion_divisor (mkNode "a" "agent" 0 0 0 0)
                                    (mkNode "b" "agent" 0.5 0 0 0))).
    reflexivity.
Defined.

(** C3 at its failing input.  In a viewport of size 0 x 0 every new node
    spawns at [(0, 0)], which is also the obstacle center [(-0, 0)]: the two
    nodes coincide, and one integration step leaves both with [NaN]
    velocities (and positions). *)
Lemma coincident_nodes_not_finite :
  nodes (fst (reconcile 0 0 (draws 0.621 0.2) (mkPhysics [] []) 0 snapshot2))
  = [mkNode "a1" "agent" 0 0 0 0; mkNode "f1" "form" 0 0 0 0] /\
  nodes (integrate 0 0
           (fst (reconcile 0 0 (draws 0.621 0.2) (mkPhysics [] []) 0 snapshot2)))
  = [mkNode "a1" "agent" nan nan nan nan; mkNode "f1" "form" nan nan nan nan] /\
  JS.isFinite nan = false.
Proof. repeat split; vm_compute; reflexivity. Qed.

(** The same with a 1000 x 1000 viewport and two nodes resting on the
    obstacle center [(-100, 1100)]. *)
Lemma coincident_nodes_at_center_not_finite :
  nodes (integrate 1000 1000
           (mkPhysics [mkNode "a1" "agent" (-100) 1100 0 0;
                       mkNode "f1" "form" (-100) 1100 0 0] []))
  = [mkNode "a1" "agent" nan nan nan nan; mkNode "f1" "form" nan nan nan nan].
Proof. vm_compute. reflexivity. Qed.

(** C8, as stated, fails: a step can leave two linked nodes farther apart
    than the rest length no closer than they were.  On a 1000 x 1000 canvas:

    - just beyond the rest length the repulsion outweighs the spring: with
      ["a1"] held at rest at [(500, 100)] and ["f1"] spawning at
      [(621, 100)], 121 apart, one step moves ["a1"] left and ["f1"] right on
      the same horizontal line;
    - a velocity outweighs the spring: at [(500, 100)] and [(700, 100)],
      with ["a1"] moving left at 5 per frame, the spring is the stronger
      force and yet the two end up farther apart;
    - the obstacle outweighs the spring: at rest at [(200, 700)] and
      [(300, 800)], both 500 from the obstacle's center and so within its
      reach, the pushes away from the center spread them;
    - far off the canvas the arithmetic overflows: at rest at
      [(1e200, 100)] and [(-1e200, 100)] the distance is infinite and the
      step leaves both positions [NaN]. *)
Lemma step_may_move_apart :
  (let p := fst (reconcile 1000 1000 (draws 0.621 0.2)
                          (mkPhysics [mkNode "a1" "agent" 500 100 0 0] [])
                          0 snapshot2) in
   let p' := integrate 1000 1000 p in
   nodes p = [mkNode "a1" "agent" 500 100 0 0; mkNode "f1" "form" 621 100 0 0] /\
   (120 <? 621 - 500) = true /\
   match nodes p' with
   | [a; f] =>
       (node_x a <? 500) = true /\ (621 <? node_x f) = true /\
       node_y a = node_y f /\
       (621 - 500 <? node_x f - node_x a) = true
   | _ => False
   end) /\
  (let a := mkNode "a1" "agent" 500 100 (-5) 0 in
   let f := mkNode "f1" "form" 700 100 0 0 in
   (SPRING_LENGTH <? springDist a f) = true /\
   (repulsionMagnitude a f <=? springMagnitude a f) = true /\
   reached 1000 1000 a = false /\ reached 1000 1000 f = false /\
   match nodes (integrate 1000 1000 (mkPhysics [a; f] [mkLink "a1" "f1"])) with
   | [a'; f'] => (pairDistSq a f <? pairDistSq a' f') = true
   | _ => False
   end) /\
  (let a := mkNode "a1" "agent" 200 700 0 0 in
   let f := mkNode "f1" "form" 300 800 0 0 in
   (SPRING_LENGTH <? springDist a f) = true /\
   (repulsionMagnitude a f <=? springMagnitude a f) = true /\
   reached 1000 1000 a = true /\ reached 1000 1000 f = true /\
   match nodes (integrate 1000 1000 (mkPhysics [a; f] [mkLink "a1" "f1"])) with
   | [a'; f'] => (pairDistSq a f <? pairDistSq a' f') = true
   | _ => False
   end) /\
  (let a := mkNode "a1" "agent" 1e200 100 0 0 in
   let f := mkNode "f1" "form" (-1e200) 100 0 0 in
   (SPRING_LENGTH <? springDist a f) = true /\
   (repulsionMagnitude a f <=? springMagnitude a f) = true /\
   reached 1000 1000 a = false /\ reached 1000 1000 f = false /\
   match nodes (integrate 1000 1000 (mkPhysics [a; f] [mkLink "a1" "f1"])) with
   | [a'; f'] => node_x a' = nan /\ node_x f' = nan /\
                 (pairDistSq a' f' <? pairDistSq a f) = false
   | _ => False
   end).
Proof. vm_compute. repeat split; reflexivity. Qed.

(** C9 at its failing input.  On a 1000 x 1000 viewport the obstacle is
    centered at [(-100, 1100)] with radius 800; draws of 0 and 0.999 spawn
    the node at [(0, 499.5)], which is about 608.8 from the center: well
    inside the obstacle. *)
Lemma spawn_inside_obstacle :
  let p := fst (reconcile 1000 1000 (draws 0 0.999) (mkPhysics [] []) 0
                          (mkGraphData [mkSnapshotNode "a1" "agent"] [])) in
  let planet := getPlanetConfig 1000 1000 in
  planet = mkPlanetConfig (-100) 1100 800 /\
  nodes p = [mkNode "a1" "agent" 0 499.5 0 0] /\
  (0 - planet_x planet) * (0 - planet_x planet)
    + (499.5 - planet_y planet) * (499.5 - planet_y planet) = 370600.25 /\
  (JS.Math_sqrt 370600.25 <? planet_radius planet) = true.
Proof. vm_compute. repeat split; reflexivity. Qed.


Lemma spawn_region_witness :
  exists n',
    nodes (fst (reconcile 1000 800 (draws 0.621 0.2)
                          (mkPhysics [mkNode "a1" "agent" 500 100 0 0] [])
                          0 snapshot2)) !! 1%nat = Some n' /\
    node_id n' = "f1" /\
    (0 <=? node_x n') = true /\ (node_x n' <? 1000) = true /\
    (0 <=? node_y n') = true /\ (node_y n' <? 800 / 2) = true /\
    node_vx n' = 0 /\ node_vy n' = 0.
Proof.
  apply (spawn_region 1000 800 (draws 0.621 0.2)
           (fun j => match j with
                     | O => conj eq_refl eq_refl
                     | S _ => conj eq_refl eq_refl
                     end)
           (conj eq_refl eq_refl) (conj eq_refl eq_refl)
           (mkPhysics [mkNode "a1" "agent" 500 100 0 0] []) 0 snapshot2
           1%nat (mkSnapshotNode "f1" "form"));
    reflexivity.
Defined.

(** C4, as stated, fails on a viewport of width 0: the node spawns at
    [x = 0], and [0 < 0] does not hold (likewise for [y] and height 0). *)
Lemma spawn_in_empty_viewport :
  nodes (fst (reconcile 0 0 (draws 0.621 0.2) (mkPhysics [] []) 0
                        (mkGraphData [mkSnapshotNode "a1" "agent"] [])))
  = [mkNode "a1" "agent" 0 0 0 0] /\
  (0 <? 0) = false /\ (0 <? 0 / 2) = false.
Proof. vm_compute. repeat split; reflexivity. Qed.
End Scenarios.

(** * Reconciliation as a whole *)

Section ReconcileShape.
Variables (width height : float) (rand : nat -> float).

Lemma reconcileNode_id (held : list Node) (k : nat) (n : SnapshotNode) :
  node_id (fst (reconcileNode width height rand held k n)) = snap_id n /\
  node_type (fst (reconcileNode width height rand held k n)) = snap_type n.
Proof. unfold reconcileNode. now destruct (findNode (snap_id n) held). Qed.

Lemma reconcileNodes_cons (held : list Node) (k : nat) (n : SnapshotNode)
      (rest : list SnapshotNode) :
  reconcileNodes width height rand held k (n :: rest)
  = (fst (reconcileNode width height rand held k n)
       :: fst (reconcileNodes width height rand held
                 (snd (reconcileNode width height rand held k n)) rest),
     snd (reconcileNodes width height rand held
            (snd (reconcileNode width height rand held k n)) rest)).
Proof.
  simpl. destruct (reconcileNode width height rand held k n) as [n' k'].
  simpl. now destruct (reconcileNodes width height rand held k' rest).
Qed.

Lemma reconcileNodes_ids (held : list Node) (k : nat) (ns : list SnapshotNode) :
  map node_id (fst (reconcileNodes width height rand held k ns)) = map snap_id ns /\
  map node_type (fst (reconcileNodes width height rand held k ns))
  = map snap_type ns.
Proof.
  revert k. induction ns as [|n rest IH]; intros k; [now split|].
  rewrite reconcileNodes_cons. cbn [fst map].
  destruct (reconcileNode_id held k n) as [-> ->].
  destruct (IH (snd (reconcileNode width height rand held k n))) as [-> ->].
  now split.
Qed.

(** Each new node costs two draws, each retained node none. *)
Lemma reconcileNodes_draws (held : list Node) (k : nat) (ns : list SnapshotNode) :
  snd (reconcileNodes width height rand held k ns)
  = (k + 2 * length (List.filter (isNew held) ns))%nat.
Proof.
  revert k. induction ns as [|n rest IH]; intros k; [simpl; lia|].
  rewrite reconcileNodes_cons. cbn [snd]. rewrite IH.
  unfold reconcileNode, isNew. simpl.
  destruct (findNode (snap_id n) held); simpl; lia.
Qed.

(** Each snapshot node whose id is held is rebuilt from the held node. *)
Lemma reconcileNodes_retained (held : list Node) (k : nat)
      (ns : list SnapshotNode) (res : list Node) :
  Forall2 (fun n old => findNode (snap_id n) held = Some old /\
                        node_id old = snap_id n /\
                        node_type old = snap_type n) ns res ->
  reconcileNodes width height rand held k ns = (res, k).
Proof.
  intros H. revert k. induction H as [|n old ns res (Hf & Hid & Hty) _ IH];
    intros k; [reflexivity|].
  rewrite reconcileNodes_cons. unfold reconcileNode. rewrite Hf.
  cbn [fst snd]. rewrite IH. cbn [fst snd].
  destruct old; simpl in *; now subst.
Qed.

Lemma lookup_map {A B : Type} (f : A -> B) (l : list A) (i : nat) :
  map f l !! i = f <$> l !! i.
Proof.
  revert i. induction l as [|x l IH]; intros [|i]; simpl; auto.
Qed.

Lemma reconcile_image (current : Physics) (k : nat) (graphData : GraphData) :
  map node_id (nodes (fst (reconcile width height rand current k graphData)))
  = map snap_id (gd_nodes graphData) /\
  map node_type (nodes (fst (reconcile width height rand current k graphData)))
  = map snap_type (gd_nodes graphData) /\
  links (fst (reconcile width height rand current k graphData))
  = gd_links graphData.
Proof.
  unfold reconcile.
  destruct (reconcileNodes_ids (nodes current) k (gd_nodes graphData))
    as [Hid Hty].
  destruct (reconcileNodes width height rand (nodes current) k
              (gd_nodes graphData)) as [newNodes k'].
  simpl in *. rewrite Hid, Hty. auto.
Qed.

(** X1.  Reconciliation rebuilds the held state in the image of the
    snapshot: the new node list carries the snapshot's ids and types, in the
    snapshot's order (so a held node whose id is gone is dropped, and unique
    ids stay unique), and the link list is the snapshot's. *)
Theorem reconcile_shape (current : Physics) (k : nat) (graphData : GraphData) :
  map node_id (nodes (fst (reconcile width height rand current k graphData)))
  = map snap_id (gd_nodes graphData) /\
  map node_type (nodes (fst (reconcile width height rand current k graphData)))
  = map snap_type (gd_nodes graphData) /\
  links (fst (reconcile width height rand current k graphData))
  = gd_links graphData /\
  (NoDup (map snap_id (gd_nodes graphData)) ->
   NoDup (map node_id
            (nodes (fst (reconcile width height rand current k graphData))))).
Proof.
  destruct (reconcile_image current k graphData) as (Hid & Hty & Hl).
  rewrite Hid, Hty, Hl. auto.
Qed.

(** The draw cursor when the callback reaches the node at index [i]. *)
Lemma reconcileNodes_cursor (held : list Node) (k : nat) (ns : list SnapshotNode)
      (i : nat) (n : SnapshotNode) :
  ns !! i = Some n ->
  fst (reconcileNodes width height rand held k ns) !! i
  = Some (fst (reconcileNode width height rand held
                 (k + 2 * length (List.filter (isNew held) (firstn i ns))) n)).
Proof.
  revert k i. induction ns as [|m rest IH]; intros k i Hi; [discriminate|].
  rewrite reconcileNodes_cons. destruct i as [|i]; cbn [fst].
  - injection Hi as ->. cbn [firstn List.filter length lookup list_lookup].
    simpl. now rewrite Nat.add_0_r.
  - simpl in Hi. simpl lookup. rewrite (IH _ i Hi). do 3 f_equal.
    cbn [firstn List.filter]. unfold reconcileNode, isNew at 2.
    destruct (findNode (snap_id m) held); cbn [snd length]; lia.
Qed.

(** X3.  Reconciliation calls [Math.random] exactly twice for each snapshot
    node whose id is not held, and not at all for the others, in snapshot
    order: with [j] new nodes before it, a new node takes the draw number
    [k + 2 j] for its [x] and the next one, number [k + 2 j + 1], for its
    [y]; a node whose id is held is rebuilt from the held node and takes no
    draw; and the call leaves the cursor advanced by twice the number of new
    nodes. *)
Theorem reconcile_draws (current : Physics) (k : nat) (graphData : GraphData) :
  snd (reconcile width height rand current k graphData)
  = (k + 2 * length (List.filter (isNew (nodes current))
                                 (gd_nodes graphData)))%nat /\
  (forall i n,
      gd_nodes graphData !! i = Some n ->
      let ki := (k + 2 * length (List.filter (isNew (nodes current))
                                             (firstn i (gd_nodes graphData))))%nat in
      nodes (fst (reconcile width height rand current k graphData)) !! i
      = Some match findNode (snap_id n) (nodes current) with
             | Some existing =>
                 mkNode (snap_id n) (snap_type n)
                        (node_x existing) (node_y existing)
                        (node_vx existing) (node_vy existing)
             | None =>
                 mkNode (snap_id n) (snap_type n)
                        (rand ki * width)%float
                        (rand (S ki) * height * 0.5)%float 0%float 0%float
             end).
Proof.
  split.
  - unfold reconcile.
    pose proof (reconcileNodes_draws (nodes current) k (gd_nodes graphData)) as H.
    destruct (reconcileNodes width height rand (nodes current) k
                (gd_nodes graphData)) as [newNodes k'].
    exact H.
  - intros i n Hi ki.
    pose proof (reconcileNodes_cursor (nodes current) k (gd_nodes graphData)
                  i n Hi) as H.
    unfold reconcile.
    destruct (reconcileNodes width height rand (nodes current) k
                (gd_nodes graphData)) as [newNodes k'].
    cbn [fst nodes] in *. rewrite H. unfold reconcileNode. fold ki.
    now destruct (findNode (snap_id n) (nodes current)).
Qed.

(** X2.  Reconciliation is idempotent: with unique ids in the snapshot,
    reconciling the same snapshot once more leaves the held state as it is
    and draws no random number. *)
Theorem reconcile_idempotent
        (current : Physics) (k k' : nat) (graphData : GraphData) :
  NoDup (map snap_id (gd_nodes graphData)) ->
  reconcile width height rand
            (fst (reconcile width height rand current k graphData)) k' graphData
  = (fst (reconcile width height rand current k graphData), k').
Proof.
  intros Hnd. unfold reconcile.
  destruct (reconcileNodes_ids (nodes current) k (gd_nodes graphData))
    as [Hid Hty].
  destruct (reconcileNodes width height rand (nodes current) k
              (gd_nodes graphData)) as [res k1].
  cbn [fst snd nodes] in *.
  rewrite (reconcileNodes_retained res k' (gd_nodes graphData) res);
    [reflexivity|].
  apply Forall2_same_length_lookup_2.
  - now rewrite <- (length_map snap_id), <- Hid, length_map.
  - intros i n old Hn Hold.
    assert (Hi : node_id old = snap_id n).
    { pose proof (lookup_map node_id res i) as H1.
      pose proof (lookup_map snap_id (gd_nodes graphData) i) as H2.
      rewrite Hid, H2, Hn, Hold in H1. simpl in H1. congruence. }
    assert (Ht : node_type old = snap_type n).
    { pose proof (lookup_map node_type res i) as H1.
      pose proof (lookup_map snap_type (gd_nodes graphData) i) as H2.
      rewrite Hty, H2, Hn, Hold in H1. simpl in H1. congruence. }
    split; [|now split].
    rewrite <- Hi. apply findNode_unique.
    + now rewrite Hid.
    + now apply list_elem_of_lookup_2 with i.
Qed.
End ReconcileShape.

(** * What a tick keeps *)

Module TickFacts.
Import Binary64 RepulsionSymmetry PhaseFacts.
Local Open Scope float_scope.

Lemma identity_place (ns ns' : list Node) :
  place <$> ns = place <$> ns' -> identity <$> ns = identity <$> ns'.
Proof.
  intros H.
  assert (Hc : forall l : list Node, identity <$> l = (fun q : string * string * float * float => (q.1.1.1, q.1.1.2)) <$> (place <$> l)).
  { intros l. rewrite <- list_fmap_compose. reflexivity. }
  now rewrite !Hc, H.
Qed.

Lemma identity_settle (width height : float) (ns : list Node) :
  identity <$> settle width height ns = identity <$> ns.
Proof.
  unfold settle. induction ns as [|n ns IH]; simpl; [reflexivity|].
  now f_equal.
Qed.

Lemma identity_integrate (width height : float) (p : Physics) :
  identity <$> nodes (integrate width height p) = identity <$> nodes p /\
  links (integrate width height p) = links p.
Proof.
  split; [|reflexivity]. unfold integrate. cbn [nodes].
  rewrite identity_settle. apply identity_place.
  now rewrite place_attraction, place_repulsion.
Qed.

Lemma identity_runFrames (sizes : list (float * float)) (p : Physics) :
  identity <$> nodes (runFrames sizes p) = identity <$> nodes p /\
  links (runFrames sizes p) = links p.
Proof.
  unfold runFrames. revert p.
  induction sizes as [|[w h] sizes IH]; intros p; [now split|].
  change (fold_left _ ((w, h) :: sizes) p)
    with (fold_left (fun q size => fst (renderLoop (fst size) (snd size) q))
            sizes (integrate w h p)).
  destruct (IH (integrate w h p)) as [H1 H2]. rewrite H1, H2.
  apply identity_integrate.
Qed.

Lemma runFrames_keeps (sizes : list (float * float)) (p : Physics) :
  map node_id (nodes (runFrames sizes p)) = map node_id (nodes p) /\
  map node_type (nodes (runFrames sizes p)) = map node_type (nodes p) /\
  links (runFrames sizes p) = links p.
Proof.
  destruct (identity_runFrames sizes p) as [Hid Hl].
  assert (Hfst : forall l : list Node, map node_id l = fst <$> (identity <$> l)).
  { intros l. rewrite <- list_fmap_compose. reflexivity. }
  assert (Hsnd : forall l : list Node, map node_type l = snd <$> (identity <$> l)).
  { intros l. rewrite <- list_fmap_compose. reflexivity. }
  repeat split.
  - now rewrite !Hfst, Hid.
  - now rewrite !Hsnd, Hid.
  - exact Hl.
Qed.

(** X4.  Frames never add, drop, reorder or retype nodes, and never touch
    the links: after any run of frames, at whatever canvas sizes, the held
    nodes have the same ids and types in the same order and the link list is
    unchanged. *)
Theorem frames_keep_graph (sizes : list (float * float)) (p : Physics) :
  map node_id (nodes (runFrames sizes p)) = map node_id (nodes p) /\
  map node_type (nodes (runFrames sizes p)) = map node_type (nodes p) /\
  length (nodes (runFrames sizes p)) = length (nodes p) /\
  links (runFrames sizes p) = links p.
Proof.
  destruct (runFrames_keeps sizes p) as (Hid & Hty & Hl).
  repeat split; try assumption.
  now rewrite <- (length_map node_id), Hid, length_map.
Qed.

Lemma integrate_lookup (width height : float) (p : Physics) (k : nat) (n : Node) :
  nodes p !! k = Some n ->
  exists n',
    nodes (integrate width height p) !! k = Some n' /\
    node_x n' = node_x n + node_vx n' /\
    node_y n' = node_y n + node_vy n'.
Proof.
  intros Hk. unfold integrate, settle. cbn [nodes].
  assert (Hplace : place <$> attraction (repulsion (nodes p)) (links p) !! k
                   = Some (place n)).
  { rewrite <- list_lookup_fmap, place_attraction, place_repulsion,
      list_lookup_fmap, Hk. reflexivity. }
  change (map ?f ?l) with (f <$> l). rewrite list_lookup_fmap.
  destruct (attraction (repulsion (nodes p)) (links p) !! k) as [m|];
    [|discriminate].
  simpl in Hplace. injection Hplace as _ _ Hx Hy.
  eexists. split; [reflexivity|]. unfold settleNode. cbn [node_x node_y node_vx node_vy].
  now rewrite Hx, Hy.
Qed.

(** X5.  The integration is semi-implicit: only the last phase moves a node,
    and it moves it by the velocity it has just computed.  After one step
    every node sits at its old position plus its new velocity. *)
Theorem position_update (width height : float) (p : Physics) :
  Forall2 (fun n n' => node_x n' = node_x n + node_vx n' /\
                       node_y n' = node_y n + node_vy n')
          (nodes p) (nodes (integrate width height p)).
Proof.
  apply Forall2_same_length_lookup_2.
  - destruct (runFrames_keeps [(width, height)] p) as (Hid & _).
    change (runFrames [(width, height)] p) with (integrate width height p) in Hid.
    now rewrite <- (length_map node_id), <- Hid, length_map.
  - intros i n n' Hn Hn'.
    destruct (integrate_lookup width height p i n Hn) as (m & Hm & Hxy).
    congruence.
Qed.
End TickFacts.

(** * Not-a-number positions and velocities *)

Module NotANumber.
Import Binary64 RepulsionSymmetry PhaseFacts.
Local Open Scope float_scope.

Lemma sub_nan_r (a : float) : a - nan = nan.
Proof. rewrite sub_add_opp. apply add_nan_r. Qed.

Lemma sub_nan_l (a : float) : nan - a = nan.
Proof. rewrite sub_add_opp. apply add_nan_l. Qed.

Lemma mul_nan_r (a : float) : a * nan = nan.
Proof. rewrite mul_comm. apply mul_nan_l. Qed.

Lemma div_nan_r (a : float) : a / nan = nan.
Proof.
  apply Prim2SF_inj. rewrite FloatAxioms.div_spec.
  change (Prim2SF nan) with S754_nan.
  now destruct (Prim2SF a).
Qed.

Lemma div_nan_l (a : float) : nan / a = nan.
Proof.
  apply Prim2SF_inj. rewrite FloatAxioms.div_spec.
  change (Prim2SF nan) with S754_nan. reflexivity.
Qed.

Lemma pairDistSq_astray (a b : Node) :
  astray a \/ astray b -> pairDistSq a b = nan.
Proof.
  unfold astray, pairDistSq. intros [[H | H] | [H | H]]; rewrite H;
    rewrite ?sub_nan_l, ?sub_nan_r, ?mul_nan_l;
    first [apply add_nan_l | apply add_nan_r].
Qed.

Lemma repulsionForce_astray (a b : Node) :
  astray a \/ astray b -> repulsionForce a b = (nan, nan).
Proof.
  intros H. apply pairDistSq_astray in H.
  unfold repulsionForce. unfold pairDistSq in H. cbv zeta. rewrite H.
  change (floorDistSq nan) with nan.
  change (JS.Math_sqrt nan) with nan.
  now rewrite (div_nan_r REPULSION), !mul_nan_r.
Qed.


Lemma lostVelocity_addVelocity (n : Node) (fx fy : float) :
  lostVelocity n -> lostVelocity (addVelocity n fx fy).
Proof.
  intros [Hx Hy]. unfold lostVelocity, addVelocity. cbn [node_vx node_vy].
  now rewrite Hx, Hy, !add_nan_l.
Qed.

Lemma lostVelocity_subVelocity (n : Node) (fx fy : float) :
  lostVelocity n -> lostVelocity (subVelocity n fx fy).
Proof.
  intros [Hx Hy]. unfold lostVelocity, subVelocity. cbn [node_vx node_vy].
  now rewrite Hx, Hy, !sub_nan_l.
Qed.

Lemma lostAt_alter (ns : list Node) (j k : nat) (fx fy : float) :
  lostAt ns j -> lostAt (alter (fun n => addVelocity n fx fy) k ns) j.
Proof.
  intros (n & Hn & Hl). unfold lostAt.
  destruct (decide (j = k)) as [-> | Hne].
  - rewrite list_lookup_alter_eq, Hn. eexists. split; [reflexivity|].
    now apply lostVelocity_addVelocity.
  - rewrite list_lookup_alter_ne by congruence. now exists n.
Qed.

Lemma lostAt_alter_nan (ns : list Node) (j : nat) :
  (j < length ns)%nat ->
  lostAt (alter (fun n => addVelocity n nan nan) j ns) j /\
  lostAt (alter (fun n => addVelocity n (- nan) (- nan)) j ns) j.
Proof.
  intros Hj. destruct (lookup_lt_is_Some_2 ns j Hj) as [n Hn].
  unfold lostAt. rewrite !list_lookup_alter_eq, Hn.
  split; eexists; (split; [reflexivity|]);
    unfold lostVelocity, addVelocity; cbn [node_vx node_vy];
    change (- nan) with nan; now rewrite !add_nan_r.
Qed.

Lemma exchange_length (start acc : list Node) (p : nat * nat) :
  length (exchange start acc p) = length acc.
Proof.
  unfold exchange.
  destruct (start !! p.1) as [a|]; [|reflexivity].
  destruct (start !! p.2) as [b|]; [|reflexivity].
  destruct (repulsionForce a b) as [fx fy].
  now rewrite !length_alter.
Qed.

Lemma lostAt_exchange (start acc : list Node) (p : nat * nat) (j : nat) :
  lostAt acc j -> lostAt (exchange start acc p) j.
Proof.
  intros H. unfold exchange.
  destruct (start !! p.1) as [a|]; [|exact H].
  destruct (start !! p.2) as [b|]; [|exact H].
  destruct (repulsionForce a b) as [fx fy].
  now do 2 apply lostAt_alter.
Qed.

Lemma lostAt_fold_exchange (start : list Node) (ps : list (nat * nat))
      (acc : list Node) (j : nat) :
  lostAt acc j -> lostAt (fold_left (exchange start) ps acc) j.
Proof.
  revert acc. induction ps as [|p ps IH]; intros acc H; simpl; [exact H|].
  now apply IH, lostAt_exchange.
Qed.

(** A pair with a stray member costs both members their velocity. *)
Lemma exchange_astray (start acc : list Node) (i j : nat) (a b : Node) :
  start !! i = Some a -> start !! j = Some b ->
  astray a \/ astray b ->
  (i < length acc)%nat -> (j < length acc)%nat ->
  lostAt (exchange start acc (i, j)) i /\ lostAt (exchange start acc (i, j)) j.
Proof.
  intros Ha Hb Hs Hi Hj. unfold exchange. cbn [fst snd].
  rewrite Ha, Hb, (repulsionForce_astray a b Hs).
  split.
  - apply lostAt_alter. now apply lostAt_alter_nan.
  - apply lostAt_alter_nan. now rewrite length_alter.
Qed.

Lemma fold_exchange_astray (start : list Node) (ps : list (nat * nat))
      (acc : list Node) (i j : nat) (a b : Node) :
  In (i, j) ps ->
  start !! i = Some a -> start !! j = Some b ->
  astray a \/ astray b ->
  (i < length acc)%nat -> (j < length acc)%nat ->
  lostAt (fold_left (exchange start) ps acc) i /\
  lostAt (fold_left (exchange start) ps acc) j.
Proof.
  revert acc. induction ps as [|p ps IH]; intros acc Hin Ha Hb Hs Hi Hj;
    [destruct Hin|].
  simpl. destruct Hin as [-> | Hin].
  - destruct (exchange_astray start acc i j a b Ha Hb Hs Hi Hj) as [H1 H2].
    split; now apply lostAt_fold_exchange.
  - apply IH; try assumption; now rewrite exchange_length.
Qed.

(** With a stray node among at least two, repulsion leaves no velocity. *)
Lemma repulsion_astray (ns : list Node) (k : nat) (n : Node) :
  ns !! k = Some n -> astray n -> (2 <= length ns)%nat ->
  forall j, (j < length ns)%nat -> lostAt (repulsion ns) j.
Proof.
  intros Hk Hs Hlen.
  assert (Hklt : (k < length ns)%nat) by now apply lookup_lt_Some with n.
  assert (Hother : forall j, (j < length ns)%nat -> j <> k ->
                             lostAt (repulsion ns) j /\ lostAt (repulsion ns) k).
  { intros j Hj Hjk. rewrite repulsion_exchange.
    destruct (lookup_lt_is_Some_2 ns j Hj) as [m Hm].
    destruct (Nat.lt_total j k) as [Hlt | [Heq | Hgt]]; [|congruence|].
    - apply (fold_exchange_astray ns _ ns j k m n); auto.
      apply unorderedPairs_spec. lia.
    - apply and_comm.
      apply (fold_exchange_astray ns _ ns k j n m); auto.
      apply unorderedPairs_spec. lia. }
  intros j Hj. destruct (decide (j = k)) as [-> | Hjk].
  - destruct k as [|k'].
    + apply (Hother 1%nat); lia.
    + apply (Hother 0%nat); lia.
  - now apply Hother.
Qed.

Lemma lostAt_insert (ns : list Node) (i j : nat) (old new : Node) :
  ns !! i = Some old -> (lostVelocity old -> lostVelocity new) ->
  lostAt ns j -> lostAt (<[i := new]> ns) j.
Proof.
  intros Hi Hnew (n & Hn & Hl). unfold lostAt.
  destruct (decide (j = i)) as [-> | Hne].
  - rewrite list_lookup_insert_eq by now apply lookup_lt_Some with old.
    exists new. split; [reflexivity|]. apply Hnew. congruence.
  - rewrite list_lookup_insert_ne by congruence. now exists n.
Qed.

Lemma lostAt_springLink (ns : list Node) (l : Link) (j : nat) :
  lostAt ns j -> lostAt (springLink ns l) j.
Proof.
  intros H. unfold springLink.
  destruct (findIndex (source l) ns) as [si|]; [|exact H].
  destruct (findIndex (target l) ns) as [ti|]; [|exact H].
  destruct (ns !! si) as [s|] eqn:Hs; [|exact H].
  destruct (ns !! ti) as [t|] eqn:Ht; [|exact H].
  destruct (springForce s t) as [fx fy].
  assert (H1 : lostAt (<[si := addVelocity s fx fy]> ns) j).
  { apply lostAt_insert with s; auto. apply lostVelocity_addVelocity. }
  set (ns1 := <[si := addVelocity s fx fy]> ns) in *.
  destruct (ns1 !! ti) as [t'|] eqn:Ht'; [|exact H1].
  apply lostAt_insert with t'; auto. apply lostVelocity_subVelocity.
Qed.

Lemma lostAt_attraction (ns : list Node) (ls : list Link) (j : nat) :
  lostAt ns j -> lostAt (attraction ns ls) j.
Proof.
  unfold attraction. revert ns.
  induction ls as [|l ls IH]; intros ns H; simpl; [exact H|].
  now apply IH, lostAt_springLink.
Qed.

(** The last phase turns a lost velocity into a lost position. *)
Lemma settleNode_lostVelocity (width height : float) (planet : PlanetConfig)
      (n : Node) :
  lostVelocity n -> settleNode width height planet n = lost n.
Proof.
  intros [Hx Hy]. unfold settleNode, lost. cbv zeta. rewrite Hx, Hy.
  rewrite !add_nan_l.
  destruct (_ <? _); rewrite ?add_nan_l, !mul_nan_l, !add_nan_r; reflexivity.
Qed.

Lemma integrate_lost (width height : float) (p : Physics) :
  (forall j, (j < length (nodes p))%nat ->
             lostAt (attraction (repulsion (nodes p)) (links p)) j) ->
  nodes (integrate width height p) = lost <$> nodes p.
Proof.
  intros H. unfold integrate, settle. cbn [nodes].
  assert (Hplace : place <$> attraction (repulsion (nodes p)) (links p)
                   = place <$> nodes p)
    by now rewrite place_attraction, place_repulsion.
  set (A := attraction (repulsion (nodes p)) (links p)) in *.
  change (map ?f ?l) with (f <$> l).
  apply list_eq. intros j. rewrite !list_lookup_fmap.
  assert (Hj : place <$> A !! j = place <$> nodes p !! j)
    by now rewrite <- !list_lookup_fmap, Hplace.
  destruct (nodes p !! j) as [n|] eqn:Hn.
  - destruct (H j) as (m & Hm & Hl); [now apply lookup_lt_Some with n|].
    rewrite Hm in *. simpl in *. injection Hj as Hid Hty _ _.
    rewrite settleNode_lostVelocity by assumption.
    unfold lost. now rewrite Hid, Hty.
  - destruct (A !! j); [discriminate | reflexivity].
Qed.

Lemma integrate_astray (width height : float) (p : Physics) (k : nat) (n : Node) :
  nodes p !! k = Some n -> astray n -> (2 <= length (nodes p))%nat ->
  nodes (integrate width height p) = lost <$> nodes p.
Proof.
  intros Hk Hs Hlen. apply integrate_lost. intros j Hj.
  apply lostAt_attraction. now apply repulsion_astray with k n.
Qed.

Lemma lostAt_repulsion (ns : list Node) (j : nat) :
  lostAt ns j -> lostAt (repulsion ns) j.
Proof. rewrite repulsion_exchange. apply lostAt_fold_exchange. Qed.

Lemma integrate_lostVelocity (width height : float) (p : Physics) :
  Forall lostVelocity (nodes p) ->
  nodes (integrate width height p) = lost <$> nodes p.
Proof.
  intros Hall. apply integrate_lost. intros j Hj.
  apply lostAt_attraction, lostAt_repulsion.
  destruct (lookup_lt_is_Some_2 _ j Hj) as [n Hn].
  exists n. split; [exact Hn|].
  rewrite Forall_forall in Hall. apply Hall. now apply list_elem_of_lookup_2 with j.
Qed.

Lemma lost_lost (ns : list Node) : lost <$> (lost <$> ns) = lost <$> ns.
Proof. rewrite <- list_fmap_compose. reflexivity. Qed.

Lemma Forall_lost (ns : list Node) : Forall lostVelocity (lost <$> ns).
Proof.
  induction ns as [|n ns IH]; constructor; [now split | exact IH].
Qed.

(** X6.  [NaN] is contagious.  If, among at least two held nodes, one has a
    [NaN] coordinate, then one step later every node has [NaN] position and
    [NaN] velocity: nothing is left of any node but its id and type. *)
Theorem nan_spreads (width height : float) (p : Physics) (k : nat) (n : Node) :
  nodes p !! k = Some n -> astray n -> (2 <= length (nodes p))%nat ->
  nodes (integrate width height p) = lost <$> nodes p /\
  links (integrate width height p) = links p.
Proof.
  intros Hk Hs Hlen. split; [|reflexivity]. now apply integrate_astray with k n.
Qed.

(** X7.  [NaN] is permanent.  Once every held node has a [NaN] velocity, any
    run of one or more frames, at whatever canvas sizes, ends with every node
    at [NaN] position and velocity. *)
Theorem nan_stays (sizes : list (float * float)) (p : Physics) :
  sizes <> [] -> Forall lostVelocity (nodes p) ->
  nodes (runFrames sizes p) = lost <$> nodes p.
Proof.
  unfold runFrames. revert p.
  induction sizes as [|[w h] sizes IH]; intros p Hne Hall; [congruence|].
  change (fold_left _ ((w, h) :: sizes) p)
    with (fold_left (fun q size => fst (renderLoop (fst size) (snd size) q))
            sizes (integrate w h p)).
  pose proof (integrate_lostVelocity w h p Hall) as Hstep.
  destruct sizes as [|s sizes]; [exact Hstep|].
  rewrite IH; [| discriminate | rewrite Hstep; apply Forall_lost].
  now rewrite Hstep, lost_lost.
Qed.
End NotANumber.

(** * From the stores to the canvas *)

Module Adapter.
Import DanglingLinks TickFacts.
Local Open Scope string_scope.
Local Open Scope list_scope.

Lemma fold_pushAgent (l : list Agent) (acc : list SnapshotNode * list Link) :
  fold_left pushAgent l acc
  = (acc.1 ++ map (fun a => mkSnapshotNode (agent_id a) "agent") l, acc.2).
Proof.
  revert acc. induction l as [|a l IH]; intros [ns ls]; simpl.
  - now rewrite app_nil_r.
  - rewrite IH. unfold pushAgent. simpl. now rewrite <- app_assoc.
Qed.

Lemma fold_pushForm (l : list Form) (acc : list SnapshotNode * list Link) :
  fold_left pushForm l acc
  = (acc.1 ++ map (fun f => mkSnapshotNode (form_id f) "form") l,
     acc.2 ++ map (fun f => mkLink (form_agentId f) (form_id f)) l).
Proof.
  revert acc. induction l as [|f l IH]; intros [ns ls]; simpl.
  - now rewrite !app_nil_r.
  - rewrite IH. unfold pushForm. simpl. now rewrite <- !app_assoc.
Qed.

Lemma fold_pushOutput (l : list Output) (acc : list SnapshotNode * list Link) :
  fold_left pushOutput l acc
  = (acc.1 ++ map (fun o => mkSnapshotNode (output_id o) "output") l,
     acc.2 ++ map (fun o => mkLink (output_formId o) (output_id o)) l).
Proof.
  revert acc. induction l as [|o l IH]; intros [ns ls]; simpl.
  - now rewrite !app_nil_r.
  - rewrite IH. unfold pushOutput. simpl. now rewrite <- !app_assoc.
Qed.

(** The three loops in closed form. *)
Lemma refreshGraph_closed (allAgents : list Agent) (allForms : list Form)
      (allOutputs : list Output) :
  refreshGraph allAgents allForms allOutputs
  = mkGraphData
      (map (fun a => mkSnapshotNode (agent_id a) "agent") allAgents
       ++ map (fun f => mkSnapshotNode (form_id f) "form") allForms
       ++ map (fun o => mkSnapshotNode (output_id o) "output") allOutputs)
      (map (fun f => mkLink (form_agentId f) (form_id f)) allForms
       ++ map (fun o => mkLink (output_formId o) (output_id o)) allOutputs).
Proof.
  unfold refreshGraph. cbv zeta.
  rewrite fold_pushOutput, fold_pushForm, fold_pushAgent. simpl.
  now rewrite <- app_assoc.
Qed.

Lemma refreshGraph_ids (allAgents : list Agent) (allForms : list Form)
      (allOutputs : list Output) :
  map snap_id (gd_nodes (refreshGraph allAgents allForms allOutputs))
  = map agent_id allAgents ++ map form_id allForms ++ map output_id allOutputs.
Proof.
  rewrite refreshGraph_closed. cbn [gd_nodes].
  now rewrite !map_app, !map_map.
Qed.

Lemma refreshGraph_links (allAgents : list Agent) (allForms : list Form)
      (allOutputs : list Output) :
  map source (gd_links (refreshGraph allAgents allForms allOutputs))
  = map form_agentId allForms ++ map output_formId allOutputs /\
  map target (gd_links (refreshGraph allAgents allForms allOutputs))
  = map form_id allForms ++ map output_id allOutputs.
Proof.
  rewrite refreshGraph_closed. cbn [gd_links].
  now rewrite !map_app, !map_map.
Qed.

Lemma refreshGraph_types (allAgents : list Agent) (allForms : list Form)
      (allOutputs : list Output) :
  map snap_type (gd_nodes (refreshGraph allAgents allForms allOutputs))
  = repeat "agent" (length allAgents) ++ repeat "form" (length allForms)
    ++ repeat "output" (length allOutputs).
Proof.
  rewrite refreshGraph_closed. cbn [gd_nodes].
  rewrite !map_app, !map_map. cbn [snap_type].
  f_equal; [|f_equal].
  - induction allAgents as [|a l IH]; simpl; [reflexivity | now rewrite IH].
  - induction allForms as [|a l IH]; simpl; [reflexivity | now rewrite IH].
  - induction allOutputs as [|a l IH]; simpl; [reflexivity | now rewrite IH].
Qed.

(** X8.  The adapter makes one node per stored entity, agents first, then
    forms, then outputs, and one link per form and per output; the target of
    every link is the id of a node of the same snapshot. *)
Theorem refreshGraph_shape (allAgents : list Agent) (allForms : list Form)
        (allOutputs : list Output) :
  let g := refreshGraph allAgents allForms allOutputs in
  map snap_id (gd_nodes g)
  = map agent_id allAgents ++ map form_id allForms ++ map output_id allOutputs /\
  map snap_type (gd_nodes g)
  = repeat "agent" (length allAgents) ++ repeat "form" (length allForms)
    ++ repeat "output" (length allOutputs) /\
  map source (gd_links g)
  = map form_agentId allForms ++ map output_formId allOutputs /\
  map target (gd_links g) = map form_id allForms ++ map output_id allOutputs /\
  (forall l, In l (gd_links g) -> In (target l) (map snap_id (gd_nodes g))).
Proof.
  cbv zeta.
  destruct (refreshGraph_links allAgents allForms allOutputs) as [Hs Ht].
  split; [apply refreshGraph_ids|].
  split; [apply refreshGraph_types|]. split; [exact Hs|]. split; [exact Ht|].
  intros l Hl. apply (in_map target) in Hl.
  rewrite Ht in Hl. rewrite refreshGraph_ids.
  apply in_app_iff. right. exact Hl.
Qed.

Lemma findNode_In (ident : string) (ns : list Node) :
  In ident (map node_id ns) -> findNode ident ns <> None.
Proof. intros Hin H. now apply findNode_None in H. Qed.

Lemma resolves_In (ns : list Node) (l : Link) :
  In (source l) (map node_id ns) -> In (target l) (map node_id ns) ->
  resolves ns l = true.
Proof.
  intros Hs Ht. unfold resolves.
  apply findNode_In in Hs. apply findNode_In in Ht.
  destruct (findNode (source l) ns); [|congruence].
  now destruct (findNode (target l) ns).
Qed.

Lemma filter_all {A : Type} (f : A -> bool) (l : list A) :
  (forall x, In x l -> f x = true) -> List.filter f l = l.
Proof.
  induction l as [|x l IH]; intros H; simpl; [reflexivity|].
  rewrite (H x (or_introl eq_refl)). f_equal. apply IH.
  intros y Hy. apply H. now right.
Qed.

Section Pipeline.
Variables (width height : float) (rand : nat -> float).
Variables (allAgents : list Agent) (allForms : list Form)
          (allOutputs : list Output).
Variables (current : Physics) (k : nat) (sizes : list (float * float)).

Lemma shown_identity :
  let p := shown width height rand allAgents allForms allOutputs current k sizes in
  map node_id (nodes p)
  = map agent_id allAgents ++ map form_id allForms ++ map output_id allOutputs /\
  map node_type (nodes p)
  = repeat "agent" (length allAgents) ++ repeat "form" (length allForms)
    ++ repeat "output" (length allOutputs) /\
  links p = gd_links (refreshGraph allAgents allForms allOutputs).
Proof.
  cbv zeta. unfold shown.
  destruct (runFrames_keeps sizes
              (fst (reconcile width height rand current k
                      (refreshGraph allAgents allForms allOutputs))))
    as (Hid & Hty & Hl).
  rewrite Hid, Hty, Hl.
  destruct (reconcile_image width height rand current k
              (refreshGraph allAgents allForms allOutputs))
    as (Rid & Rty & Rl).
  rewrite Rid, Rty, Rl.
  now rewrite refreshGraph_ids, refreshGraph_types.
Qed.

Lemma all_links_resolve :
  (forall f, In f allForms -> In (form_agentId f) (map agent_id allAgents)) ->
  (forall o, In o allOutputs -> In (output_formId o) (map form_id allForms)) ->
  let p := shown width height rand allAgents allForms allOutputs current k sizes in
  forall l, In l (links p) -> resolves (nodes p) l = true.
Proof.
  intros HF HO. cbv zeta.
  destruct shown_identity as (Hid & _ & Hl).
  set (p := shown width height rand allAgents allForms allOutputs current k sizes) in *.
  intros l Hin. rewrite Hl, refreshGraph_closed in Hin. cbn [gd_links] in Hin.
  apply resolves_In; rewrite Hid;
    apply in_app_iff in Hin as [Hin | Hin];
    apply in_map_iff in Hin as (e & <- & He); cbn [source target];
    rewrite !in_app_iff.
  - left. now apply HF.
  - right. left. now apply HO.
  - right. left. now apply in_map.
  - right. right. now apply in_map.
Qed.

(** What the edge loop issues for a link whose endpoints are found. *)
Lemma drawEdge_resolved (ns : list Node) (l : Link) :
  resolves ns l = true ->
  exists s t style dash,
    findNode (source l) ns = Some s /\ findNode (target l) ns = Some t /\
    drawEdge ns l
    = [ BeginPath; MoveTo (node_x s) (node_y s); LineTo (node_x t) (node_y t);
        SetStrokeStyle style; SetLineDash dash; Stroke ].
Proof.
  unfold resolves, drawEdge. intros H.
  destruct (findNode (source l) ns) as [s|]; [|discriminate].
  destruct (findNode (target l) ns) as [t|]; [|discriminate].
  exists s, t.
  destruct (String.eqb (node_type t) "output"); do 2 eexists;
    (split; [reflexivity | split; reflexivity]).
Qed.

Lemma strokedEdges_resolved (ns : list Node) (ls : list Link) :
  (forall l, In l ls -> resolves ns l = true) ->
  strokedEdges ns ls = length ls.
Proof.
  unfold strokedEdges, drawEdges.
  induction ls as [|l ls IH]; intros H; [reflexivity|].
  cbn [flat_map length]. rewrite List.filter_app, length_app, IH
    by (intros l' Hl'; apply H; now right).
  destruct (drawEdge_resolved ns l (H l (or_introl eq_refl)))
    as (s & t & style & dash & _ & _ & ->).
  reflexivity.
Qed.

(** X9.  With referential integrity in the stores (every form names a
    stored agent, every output a stored form), every link resolves: however
    many frames have run, the edge loop of a frame issues for every link,
    one per form and one per output, the path from the source node's position
    to the target node's, a stroke style, a dash pattern and one [stroke]
    call; so the frame strokes exactly one edge per form and one per
    output. *)
Theorem every_link_drawn :
  (forall f, In f allForms -> In (form_agentId f) (map agent_id allAgents)) ->
  (forall o, In o allOutputs -> In (output_formId o) (map form_id allForms)) ->
  let p := shown width height rand allAgents allForms allOutputs current k sizes in
  length (links p) = (length allForms + length allOutputs)%nat /\
  Forall (fun l =>
            exists s t style dash,
              findNode (source l) (nodes p) = Some s /\
              findNode (target l) (nodes p) = Some t /\
              drawEdge (nodes p) l
              = [ BeginPath; MoveTo (node_x s) (node_y s);
                  LineTo (node_x t) (node_y t);
                  SetStrokeStyle style; SetLineDash dash; Stroke ])
         (links p) /\
  strokedEdges (nodes p) (links p)
  = (length allForms + length allOutputs)%nat /\
  renderedEdges (nodes p) (links p)
  = (length allForms + length allOutputs)%nat.
Proof.
  intros HF HO. cbv zeta.
  pose proof (all_links_resolve HF HO) as Hres. cbv zeta in Hres.
  destruct shown_identity as (_ & _ & Hl).
  set (p := shown width height rand allAgents allForms allOutputs current k sizes) in *.
  assert (Hlen : length (links p) = (length allForms + length allOutputs)%nat).
  { rewrite Hl, refreshGraph_closed. cbn [gd_links].
    now rewrite length_app, !length_map. }
  split; [exact Hlen|]. split; [|split].
  - apply Forall_forall. intros l Hin. apply drawEdge_resolved, Hres.
    now apply list_elem_of_In.
  - now rewrite strokedEdges_resolved.
  - rewrite (renderedEdges_live (nodes p) (nodes p)) by reflexivity.
    now rewrite filter_all.
Qed.

Lemma renderedStars_app (l1 l2 : list Node) :
  renderedStars (l1 ++ l2) = (renderedStars l1 + renderedStars l2)%nat.
Proof.
  unfold renderedStars. now rewrite flat_map_app, List.filter_app, length_app.
Qed.

Lemma renderedStars_typed (ns : list Node) :
  Forall (fun n => node_type n = "agent" \/ node_type n = "form"
                   \/ node_type n = "output") ns ->
  renderedStars ns = length ns.
Proof.
  induction 1 as [|n ns Hn _ IH]; [reflexivity|].
  change (n :: ns) with ([n] ++ ns). rewrite renderedStars_app, IH.
  cbn [length app]. f_equal.
  unfold renderedStars, drawNode. cbn [flat_map].
  destruct Hn as [-> | [-> | ->]]; reflexivity.
Qed.

(** X10.  The types the adapter writes are the types the renderer knows:
    every stored entity is drawn as one star in every frame. *)
Theorem every_entity_drawn :
  let p := shown width height rand allAgents allForms allOutputs current k sizes in
  renderedStars (nodes p)
  = (length allAgents + length allForms + length allOutputs)%nat.
Proof.
  cbv zeta. destruct shown_identity as (Hid & Hty & _).
  set (p := shown width height rand allAgents allForms allOutputs current k sizes) in *.
  rewrite renderedStars_typed.
  - rewrite <- (length_map node_id), Hid, !length_app, !length_map. lia.
  - apply Forall_forall. intros n Hn.
    apply list_elem_of_In, (in_map node_type) in Hn. rewrite Hty in Hn.
    rewrite !in_app_iff in Hn.
    destruct Hn as [Hn | [Hn | Hn]]; apply repeat_spec in Hn; auto.
Qed.
Lemma identity_of (l : list Node) (S : list SnapshotNode) :
  map node_id l = map snap_id S -> map node_type l = map snap_type S ->
  map identity l = map (fun n => (snap_id n, snap_type n)) S.
Proof.
  revert S. induction l as [|n l IH]; intros [|s S] Hid Hty;
    try discriminate; [reflexivity|].
  injection Hid as Hid Hids. injection Hty as Hty Htys.
  simpl. unfold identity at 1. rewrite Hid, Hty. f_equal. now apply IH.
Qed.

(** What a node found under an id can be. *)
Lemma shown_found (ident : string) (t : Node) :
  let p := shown width height rand allAgents allForms allOutputs current k sizes in
  findNode ident (nodes p) = Some t ->
  (In ident (map agent_id allAgents) /\ node_type t = "agent") \/
  (In ident (map form_id allForms) /\ node_type t = "form") \/
  (In ident (map output_id allOutputs) /\ node_type t = "output").
Proof.
  cbv zeta. intros Hf. apply findNode_Some in Hf as [Hin Hid].
  apply (in_map identity) in Hin.
  unfold shown in Hin.
  destruct (runFrames_keeps sizes
              (fst (reconcile width height rand current k
                      (refreshGraph allAgents allForms allOutputs))))
    as (Fid & Fty & _).
  destruct (reconcile_image width height rand current k
              (refreshGraph allAgents allForms allOutputs))
    as (Rid & Rty & _).
  rewrite (identity_of _ (gd_nodes (refreshGraph allAgents allForms allOutputs)))
    in Hin by congruence.
  rewrite refreshGraph_closed in Hin. cbn [gd_nodes] in Hin.
  rewrite !map_app, !map_map in Hin. cbn [snap_id snap_type] in Hin.
  unfold identity in Hin. rewrite Hid in Hin.
  rewrite !in_app_iff in Hin.
  destruct Hin as [Hin | [Hin | Hin]];
    apply in_map_iff in Hin as (e & [= He Hty] & Hin);
    [left | right; left | right; right];
    (split; [rewrite <- He; now apply in_map | now symmetry]).
Qed.

(** X11.  With ids unique across the three stores, the edge to an output is
    stroked dashed and grey and the edge to a form solid and white,
    whenever its two endpoints are found. *)
Theorem edge_styles :
  NoDup (map agent_id allAgents ++ map form_id allForms
         ++ map output_id allOutputs) ->
  let p := shown width height rand allAgents allForms allOutputs current k sizes in
  (forall o s t, In o allOutputs ->
     findNode (output_formId o) (nodes p) = Some s ->
     findNode (output_id o) (nodes p) = Some t ->
     drawEdge (nodes p) (mkLink (output_formId o) (output_id o))
     = [ BeginPath; MoveTo (node_x s) (node_y s); LineTo (node_x t) (node_y t);
         SetStrokeStyle "rgba(192, 192, 192, 0.3)"; SetLineDash [2; 4]%float;
         Stroke ]) /\
  (forall f s t, In f allForms ->
     findNode (form_agentId f) (nodes p) = Some s ->
     findNode (form_id f) (nodes p) = Some t ->
     drawEdge (nodes p) (mkLink (form_agentId f) (form_id f))
     = [ BeginPath; MoveTo (node_x s) (node_y s); LineTo (node_x t) (node_y t);
         SetStrokeStyle "rgba(255, 255, 255, 0.4)"; SetLineDash [];
         Stroke ]).
Proof.
  intros Hnd. cbv zeta.
  apply NoDup_app in Hnd as (_ & HAF & Hnd).
  apply NoDup_app in Hnd as (_ & HFO & _).
  split.
  - intros o s t Ho Hs Ht. unfold drawEdge. cbn [source target].
    rewrite Hs, Ht.
    assert (Hin : output_id o ∈ map output_id allOutputs)
      by now apply list_elem_of_In, in_map.
    destruct (shown_found _ _ Ht) as [[Hi _] | [[Hi _] | [_ ->]]].
    + exfalso. apply list_elem_of_In in Hi. apply (HAF _ Hi).
      apply elem_of_app. now right.
    + exfalso. apply list_elem_of_In in Hi. now apply (HFO _ Hi).
    + reflexivity.
  - intros f s t Hf Hs Ht. unfold drawEdge. cbn [source target].
    rewrite Hs, Ht.
    assert (Hin : form_id f ∈ map form_id allForms)
      by now apply list_elem_of_In, in_map.
    destruct (shown_found _ _ Ht) as [[Hi _] | [[_ ->] | [Hi _]]].
    + exfalso. apply list_elem_of_In in Hi. apply (HAF _ Hi).
      apply elem_of_app. now left.
    + reflexivity.
    + exfalso. apply list_elem_of_In in Hi. now apply (HFO _ Hin).
Qed.
End Pipeline.
End Adapter.

(** * The retry loop of the model call *)

Section Retry.
Local Open Scope float_scope.
Variables (Json Schema : Type).
Variable JSON_parse : string -> Thrown + Json.
Variable fetch : nat -> Thrown + Response.
Variable jsonSchema : option Schema.

(** X12.  The model call makes at most five attempts and never leaves the
    loop without a result.  It returns what its first successful attempt
    produced, having slept 1000, 2000, 4000, ... milliseconds after each
    failed attempt before it; if all five attempts fail it throws the error
    of the fifth, having slept 1000, 2000, 4000 and 8000 milliseconds. *)
Theorem callGemini_outcome :
  (exists n value,
      (n < 5)%nat /\
      (forall i, (i < n)%nat ->
                 exists e, attemptOnce Json Schema JSON_parse jsonSchema (fetch i) = inl e) /\
      attemptOnce Json Schema JSON_parse jsonSchema (fetch n) = inr value /\
      callGemini Json Schema JSON_parse fetch jsonSchema
      = (Returned Json value, firstn n backoff)) \/
  (exists error,
      (forall i, (i < 5)%nat ->
                 exists e, attemptOnce Json Schema JSON_parse jsonSchema (fetch i) = inl e) /\
      attemptOnce Json Schema JSON_parse jsonSchema (fetch 4%nat) = inl error /\
      callGemini Json Schema JSON_parse fetch jsonSchema
      = (Threw Json error, backoff)).
Proof.
  unfold callGemini. cbn [retryLoop Nat.eqb].
  destruct (attemptOnce Json Schema JSON_parse jsonSchema (fetch 0%nat))
    as [e0|v0] eqn:H0;
    [|left; exists 0%nat, v0;
      (split; [lia | split; [ | split; [exact H0 | reflexivity]]]);
      intros i Hi; lia].
  destruct (attemptOnce Json Schema JSON_parse jsonSchema (fetch 1%nat))
    as [e1|v1] eqn:H1;
    [|left; exists 1%nat, v1;
      (split; [lia | split; [ | split; [exact H1 | reflexivity]]]);
      intros [|i] Hi; [eauto | lia]].
  destruct (attemptOnce Json Schema JSON_parse jsonSchema (fetch 2%nat))
    as [e2|v2] eqn:H2;
    [|left; exists 2%nat, v2;
      (split; [lia | split; [ | split; [exact H2 | reflexivity]]]);
      intros [|[|i]] Hi; [eauto | eauto | lia]].
  destruct (attemptOnce Json Schema JSON_parse jsonSchema (fetch 3%nat))
    as [e3|v3] eqn:H3;
    [|left; exists 3%nat, v3;
      (split; [lia | split; [ | split; [exact H3 | reflexivity]]]);
      intros [|[|[|i]]] Hi; [eauto | eauto | eauto | lia]].
  destruct (attemptOnce Json Schema JSON_parse jsonSchema (fetch 4%nat))
    as [e4|v4] eqn:H4;
    [|left; exists 4%nat, v4;
      (split; [lia | split; [ | split; [exact H4 | reflexivity]]]);
      intros [|[|[|[|i]]]] Hi; [eauto | eauto | eauto | eauto | lia]].
  right. exists e4. split; [ | split; reflexivity].
  intros [|[|[|[|[|i]]]]] Hi; [eauto | eauto | eauto | eauto | eauto | lia].
Qed.
End Retry.

(** * Where the obstacle is *)

Module PlanetGeometry.
Import Binary64 Binary64Order PlanetFacts ObstacleCenter.
Local Open Scope float_scope.

Lemma opp_nonneg (a : float) : (0 <=? a) = true -> (- a <=? 0) = true.
Proof.
  rewrite leb0_spec, FloatAxioms.leb_spec, FloatAxioms.opp_spec.
  change (Prim2SF 0) with (S754_zero false).
  destruct (Prim2SF a) as [s|[|]| |[|] m e]; simpl; tauto.
Qed.

(** X13.  On a canvas of non-negative size the obstacle has a non-negative
    radius, and its center lies on or left of the canvas's left edge and on
    or below its top edge. *)
Theorem planet_geometry (w h : float) :
  (0 <=? w) = true -> (0 <=? h) = true ->
  (0 <=? planet_radius (getPlanetConfig w h)) = true /\
  (planet_x (getPlanetConfig w h) <=? 0) = true /\
  (0 <=? planet_y (getPlanetConfig w h)) = true.
Proof.
  intros Hw Hh. unfold getPlanetConfig. cbn [planet_radius planet_x planet_y].
  destruct (w <? 768); (split; [|split]).
  - apply mul_nonneg with (mc := 5404319552844595%positive) (ec := (-53)%Z);
      [reflexivity | assumption].
  - rewrite mul_opp_l. apply opp_nonneg.
    eapply mul_nonneg; [reflexivity | assumption].
  - eapply mul_nonneg; [reflexivity | assumption].
  - apply mul_nonneg with (mc := 7205759403792794%positive) (ec := (-53)%Z);
      [reflexivity | now apply Math_min_nonneg].
  - rewrite mul_opp_l. apply opp_nonneg.
    eapply mul_nonneg; [reflexivity | assumption].
  - eapply mul_nonneg; [reflexivity | assumption].
Qed.
End PlanetGeometry.

(** * Reconciliation after a removal *)

Section ReconcileRuns.
Local Open Scope float_scope.
Variable rand : nat -> float.

Lemma findNode_absent (ident : string) (l : list Node) :
  ~ In ident (map node_id l) -> findNode ident l = None.
Proof.
  intros H. destruct (findNode ident l) as [n|] eqn:Hf; [|reflexivity].
  apply findNode_Some in Hf as [Hin <-]. exfalso. apply H. now apply in_map.
Qed.

(** X14.  Removal forgets.  A node whose id is missing from one snapshot is
    dropped with its kinematics: when a later snapshot brings the id back,
    whatever frames ran in between, the node is spawned afresh, at rest and
    at a newly drawn position. *)
Theorem removed_node_respawns
        (width1 height1 width2 height2 : float)
        (current : Physics) (k1 k2 : nat) (without again : GraphData)
        (sizes : list (float * float)) (i : nat) (n : SnapshotNode) :
  ~ In (snap_id n) (map snap_id (gd_nodes without)) ->
  gd_nodes again !! i = Some n ->
  exists k', (k2 <= k')%nat /\
    nodes (fst (reconcile width2 height2 rand
                  (runFrames sizes
                     (fst (reconcile width1 height1 rand current k1 without)))
                  k2 again)) !! i
    = Some (mkNode (snap_id n) (snap_type n)
                   (rand k' * width2) (rand (S k') * height2 * 0.5) 0 0).
Proof.
  intros Hgone Hi.
  set (held := runFrames sizes
                 (fst (reconcile width1 height1 rand current k1 without))).
  assert (Hids : map node_id (nodes held) = map snap_id (gd_nodes without)).
  { unfold held.
    destruct (TickFacts.runFrames_keeps sizes
                (fst (reconcile width1 height1 rand current k1 without)))
      as (-> & _).
    apply reconcile_image. }
  assert (Hnone : findNode (snap_id n) (nodes held) = None)
    by (apply findNode_absent; now rewrite Hids).
  destruct (reconcileNodes_lookup width2 height2 rand (nodes held)
              (gd_nodes again) k2 i n Hi) as (k' & Hle & Hk').
  exists k'. split; [exact Hle|].
  unfold reconcile.
  destruct (reconcileNodes width2 height2 rand (nodes held) k2 (gd_nodes again))
    as [newNodes k3].
  cbn [fst nodes] in *. rewrite Hk'.
  now rewrite reconcileNode_fresh.
Qed.
End ReconcileRuns.

(** * The further properties at work *)

Module Runs.
Local Open Scope string_scope.
Local Open Scope float_scope.

Lemma NoDup_two (a b : string) : a <> b -> NoDup [a; b].
Proof.
  intros H. apply NoDup_cons. split; [|apply NoDup_singleton].
  intros Hin. apply list_elem_of_In in Hin. destruct Hin as [<- | []]. congruence.
Qed.

Lemma NoDup_three (a b c : string) :
  a <> b -> a <> c -> b <> c -> NoDup [a; b; c].
Proof.
  intros Hab Hac Hbc. apply NoDup_cons. split; [|now apply NoDup_two].
  intros Hin. apply list_elem_of_In in Hin.
  destruct Hin as [<- | [<- | []]]; congruence.
Qed.

Lemma reconcile_idempotent_witness :
  reconcile 1000 1000 (draws 0.621 0.2)
    (fst (reconcile 1000 1000 (draws 0.621 0.2)
            (mkPhysics [mkNode "a1" "agent" 500 100 1.5 (-2)] []) 0 snapshot2))
    2 snapshot2
  = (fst (reconcile 1000 1000 (draws 0.621 0.2)
            (mkPhysics [mkNode "a1" "agent" 500 100 1.5 (-2)] []) 0 snapshot2),
     2%nat).
Proof.
  apply (reconcile_idempotent 1000 1000 (draws 0.621 0.2)
           (mkPhysics [mkNode "a1" "agent" 500 100 1.5 (-2)] []) 0 2 snapshot2).
  apply NoDup_two. discriminate.
Defined.

Lemma reconcile_draws_witness :
  snd (reconcile 1000 1000 (draws 0.621 0.2) (mkPhysics [] []) 0 snapshot2)
  = 4%nat /\
  nodes (fst (reconcile 1000 1000 (draws 0.621 0.2) (mkPhysics [] []) 0
                snapshot2)) !! 1%nat
  = Some (mkNode "f1" "form" (draws 0.621 0.2 2 * 1000)
                 (draws 0.621 0.2 3 * 1000 * 0.5) 0 0).
Proof.
  destruct (reconcile_draws 1000 1000 (draws 0.621 0.2) (mkPhysics [] []) 0
              snapshot2) as [Hk Hn].
  split; [exact Hk|].
  exact (Hn 1%nat (mkSnapshotNode "f1" "form") eq_refl).
Defined.

Lemma nan_spreads_witness :
  nodes (integrate 1000 1000
           (mkPhysics [mkNode "a1" "agent" 500 100 0 0;
                       mkNode "f1" "form" nan 300 0.25 (-3)] []))
  = [mkNode "a1" "agent" nan nan nan nan; mkNode "f1" "form" nan nan nan nan] /\
  links (integrate 1000 1000
           (mkPhysics [mkNode "a1" "agent" 500 100 0 0;
                       mkNode "f1" "form" nan 300 0.25 (-3)] []))
  = [].
Proof.
  apply (NotANumber.nan_spreads 1000 1000
           (mkPhysics [mkNode "a1" "agent" 500 100 0 0;
                       mkNode "f1" "form" nan 300 0.25 (-3)] [])
           1%nat (mkNode "f1" "form" nan 300 0.25 (-3))).
  - reflexivity.
  - left. reflexivity.
  - simpl. lia.
Defined.

Lemma nan_stays_witness :
  nodes (runFrames [(1000, 1000); (800, 600)]
           (mkPhysics [mkNode "a1" "agent" 500 100 nan nan] []))
  = [mkNode "a1" "agent" nan nan nan nan].
Proof.
  apply (NotANumber.nan_stays [(1000, 1000); (800, 600)]
           (mkPhysics [mkNode "a1" "agent" 500 100 nan nan] [])).
  - discriminate.
  - repeat constructor.
Defined.

Lemma every_link_drawn_witness :
  strokedEdges
    (nodes (shown 1000 1000 (draws 0.621 0.2)
              [mkAgent "a1"] [mkForm "f1" "a1"] [mkOutput "o1" "f1"]
              (mkPhysics [] []) 0 [(1000, 1000)]))
    (links (shown 1000 1000 (draws 0.621 0.2)
              [mkAgent "a1"] [mkForm "f1" "a1"] [mkOutput "o1" "f1"]
              (mkPhysics [] []) 0 [(1000, 1000)]))
  = 2%nat.
Proof.
  apply (Adapter.every_link_drawn 1000 1000 (draws 0.621 0.2)
           [mkAgent "a1"] [mkForm "f1" "a1"] [mkOutput "o1" "f1"]
           (mkPhysics [] []) 0 [(1000, 1000)]).
  - intros f [<- | []]. left. reflexivity.
  - intros o [<- | []]. left. reflexivity.
Defined.

Lemma edge_styles_witness :
  exists s t,
    drawEdge
      (nodes (shown 1000 1000 (draws 0.621 0.2)
                [mkAgent "a1"] [mkForm "f1" "a1"] [mkOutput "o1" "f1"]
                (mkPhysics [] []) 0 [(1000, 1000)]))
      (mkLink "f1" "o1")
    = [ BeginPath; MoveTo (node_x s) (node_y s); LineTo (node_x t) (node_y t);
        SetStrokeStyle "rgba(192, 192, 192, 0.3)"; SetLineDash [2; 4];
        Stroke ].
Proof.
  eexists. eexists.
  apply (proj1 (Adapter.edge_styles 1000 1000 (draws 0.621 0.2)
                  [mkAgent "a1"] [mkForm "f1" "a1"] [mkOutput "o1" "f1"]
                  (mkPhysics [] []) 0 [(1000, 1000)]
                  ltac:(apply NoDup_three; discriminate))
               (mkOutput "o1" "f1")).
  - left. reflexivity.
  - vm_compute. reflexivity.
  - vm_compute. reflexivity.
Defined.

Lemma planet_geometry_witness :
  (0 <=? planet_radius (getPlanetConfig 1000 800)) = true /\
  (planet_x (getPlanetConfig 1000 800) <=? 0) = true /\
  (0 <=? planet_y (getPlanetConfig 1000 800)) = true.
Proof.
  apply (PlanetGeometry.planet_geometry 1000 800); reflexivity.
Defined.

Lemma removed_node_respawns_witness :
  exists k', (0 <= k')%nat /\
    nodes (fst (reconcile 1000 1000 (draws 0.621 0.2)
                  (runFrames [(1000, 1000)]
                     (fst (reconcile 1000 1000 (draws 0.621 0.2)
                             (mkPhysics [mkNode "a1" "agent" 500 100 1.5 (-2);
                                         mkNode "f1" "form" 300 200 1 1] [])
                             0 (mkGraphData [mkSnapshotNode "a1" "agent"] []))))
                  0 snapshot2)) !! 1%nat
    = Some (mkNode "f1" "form"
                   (draws 0.621 0.2 k' * 1000)
                   (draws 0.621 0.2 (S k') * 1000 * 0.5) 0 0).
Proof.
  apply (removed_node_respawns (draws 0.621 0.2) 1000 1000 1000 1000
           (mkPhysics [mkNode "a1" "agent" 500 100 1.5 (-2);
                       mkNode "f1" "form" 300 200 1 1] [])
           0 0 (mkGraphData [mkSnapshotNode "a1" "agent"] []) snapshot2
           [(1000, 1000)] 1%nat (mkSnapshotNode "f1" "form")).
  - simpl. intros [H | []]. discriminate.
  - reflexivity.
Defined.
End Runs.

(** * Rounding a truncated mantissa, whatever was cut off *)

Module RoundingAny.
Import Binary64 Rounding.
Local Open Scope Z_scope.

Lemma shr_m_of_loc (m : Z) (l : location) : shr_m (shr_record_of_loc m l) = m.
Proof. destruct l as [|[| |]]; reflexivity. Qed.

Lemma loc_of_shr_record_of_loc (m : Z) (l : location) :
  loc_of_shr_record (shr_record_of_loc m l) = l.
Proof. destruct l as [|[| |]]; reflexivity. Qed.

Lemma shr_fexp_any (m e : Z) (l : location) :
  0 <= m ->
  exists mrs,
    shr_fexp prec emax m e l = (mrs, e + shift m e) /\
    shr_m mrs = m / 2 ^ shift m e /\
    (shift m e = 0 -> mrs = shr_record_of_loc m l).
Proof.
  intros Hm. unfold shr_fexp, shr, shift.
  destruct (fexp prec emax (Zdigits2 m + e) - e) as [|n|n] eqn:Hn.
  - exists (shr_record_of_loc m l). simpl.
    rewrite Z.add_0_r, Z.div_1_r, shr_m_of_loc. auto.
  - exists (SpecFloat.iter_pos shr_1 n (shr_record_of_loc m l)).
    rewrite Z.max_r by lia. split; [reflexivity|].
    rewrite iter_pos_nat. split; [|lia].
    rewrite shr_nat_m by (rewrite shr_m_of_loc; assumption).
    now rewrite shr_m_of_loc, positive_nat_Z.
  - exists (shr_record_of_loc m l). simpl.
    rewrite Z.add_0_r, Z.div_1_r, shr_m_of_loc. auto.
Qed.

Lemma round_nearest_even_loc (m : Z) (l : location) :
  m <= round_nearest_even m l <= m + 1 /\
  (l = loc_Exact -> round_nearest_even m l = m).
Proof.
  destruct l as [|[| |]]; simpl; try (split; [lia | auto; discriminate]).
  destruct (Z.even m); split; try lia; discriminate.
Qed.

(** Rounding any truncated mantissa: shift, move to a neighbour, align. *)
Lemma binary_round_aux_any (s : bool) (m e : Z) (l : location) :
  0 <= m ->
  exists m1,
    m / 2 ^ shift m e <= m1 <= m / 2 ^ shift m e + 1 /\
    (l = loc_Exact -> shift m e = 0 -> m1 = m) /\
    binary_round_aux prec emax s m e l = rounded s m1 (e + shift m e).
Proof.
  intros Hm.
  destruct (shr_fexp_any m e l Hm) as (mrs & Hshr & Hq & H0).
  pose proof (round_nearest_even_bounds mrs) as Hrne.
  set (m1 := round_nearest_even (shr_m mrs) (loc_of_shr_record mrs)) in *.
  exists m1. rewrite <- Hq. split; [|split].
  - destruct (shr_r mrs); lia.
  - intros Hl Hs. specialize (H0 Hs). subst m1. rewrite H0, Hl. reflexivity.
  - unfold binary_round_aux. rewrite Hshr. fold m1.
    assert (H1 : 0 <= m1).
    { assert (0 <= shr_m mrs); [|lia]. rewrite Hq.
      pose proof (shift_nonneg m e). apply Z.div_pos; lia. }
    destruct (shr_fexp_exact m1 (e + shift m e) H1)
      as (mrs2 & Hshr2 & Hq2 & _).
    rewrite Hshr2. unfold rounded. rewrite Hq2. reflexivity.
Qed.

Lemma Zdigits2_bounds (m : Z) :
  0 < m -> 2 ^ (Zdigits2 m - 1) <= m < 2 ^ Zdigits2 m.
Proof.
  destruct m as [|p|p]; try lia. intros _. apply digits2_bounds.
Qed.

(** A mantissa that is shifted lands on the exponent [fexp] asks for; unless
    that is the least exponent, the quotient has all 53 digits. *)
Lemma shift_pos_cases (m e : Z) :
  0 <= m -> 0 < shift m e ->
  -1074 <= e + shift m e /\
  (e + shift m e = -1074 \/
   (0 < m /\ shift m e = Zdigits2 m - 53 /\
    2 ^ 52 <= m / 2 ^ shift m e < 2 ^ 53)).
Proof.
  intros Hm Hs. unfold shift, fexp, emin, prec, emax in *.
  set (d := Zdigits2 m) in *.
  assert (Hsh : Z.max 0 (Z.max (d + e - 53) (3 - 1024 - 53) - e)
                = Z.max (d + e - 53) (-1074) - e) by lia.
  rewrite Hsh in *. split; [lia|].
  destruct (Z.max_spec (d + e - 53) (-1074)) as [[_ ->] | [Hge ->]]; [left; lia|].
  destruct (Z.eq_dec (d + e - 53) (-1074)) as [Heq | Hne]; [left; lia|].
  right.
  assert (H0 : 0 < m).
  { destruct (Z.eq_dec m 0) as [-> | ]; [|lia]. subst d. simpl in *. lia. }
  split; [exact H0|]. split; [lia|].
  replace (d + e - 53 - e) with (d - 53) by lia.
  pose proof (Zdigits2_bounds m H0) as [Hlo Hhi]. fold d in Hlo, Hhi.
  assert (Hd : 53 < d) by lia.
  assert (Hp : 0 < 2 ^ (d - 53)) by (apply Z.pow_pos_nonneg; lia).
  assert (E1 : 2 ^ (d - 1) = 2 ^ 52 * 2 ^ (d - 53))
    by (rewrite <- Z.pow_add_r by lia; f_equal; lia).
  assert (E2 : 2 ^ d = 2 ^ 53 * 2 ^ (d - 53))
    by (rewrite <- Z.pow_add_r by lia; f_equal; lia).
  rewrite E1 in Hlo. rewrite E2 in Hhi.
  split.
  - apply Z.div_le_lower_bound; lia.
  - apply Z.div_lt_upper_bound; lia.
Qed.
End RoundingAny.

(** * Binary64 numbers as real numbers

    The value [F2R m e] of a mantissa on an exponent, and what one rounding
    does to it. *)

Module RealRounding.
Import Reals Lra Psatz.
Import Binary64 Rounding RoundingAny RealValue.
Local Open Scope R_scope.

Lemma pow2_gt_0 (e : Z) : 0 < powerRZ 2 e.
Proof. apply powerRZ_lt. lra. Qed.

Lemma pow2_add (a b : Z) : powerRZ 2 (a + b) = powerRZ 2 a * powerRZ 2 b.
Proof. apply powerRZ_add. lra. Qed.

Lemma pow2_ge_1 (k : Z) : (0 <= k)%Z -> 1 <= powerRZ 2 k.
Proof.
  intros Hk. rewrite <- (Z2Nat.id k Hk), <- pow_powerRZ.
  apply pow_R1_Rle. lra.
Qed.

Lemma pow2_le (a b : Z) : (a <= b)%Z -> powerRZ 2 a <= powerRZ 2 b.
Proof.
  intros H. replace b with (a + (b - a))%Z by lia. rewrite pow2_add.
  pose proof (pow2_ge_1 (b - a) ltac:(lia)). pose proof (pow2_gt_0 a). nra.
Qed.

Lemma pow2_IZR (k : Z) : (0 <= k)%Z -> IZR (2 ^ k) = powerRZ 2 k.
Proof.
  intros Hk. rewrite <- (Z2Nat.id k Hk) at 1.
  rewrite <- pow_IZR. rewrite pow_powerRZ. now rewrite Z2Nat.id.
Qed.

Lemma F2R_0 (e : Z) : F2R 0 e = 0.
Proof. unfold F2R. lra. Qed.

Lemma F2R_nonneg (m e : Z) : (0 <= m)%Z -> 0 <= F2R m e.
Proof.
  intros H. unfold F2R. apply Rmult_le_pos; [now apply IZR_le|].
  apply Rlt_le, pow2_gt_0.
Qed.

Lemma F2R_le (m n e : Z) : (m <= n)%Z -> F2R m e <= F2R n e.
Proof.
  intros H. unfold F2R. apply Rmult_le_compat_r; [|now apply IZR_le].
  apply Rlt_le, pow2_gt_0.
Qed.

Lemma F2R_lt (m n e : Z) : (m < n)%Z -> F2R m e < F2R n e.
Proof.
  intros H. unfold F2R. apply Rmult_lt_compat_r; [apply pow2_gt_0|now apply IZR_lt].
Qed.

Lemma F2R_shift (m e k : Z) :
  (0 <= k)%Z -> F2R (m * 2 ^ k) e = F2R m (e + k).
Proof.
  intros Hk. unfold F2R. rewrite mult_IZR, pow2_IZR by assumption.
  rewrite pow2_add. ring.
Qed.

Lemma F2R_succ (m e : Z) : F2R (m + 1) e = F2R m e + powerRZ 2 e.
Proof. unfold F2R. rewrite plus_IZR. ring. Qed.

(** Shifting right truncates. *)
Lemma F2R_div (m e k : Z) :
  (0 <= m)%Z -> (0 <= k)%Z ->
  F2R (m / 2 ^ k) (e + k) <= F2R m e /\
  F2R (m + 1) e <= F2R (m / 2 ^ k + 1) (e + k).
Proof.
  intros Hm Hk.
  assert (Hp : (0 < 2 ^ k)%Z) by (apply Z.pow_pos_nonneg; lia).
  rewrite <- !F2R_shift by assumption.
  pose proof (Z.mul_div_le m (2 ^ k) Hp).
  pose proof (Z.mul_succ_div_gt m (2 ^ k) Hp).
  split; apply F2R_le; lia.
Qed.

(** A quotient with all its digits makes the grid step relatively small. *)
Lemma ulp_normal (q e : Z) :
  (2 ^ 52 <= q)%Z -> powerRZ 2 e <= powerRZ 2 (-52) * F2R q e.
Proof.
  intros Hq. unfold F2R.
  assert (H52 : powerRZ 2 52 <= IZR q).
  { rewrite <- pow2_IZR by lia. now apply IZR_le. }
  pose proof (pow2_gt_0 e).
  assert (H1 : powerRZ 2 (-52) * powerRZ 2 52 = 1).
  { rewrite <- pow2_add. reflexivity. }
  pose proof (pow2_gt_0 (-52)) as Hm52.
  assert (H2 : 1 <= powerRZ 2 (-52) * IZR q).
  { rewrite <- H1. apply Rmult_le_compat_l; [lra | exact H52]. }
  replace (powerRZ 2 (-52) * (IZR q * powerRZ 2 e))
    with ((powerRZ 2 (-52) * IZR q) * powerRZ 2 e) by ring.
  rewrite <- (Rmult_1_l (powerRZ 2 e)) at 1.
  apply Rmult_le_compat_r; lra.
Qed.

(** The second alignment loses at most the fraction [2^-52]. *)
Lemma rounded_value (s : bool) (m1 e1 : Z) :
  (0 <= m1)%Z -> (-1074 <= e1)%Z ->
  exists v,
    F2R m1 e1 * (1 - powerRZ 2 (-52)) <= v <= F2R m1 e1 /\
    ((rounded s m1 e1 = S754_zero s /\ v = 0) \/
     (exists p e', rounded s m1 e1 = S754_finite s p e' /\ v = F2R (Zpos p) e') \/
     (rounded s m1 e1 = S754_infinity s /\
      (971 < e1 + shift m1 e1)%Z /\
      (1 <= m1 / 2 ^ shift m1 e1)%Z /\
      (shift m1 e1 = 0%Z \/ (2 ^ 52 <= m1 / 2 ^ shift m1 e1)%Z) /\
      v = F2R (m1 / 2 ^ shift m1 e1) (e1 + shift m1 e1))).
Proof.
  intros Hm He.
  pose proof (shift_nonneg m1 e1) as Hs0.
  exists (F2R (m1 / 2 ^ shift m1 e1) (e1 + shift m1 e1)).
  assert (Hq0 : (0 <= m1 / 2 ^ shift m1 e1)%Z).
  { apply Z.div_pos; [assumption|]. apply Z.pow_pos_nonneg; lia. }
  assert (Hcase : shift m1 e1 = 0%Z \/ (2 ^ 52 <= m1 / 2 ^ shift m1 e1)%Z).
  { destruct (Z.eq_dec (shift m1 e1) 0) as [|Hne]; [now left|]. right.
    destruct (shift_pos_cases m1 e1 Hm ltac:(lia)) as [_ [Hmin | (_ & _ & H)]];
      lia. }
  split.
  - destruct (F2R_div m1 e1 (shift m1 e1) Hm Hs0) as [Hle Hge].
    split; [|exact Hle].
    destruct Hcase as [H0 | H52].
    + rewrite H0, Z.div_1_r, Z.add_0_r.
      pose proof (F2R_nonneg m1 e1 Hm). pose proof (pow2_gt_0 (-52)). nra.
    + pose proof (ulp_normal _ (e1 + shift m1 e1) H52) as Hu.
      rewrite !F2R_succ in Hge.
      pose proof (pow2_gt_0 e1). pose proof (pow2_gt_0 (-52)).
      pose proof (F2R_nonneg m1 e1 Hm).
      set (v := F2R (m1 / 2 ^ shift m1 e1) (e1 + shift m1 e1)) in *.
      set (u := powerRZ 2 (e1 + shift m1 e1)) in *.
      nra.
  - unfold rounded.
    destruct (m1 / 2 ^ shift m1 e1)%Z as [|p|p] eqn:Hq; [| |lia].
    + left. split; [reflexivity | apply F2R_0].
    + right. destruct (e1 + shift m1 e1 <=? emax - prec)%Z eqn:Hle.
      * left. now exists p, (e1 + shift m1 e1)%Z.
      * right. apply Z.leb_gt in Hle. unfold emax, prec in Hle.
        repeat split; try reflexivity; try lia; exact Hcase.
Qed.
End RealRounding.

(** ** The error of one rounding *)

Module RoundingError.
Import Reals Lra Psatz.
Import Binary64 Rounding RoundingAny RealValue RealRounding.
Local Open Scope R_scope.

Lemma fexp_eq (x : Z) : fexp prec emax x = Z.max (x - 53) (-1074).
Proof. reflexivity. Qed.

Lemma eps_eq : eps = 4 * powerRZ 2 (-52).
Proof.
  unfold eps. replace (-50)%Z with (2 + -52)%Z by lia. rewrite pow2_add.
  simpl. lra.
Qed.

Lemma eta_eq : eta = 2 * powerRZ 2 (-1074).
Proof.
  unfold eta. replace (-1073)%Z with (1 + -1074)%Z by lia. rewrite pow2_add.
  simpl. lra.
Qed.

Lemma pow2_m52_le : powerRZ 2 (-52) <= 1.
Proof.
  pose proof (pow2_le (-52) 0 ltac:(lia)) as H. simpl in H. exact H.
Qed.

Lemma pow2_1024 : 16 * powerRZ 2 1000 <= powerRZ 2 1024.
Proof.
  replace 1024%Z with (4 + 1020)%Z by lia. rewrite pow2_add.
  pose proof (pow2_le 1000 1020 ltac:(lia)). pose proof (pow2_gt_0 1000).
  assert (powerRZ 2 4 = 16) by (simpl; lra). nra.
Qed.

(** A mantissa with all its digits on an exponent above 971 is out of
    range. *)
Lemma F2R_huge (q e : Z) :
  (2 ^ 52 <= q)%Z -> (971 < e)%Z -> powerRZ 2 1024 <= F2R q e.
Proof.
  intros Hq He. unfold F2R.
  assert (H52 : powerRZ 2 52 <= IZR q).
  { rewrite <- pow2_IZR by lia. now apply IZR_le. }
  pose proof (pow2_le 972 e ltac:(lia)) as H972.
  replace 1024%Z with (52 + 972)%Z by lia. rewrite pow2_add.
  pose proof (pow2_gt_0 52). pose proof (pow2_gt_0 972).
  apply Rmult_le_compat; lra.
Qed.

Lemma digits53 (m : Z) :
  (0 <= m)%Z -> Zdigits2 m = 53%Z -> (2 ^ 52 <= m)%Z.
Proof.
  intros Hm Hd.
  assert (H0 : (0 < m)%Z).
  { destruct (Z.eq_dec m 0) as [-> |]; [discriminate | lia]. }
  pose proof (Zdigits2_bounds m H0) as [Hlo _]. rewrite Hd in Hlo. exact Hlo.
Qed.

(** Rounding, on the real line: the result is within the relative error
    [eps] and the absolute error [eta] of any number between the truncated
    mantissa and its successor; it overflows only beyond [2^1000]. *)
(** The arithmetic of the two roundings, on abstract numbers. *)
Lemma two_step_error (t h y M v : R) :
  0 < t <= 1 -> 0 < h -> 0 <= y -> 0 <= M ->
  - (t * y + h) <= M - y <= t * y + h ->
  M * (1 - t) <= v <= M ->
  - (4 * t * y + 2 * h) <= v - y <= 4 * t * y + 2 * h.
Proof.
  intros Ht Hh Hy HM HMy Hv.
  assert (P1 : 0 <= t * y) by (apply Rmult_le_pos; lra).
  assert (P2 : t * M <= t * (y + t * y + h)) by (apply Rmult_le_compat_l; lra).
  assert (P3 : t * (t * y) <= 1 * (t * y)) by (apply Rmult_le_compat_r; lra).
  assert (P4 : t * h <= 1 * h) by (apply Rmult_le_compat_r; lra).
  split; lra.
Qed.

Lemma overflow_far (t h y v B C : R) :
  0 < t <= 1 -> 0 < h <= 1 -> 0 <= y -> 1 <= B -> 16 * B <= C ->
  C <= v -> - (4 * t * y + 2 * h) <= v - y <= 4 * t * y + 2 * h -> B < y.
Proof.
  intros Ht Hh Hy HB HC Hv He.
  assert (P1 : t * y <= 1 * y) by (apply Rmult_le_compat_r; lra).
  lra.
Qed.

Lemma step_small (t h u X y : R) :
  0 < t -> 0 < h -> u <= t * X -> X <= y -> u <= t * y + h.
Proof.
  intros Ht Hh Hu HX.
  assert (t * X <= t * y) by (apply Rmult_le_compat_l; lra). lra.
Qed.

Lemma step_least (t h y : R) : 0 < t -> 0 <= y -> h <= t * y + h.
Proof. intros Ht Hy. assert (0 <= t * y) by (apply Rmult_le_pos; lra). lra. Qed.

Lemma round_core (s : bool) (m e : Z) (l : location) (y : R) :
  (0 <= m)%Z ->
  ((e <= fexp prec emax (Zdigits2 m + e))%Z \/ (l = loc_Exact /\ (e <= 971)%Z)) ->
  F2R m e <= y <= F2R (m + 1) e ->
  (l = loc_Exact -> y = F2R m e) ->
  exists v,
    - (eps * y + eta) <= v - y <= eps * y + eta /\
    ((binary_round_aux prec emax s m e l = S754_zero s /\ v = 0) \/
     (exists p e',
         binary_round_aux prec emax s m e l = S754_finite s p e' /\
         v = F2R (Zpos p) e') \/
     (binary_round_aux prec emax s m e l = S754_infinity s /\
      powerRZ 2 1000 < y)).
Proof.
  intros Hm Hpre [Hylo Hyhi] Hexact.
  destruct (binary_round_aux_any s m e l Hm) as (m1 & [Hm1lo Hm1hi] & Hm1x & ->).
  pose proof (shift_nonneg m e) as Hs0.
  remember (shift m e) as sh1 eqn:Esh1.
  remember (e + sh1)%Z as e1 eqn:Ee1.
  remember (m / 2 ^ sh1)%Z as q eqn:Eq.
  assert (Hq0 : (0 <= q)%Z).
  { rewrite Eq. apply Z.div_pos; [assumption|]. apply Z.pow_pos_nonneg; lia. }
  destruct (F2R_div m e sh1 Hm Hs0) as [HA HB]. rewrite <- Eq, <- Ee1 in HA, HB.
  rewrite (F2R_succ q) in HB.
  pose proof (F2R_le _ _ e1 Hm1lo) as HM1lo.
  pose proof (F2R_le _ _ e1 Hm1hi) as HM1hi. rewrite F2R_succ in HM1hi.
  pose proof (F2R_nonneg m e Hm) as HX0.
  pose proof (F2R_nonneg q e1 Hq0) as HA0.
  pose proof (pow2_gt_0 (-52)) as Ht0. pose proof pow2_m52_le as Ht1.
  pose proof (pow2_gt_0 (-1074)) as Hh0.
  assert (Hy0 : 0 <= y) by (clear - Hylo HX0; lra).
  assert (Hqy : F2R q e1 <= y) by (clear - HA Hylo; lra).
  assert (Hsh0 : sh1 = 0%Z -> (fexp prec emax (Zdigits2 m + e) <= e)%Z).
  { rewrite Esh1. unfold shift. lia. }
  (* the grid step, unless nothing was lost *)
  assert (Hstep : (l = loc_Exact /\ sh1 = 0%Z) \/
                  powerRZ 2 e1 <= powerRZ 2 (-52) * y + powerRZ 2 (-1074)).
  { destruct (Z.eq_dec sh1 0) as [H0 | Hne].
    - destruct Hpre as [HP | [Hl _]]; [|now left]. right.
      specialize (Hsh0 H0). rewrite fexp_eq in *.
      assert (He1 : e1 = e) by lia.
      destruct (Z.eq_dec e (-1074)) as [Hn | Hn].
      + rewrite He1, Hn. now apply step_least.
      + assert (Hd : Zdigits2 m = 53%Z) by lia.
        pose proof (digits53 m Hm Hd) as H52.
        pose proof (ulp_normal m e H52) as Hu. rewrite He1.
        now apply step_small with (F2R m e).
    - right.
      destruct (shift_pos_cases m e Hm ltac:(lia)) as [_ [Hmin | (_ & _ & [H52 _])]].
      + rewrite <- Esh1, <- Ee1 in Hmin. rewrite Hmin. now apply step_least.
      + rewrite <- Esh1, <- Eq in H52. pose proof (ulp_normal q e1 H52) as Hu.
        now apply step_small with (F2R q e1). }
  assert (He1 : (-1074 <= e1)%Z).
  { destruct (Z.eq_dec sh1 0) as [H0 | Hne].
    - specialize (Hsh0 H0). rewrite fexp_eq in Hsh0. lia.
    - destruct (shift_pos_cases m e Hm ltac:(lia)) as [H _]. lia. }
  assert (Hm10 : (0 <= m1)%Z) by lia.
  assert (HM : - (powerRZ 2 (-52) * y + powerRZ 2 (-1074))
               <= F2R m1 e1 - y
               <= powerRZ 2 (-52) * y + powerRZ 2 (-1074)).
  { destruct Hstep as [[Hl H0] | Hu].
    - rewrite (Hm1x Hl H0). pose proof (Hexact Hl) as Hyx.
      replace e1 with e by lia.
      pose proof (step_least _ (powerRZ 2 (-1074)) _ Ht0 Hy0) as Hsl.
      clear - Hsl Hh0 Hyx. lra.
    - clear - Hu HM1lo HM1hi Hqy Hyhi HB. lra. }
  destruct (rounded_value s m1 e1 Hm10 He1) as (v & Hvb & Hres).
  pose proof (F2R_nonneg m1 e1 Hm10) as HM10.
  assert (Hv : - (eps * y + eta) <= v - y <= eps * y + eta).
  { rewrite eps_eq, eta_eq.
    apply two_step_error with (F2R m1 e1); auto. }
  exists v. split; [exact Hv|].
  destruct Hres as [Hz | [Hf | (Hinf & He2 & Hq2 & Hc & Hveq)]];
    [now left | right; now left |].
  right. right. split; [exact Hinf|].
  pose proof pow2_1024 as H1024. pose proof (pow2_ge_1 1000 ltac:(lia)) as HB1.
  destruct Hc as [Hs2 | H52].
  - rewrite Hs2, Z.add_0_r in He2.
    destruct (Z.eq_dec sh1 0) as [H0 | Hne].
    + assert (Hee : e1 = e) by lia.
      destruct Hpre as [HP | [_ Hle]]; [|lia].
      specialize (Hsh0 H0). rewrite fexp_eq in *.
      assert (Hd : Zdigits2 m = 53%Z) by lia.
      pose proof (digits53 m Hm Hd) as Hm52.
      pose proof (F2R_huge m e Hm52 ltac:(lia)) as Hh.
      clear - Hh Hylo H1024 HB1. lra.
    + destruct (shift_pos_cases m e Hm ltac:(lia)) as [_ [Hmin | (_ & _ & [Hq52 _])]].
      * lia.
      * rewrite <- Esh1, <- Eq in Hq52. pose proof (F2R_huge q e1 Hq52 He2) as Hh.
        clear - Hh Hqy H1024 HB1. lra.
  - pose proof (F2R_huge _ _ H52 He2) as Hh. rewrite <- Hveq in Hh.
    rewrite eps_eq, eta_eq in Hv.
    pose proof (pow2_le (-1074) 0 ltac:(lia)) as Hh1. simpl in Hh1.
    apply overflow_far
      with (t := powerRZ 2 (-52)) (h := powerRZ 2 (-1074)) (v := v)
           (C := powerRZ 2 1024); auto; try lra.
Qed.
End RoundingError.

(** ** Comparisons *)

Module RealOrder.
Import Reals Lra Psatz.
Import Binary64 Rounding Binary64Order RoundingAny RealValue RealRounding RoundingError.
Local Open Scope R_scope.

Lemma F2R_pos (m : positive) (e : Z) : 0 < F2R (Zpos m) e.
Proof.
  unfold F2R. apply Rmult_lt_0_compat; [|apply pow2_gt_0].
  now apply IZR_lt.
Qed.

(** Valid floats on different exponents are ordered by their exponents. *)
Lemma F2R_exponent_lt (m1 m2 : positive) (e1 e2 : Z) :
  SpecFloat.valid_binary prec emax (S754_finite false m1 e1) = true ->
  SpecFloat.valid_binary prec emax (S754_finite false m2 e2) = true ->
  (e1 < e2)%Z -> F2R (Zpos m1) e1 < F2R (Zpos m2) e2.
Proof.
  intros H1 H2 He.
  apply valid_finite in H1 as (He1 & Hm1 & _).
  apply valid_finite in H2 as (He2 & _ & Hm2). specialize (Hm2 ltac:(lia)).
  assert (A : F2R (Zpos m1) e1 < F2R (2 ^ 53) e1) by now apply F2R_lt.
  assert (B : F2R (2 ^ 52) e2 <= F2R (Zpos m2) e2) by now apply F2R_le.
  assert (C : F2R (2 ^ 53) e1 <= F2R (2 ^ 52) e2).
  { unfold F2R. rewrite !pow2_IZR by lia. rewrite <- !pow2_add.
    apply pow2_le. lia. }
  lra.
Qed.

Lemma SFcompare_R (x y : spec_float) :
  SpecFloat.valid_binary prec emax x = true ->
  SpecFloat.valid_binary prec emax y = true ->
  SFfinite x = true -> SFfinite y = true ->
  match SFcompare x y with
  | Some Lt => SF2R x < SF2R y
  | Some Eq => SF2R x = SF2R y
  | Some Gt => SF2R y < SF2R x
  | None => False
  end.
Proof.
  intros Hx Hy Fx Fy.
  destruct x as [sx|sx| |sx mx ex], y as [sy|sy| |sy my ey];
    try discriminate; simpl SF2R.
  - simpl. reflexivity.
  - simpl. pose proof (F2R_pos my ey). destruct sy; lra.
  - simpl. pose proof (F2R_pos mx ex). destruct sx; lra.
  - pose proof (F2R_pos mx ex) as Px. pose proof (F2R_pos my ey) as Py.
    assert (Hpos : forall m1 e1 m2 e2,
               SpecFloat.valid_binary prec emax (S754_finite false m1 e1) = true ->
               SpecFloat.valid_binary prec emax (S754_finite false m2 e2) = true ->
               match (e1 ?= e2)%Z with
               | Lt => F2R (Zpos m1) e1 < F2R (Zpos m2) e2
               | Gt => F2R (Zpos m2) e2 < F2R (Zpos m1) e1
               | Eq => match (m1 ?= m2)%positive with
                       | Lt => F2R (Zpos m1) e1 < F2R (Zpos m2) e2
                       | Gt => F2R (Zpos m2) e2 < F2R (Zpos m1) e1
                       | Eq => F2R (Zpos m1) e1 = F2R (Zpos m2) e2
                       end
               end).
    { intros m1 e1 m2 e2 H1 H2.
      destruct (Z.compare_spec e1 e2) as [-> | Hlt | Hgt].
      - destruct (Pos.compare_spec m1 m2) as [-> | Hm | Hm];
          [reflexivity | apply F2R_lt; lia | apply F2R_lt; lia].
      - now apply F2R_exponent_lt.
      - now apply F2R_exponent_lt. }
    destruct sx, sy.
    + specialize (Hpos mx ex my ey Hx Hy). simpl.
      rewrite compare_cont_spec.
      destruct (ex ?= ey)%Z; [destruct (mx ?= my)%positive|..]; simpl; lra.
    + simpl. lra.
    + simpl. lra.
    + specialize (Hpos mx ex my ey Hx Hy). rewrite SFcompare_pos.
      destruct (ex ?= ey)%Z; [destruct (mx ?= my)%positive|..]; lra.
Qed.

Lemma finite_SF (a : float) :
  is_finite a = true -> SFfinite (Prim2SF a) = true.
Proof. now rewrite is_finite_spec. Qed.

Lemma ltb_R (a b : float) :
  is_finite a = true -> is_finite b = true ->
  ((a <? b)%float = true <-> toR a < toR b).
Proof.
  intros Ha Hb. rewrite FloatAxioms.ltb_spec. unfold SFltb, toR.
  pose proof (SFcompare_R _ _ (Prim2SF_valid a) (Prim2SF_valid b)
                (finite_SF a Ha) (finite_SF b Hb)) as H.
  destruct (SFcompare (Prim2SF a) (Prim2SF b)) as [[| |]|];
    split; intros; try discriminate; try lra; try reflexivity; contradiction.
Qed.

Lemma leb_R (a b : float) :
  is_finite a = true -> is_finite b = true ->
  ((a <=? b)%float = true <-> toR a <= toR b).
Proof.
  intros Ha Hb. rewrite FloatAxioms.leb_spec. unfold SFleb, toR.
  pose proof (SFcompare_R _ _ (Prim2SF_valid a) (Prim2SF_valid b)
                (finite_SF a Ha) (finite_SF b Hb)) as H.
  destruct (SFcompare (Prim2SF a) (Prim2SF b)) as [[| |]|];
    split; intros; try discriminate; try lra; try reflexivity; contradiction.
Qed.

(** A comparison that holds rules out [NaN]; against a finite bound it
    rules out the infinity on the other side. *)
Lemma ltb_finite (lo a hi : float) :
  is_finite lo = true -> is_finite hi = true ->
  (lo <? a)%float = true -> (a <? hi)%float = true -> is_finite a = true.
Proof.
  intros Hlo Hhi. rewrite !FloatAxioms.ltb_spec, !is_finite_spec in *.
  unfold SFltb.
  destruct (Prim2SF lo) as [?|?| |? ? ?], (Prim2SF a) as [?|[|]| |? ? ?],
           (Prim2SF hi) as [?|?| |? ? ?]; simpl; try discriminate; auto;
    repeat match goal with |- context [if ?b then _ else _] => destruct b end;
    auto; discriminate.
Qed.

Lemma leb_finite (lo a hi : float) :
  is_finite lo = true -> is_finite hi = true ->
  (lo <=? a)%float = true -> (a <=? hi)%float = true -> is_finite a = true.
Proof.
  intros Hlo Hhi. rewrite !FloatAxioms.leb_spec, !is_finite_spec in *.
  unfold SFleb.
  destruct (Prim2SF lo) as [?|?| |? ? ?], (Prim2SF a) as [?|[|]| |? ? ?],
           (Prim2SF hi) as [?|?| |? ? ?]; simpl; try discriminate; auto;
    repeat match goal with |- context [if ?b then _ else _] => destruct b end;
    auto; discriminate.
Qed.
End RealOrder.

(** ** Products, sums and differences *)

Module RealOps.
Import Reals Lra Psatz.
Import Binary64 Rounding Binary64Order RoundingAny RealValue RealRounding
       RoundingError RealOrder RealNotions.
Local Open Scope R_scope.

Lemma eps_pos : 0 < eps.
Proof. apply pow2_gt_0. Qed.

Lemma eta_pos : 0 < eta.
Proof. apply pow2_gt_0. Qed.

Lemma SFrounds_exact (r : spec_float) :
  SFfinite r = true -> SFrounds r (SF2R r).
Proof.
  intros H. left. split; [exact H|]. split; [|split; auto].
  replace (SF2R r - SF2R r) with 0 by ring. rewrite Rabs_R0.
  pose proof eps_pos. pose proof eta_pos. pose proof (Rabs_pos (SF2R r)).
  assert (0 <= eps * Rabs (SF2R r)) by (apply Rmult_le_pos; lra). lra.
Qed.

Lemma SFrounds_ext (r : spec_float) (x y : R) :
  x = y -> SFrounds r x -> SFrounds r y.
Proof. now intros ->. Qed.

(** [binary_round_aux] with the sign put back. *)
Lemma round_signed (s : bool) (m e : Z) (l : location) (y : R) :
  (0 <= m)%Z ->
  ((e <= fexp prec emax (Zdigits2 m + e))%Z \/ (l = loc_Exact /\ (e <= 971)%Z)) ->
  F2R m e <= y <= F2R (m + 1) e ->
  (l = loc_Exact -> y = F2R m e) ->
  0 < y ->
  SFrounds (binary_round_aux prec emax s m e l) (if s then - y else y).
Proof.
  intros Hm Hpre Hy Hx Hy0.
  assert (Habs : Rabs (if s then - y else y) = y).
  { destruct s; [rewrite Rabs_Ropp|]; apply Rabs_pos_eq; lra. }
  destruct (round_core s m e l y Hm Hpre Hy Hx)
    as (v & Hv & [[-> ->] | [(p & e' & -> & ->) | [-> Hbig]]]).
  - left. split; [reflexivity|]. rewrite Habs. simpl SF2R.
    split; [destruct s; apply Rabs_le; lra|].
    split; intros; lra.
  - left. split; [reflexivity|]. rewrite Habs. simpl SF2R.
    pose proof (F2R_pos p e') as Hp.
    split; [destruct s; apply Rabs_le; lra|].
    destruct s; split; intros; lra.
  - right. rewrite Habs. split; [exact Hbig|].
    destruct s; [right | left]; split; auto; lra.
Qed.

Lemma F2R_mul (m1 e1 m2 e2 : Z) :
  F2R (m1 * m2) (e1 + e2) = F2R m1 e1 * F2R m2 e2.
Proof. unfold F2R. rewrite mult_IZR, pow2_add. ring. Qed.

Lemma fexp_mono (a b : Z) :
  (a <= b)%Z -> (fexp prec emax a <= fexp prec emax b)%Z.
Proof. rewrite !fexp_eq. lia. Qed.

Lemma F2R_bracket (m e : Z) : F2R m e <= F2R m e <= F2R (m + 1) e.
Proof. split; [lra | apply F2R_le; lia]. Qed.

Lemma SFmul_R (x y : spec_float) :
  SpecFloat.valid_binary prec emax x = true ->
  SpecFloat.valid_binary prec emax y = true ->
  SFfinite x = true -> SFfinite y = true ->
  SFrounds (SFmul prec emax x y) (SF2R x * SF2R y).
Proof.
  intros Vx Vy Fx Fy.
  destruct x as [sx|sx| |sx mx ex], y as [sy|sy| |sy my ey];
    try discriminate; simpl SFmul;
    try (apply SFrounds_ext with (SF2R (S754_zero (xorb sx sy)));
         [simpl; ring | now apply SFrounds_exact]).
  apply SFrounds_ext
    with (if xorb sx sy then - F2R (Zpos (mx * my)) (ex + ey)
          else F2R (Zpos (mx * my)) (ex + ey)).
  { rewrite Pos2Z.inj_mul, F2R_mul. simpl. destruct sx, sy; simpl; ring. }
  apply round_signed; try lia; [|apply F2R_bracket|reflexivity|apply F2R_pos].
  destruct (Z_le_gt_dec (ex + ey) 971) as [Hle | Hgt]; [now right|]. left.
  apply valid_finite in Vx as (Hex & _ & Hmx).
  apply valid_finite in Vy as (Hey & _ & Hmy).
  specialize (Hmx ltac:(lia)). specialize (Hmy ltac:(lia)).
  assert (H104 : (2 ^ 104 <= Zpos (mx * my))%Z).
  { rewrite Pos2Z.inj_mul. change (2 ^ 104)%Z with (2 ^ 52 * 2 ^ 52)%Z.
    apply Z.mul_le_mono_nonneg; lia. }
  apply digits_gt in H104. rewrite fexp_eq. simpl Zdigits2. lia.
Qed.

(** Alignment keeps the value and leaves the mantissa precise enough. *)
Lemma binary_round_R (s : bool) (m : positive) (e : Z) :
  SFrounds (binary_round prec emax s m e)
           (if s then - F2R (Zpos m) e else F2R (Zpos m) e).
Proof.
  unfold binary_round.
  set (t := fexp prec emax (Zpos (SpecFloat.digits2_pos m) + e)).
  destruct (shl_align m e t) as [mz ez] eqn:Hal.
  assert (Hval : F2R (Zpos mz) ez = F2R (Zpos m) e /\
                 (ez <= fexp prec emax (Zdigits2 (Zpos mz) + ez))%Z).
  { unfold shl_align in Hal.
    destruct (t - e)%Z as [|d|d] eqn:Hd.
    - injection Hal as <- <-. split; [reflexivity|]. fold t. simpl Zdigits2. lia.
    - injection Hal as <- <-. split; [reflexivity|].
      simpl Zdigits2. fold t. lia.
    - injection Hal as <- <-.
      assert (Het : e = (t + Zpos d)%Z) by lia.
      split.
      + rewrite iter_xO_value, F2R_shift by lia. f_equal. lia.
      + pose proof (digits2_bounds m) as [Hlo _].
        assert (Hbig : (2 ^ (Zpos (SpecFloat.digits2_pos m) - 1 + Zpos d)
                        <= Zpos m * 2 ^ Zpos d)%Z).
        { rewrite Z.pow_add_r by lia.
          apply Z.mul_le_mono_nonneg_r; [|exact Hlo].
          apply Z.pow_nonneg. lia. }
        rewrite <- iter_xO_value in Hbig. apply digits_gt in Hbig.
        simpl Zdigits2.
        transitivity (fexp prec emax (Zpos (SpecFloat.digits2_pos m) + e));
          [fold t; lia|].
        apply fexp_mono. lia. }
  destruct Hval as [Hv HP]. rewrite <- Hv.
  apply round_signed; try lia; try apply F2R_bracket; try reflexivity;
    try apply F2R_pos; now left.
Qed.

Lemma binary_normalize_R (M e : Z) :
  SFrounds (binary_normalize prec emax M e false) (F2R M e).
Proof.
  destruct M as [|m|m]; unfold binary_normalize.
  - apply SFrounds_ext with (SF2R (S754_zero false));
      [simpl; now rewrite F2R_0 | now apply SFrounds_exact].
  - apply (binary_round_R false m e).
  - apply SFrounds_ext with (- F2R (Zpos m) e); [|apply (binary_round_R true m e)].
    unfold F2R. change (Zneg m) with (- Zpos m)%Z. rewrite opp_IZR. ring.
Qed.

Lemma aligned_value (s : bool) (m : positive) (e ez : Z) :
  (ez <= e)%Z ->
  F2R (cond_Zopp s (Zpos (fst (shl_align m e ez)))) ez
  = SF2R (S754_finite s m e).
Proof.
  intros H. rewrite shl_align_value by assumption.
  simpl SF2R. destruct s; simpl cond_Zopp.
  - rewrite <- Z.mul_opp_l, F2R_shift by lia.
    replace (ez + (e - ez))%Z with e by lia.
    unfold F2R. change (- Zpos m)%Z with (Zneg m).
    change (Zneg m) with (- Zpos m)%Z. rewrite opp_IZR. ring.
  - rewrite F2R_shift by lia. f_equal. lia.
Qed.

Lemma F2R_add (a b e : Z) : F2R (a + b) e = F2R a e + F2R b e.
Proof. unfold F2R. rewrite plus_IZR. ring. Qed.

Lemma F2R_sub (a b e : Z) : F2R (a - b) e = F2R a e - F2R b e.
Proof. unfold F2R. rewrite minus_IZR. ring. Qed.

Lemma SFadd_R (x y : spec_float) :
  SFfinite x = true -> SFfinite y = true ->
  SFrounds (SFadd prec emax x y) (SF2R x + SF2R y).
Proof.
  intros Fx Fy.
  destruct x as [sx|sx| |sx mx ex], y as [sy|sy| |sy my ey];
    try discriminate; simpl SFadd.
  - apply SFrounds_ext with 0; [simpl; ring|].
    destruct sx, sy; apply (SFrounds_exact (S754_zero _)); reflexivity.
  - apply SFrounds_ext with (SF2R (S754_finite sy my ey)); [simpl; ring|].
    now apply SFrounds_exact.
  - apply SFrounds_ext with (SF2R (S754_finite sx mx ex)); [simpl; ring|].
    now apply SFrounds_exact.
  - eapply SFrounds_ext; [|apply binary_normalize_R].
    rewrite F2R_add, !aligned_value by lia. reflexivity.
Qed.

Lemma SFsub_R (x y : spec_float) :
  SFfinite x = true -> SFfinite y = true ->
  SFrounds (SFsub prec emax x y) (SF2R x - SF2R y).
Proof.
  intros Fx Fy.
  destruct x as [sx|sx| |sx mx ex], y as [sy|sy| |sy my ey];
    try discriminate; simpl SFsub.
  - apply SFrounds_ext with 0; [simpl; ring|].
    destruct sx, sy; apply (SFrounds_exact (S754_zero _)); reflexivity.
  - apply SFrounds_ext with (SF2R (S754_finite (negb sy) my ey)).
    + simpl. destruct sy; simpl; ring.
    + now apply SFrounds_exact.
  - apply SFrounds_ext with (SF2R (S754_finite sx mx ex)); [simpl; ring|].
    now apply SFrounds_exact.
  - eapply SFrounds_ext; [|apply binary_normalize_R].
    rewrite F2R_sub, !aligned_value by lia. reflexivity.
Qed.
End RealOps.

(** ** Quotients *)

Module RealDiv.
Import Reals Lra Psatz.
Import Binary64 Rounding Binary64Order RoundingAny RealValue RealRounding
       RoundingError RealOrder RealNotions RealOps.
Local Open Scope R_scope.

Lemma new_location_exact (nb k : Z) :
  new_location nb k = loc_Exact -> k = 0%Z.
Proof.
  unfold new_location, new_location_even, new_location_odd.
  destruct (Z.even nb); cbv beta;
    (destruct (Z.eqb_spec k 0) as [-> | Hne];
     [reflexivity | intros H; discriminate H]).
Qed.

Lemma Zdigits2_nonneg (q : Z) : (0 <= Zdigits2 q)%Z.
Proof. destruct q; simpl; lia. Qed.

Lemma Zdigits2_gt (q k : Z) : (0 <= k)%Z -> (2 ^ k <= q)%Z -> (k < Zdigits2 q)%Z.
Proof.
  intros Hk H. assert (0 < 2 ^ k)%Z by (apply Z.pow_pos_nonneg; lia).
  destruct q as [|p|p]; try lia. now apply digits_gt.
Qed.

(** The quotient the division hands to the rounding: the truncated
    quotient on an exponent fine enough, with the rest recorded. *)
Lemma div_core (mx my : positive) (ex ey : Z) :
  exists q e' l,
    SFdiv_core_binary prec emax (Zpos mx) ex (Zpos my) ey = (q, e', l) /\
    (0 <= q)%Z /\
    (e' <= fexp prec emax (Zdigits2 q + e'))%Z /\
    F2R q e' <= F2R (Zpos mx) ex / F2R (Zpos my) ey <= F2R (q + 1) e' /\
    (l = loc_Exact -> F2R (Zpos mx) ex / F2R (Zpos my) ey = F2R q e').
Proof.
  unfold SFdiv_core_binary.
  set (d1 := Zdigits2 (Zpos mx)). set (d2 := Zdigits2 (Zpos my)).
  set (e' := Z.min (fexp prec emax (d1 + ex - (d2 + ey))) (ex - ey)).
  set (s := (ex - ey - e')%Z).
  assert (Hs : (0 <= s)%Z) by (unfold s, e'; lia).
  set (m' := match s with
             | 0%Z => Zpos mx
             | Zpos _ => Z.shiftl (Zpos mx) s
             | Zneg _ => 0%Z
             end).
  assert (Hm' : m' = (Zpos mx * 2 ^ s)%Z).
  { unfold m'. destruct s as [|p|p] eqn:Es; [lia| |lia].
    now rewrite Z.shiftl_mul_pow2 by lia. }
  pose proof (Z_div_mod m' (Zpos my) ltac:(lia)) as Hdm.
  destruct (Z.div_eucl m' (Zpos my)) as [q r]. destruct Hdm as [Hmq Hr].
  exists q, e', (new_location (Zpos my) r). split; [reflexivity|].
  assert (Hp : (0 < 2 ^ s)%Z) by (apply Z.pow_pos_nonneg; lia).
  assert (Hq0 : (0 <= q)%Z) by nia.
  split; [exact Hq0|].
  (* the value *)
  pose proof (F2R_pos my ey) as Py.
  assert (HY : F2R (Zpos mx) ex / F2R (Zpos my) ey * IZR (Zpos my)
               = F2R m' e').
  { rewrite Hm', F2R_shift by assumption.
    replace (e' + s)%Z with (ex + - ey)%Z by (unfold s; lia).
    unfold F2R. rewrite pow2_add.
    assert (Hinv : powerRZ 2 (- ey) * powerRZ 2 ey = 1).
    { rewrite <- pow2_add. replace (- ey + ey)%Z with 0%Z by lia. reflexivity. }
    pose proof (pow2_gt_0 ey) as Pe.
    assert (Hmy : 0 < IZR (Zpos my)) by now apply IZR_lt.
    assert (Hpm : powerRZ 2 (- ey) = / powerRZ 2 ey).
    { apply Rmult_eq_reg_r with (powerRZ 2 ey); [|lra].
      rewrite Hinv. field. lra. }
    rewrite Hpm. field. split; lra. }
  set (Y := F2R (Zpos mx) ex / F2R (Zpos my) ey) in *.
  assert (Hmy : 0 < IZR (Zpos my)) by now apply IZR_lt.
  pose proof (pow2_gt_0 e') as Pe'.
  assert (Hlo : F2R q e' * IZR (Zpos my) <= F2R m' e').
  { unfold F2R. rewrite Hmq, plus_IZR, mult_IZR.
    assert (0 <= IZR r) by (apply IZR_le; lia). nra. }
  assert (Hhi : F2R m' e' <= F2R (q + 1) e' * IZR (Zpos my)).
  { unfold F2R. rewrite Hmq, !plus_IZR, mult_IZR.
    assert (IZR r <= IZR (Zpos my)) by (apply IZR_le; lia). nra. }
  split; [|split].
  - (* precision *)
    transitivity (fexp prec emax (d1 + ex - (d2 + ey))); [unfold e'; lia|].
    apply fexp_mono.
    assert (Hdq : (d1 + s - d2 <= Zdigits2 q)%Z).
    { pose proof (Zdigits2_nonneg q).
      destruct (Z_le_gt_dec (d1 + s - d2) 0) as [|Hgt]; [lia|].
      assert (H2k : (2 ^ (d1 + s - d2 - 1) <= q)%Z).
      { pose proof (digits2_bounds mx) as [Hlo1 _].
        pose proof (digits2_bounds my) as [_ Hhi2].
        fold (Zdigits2 (Zpos mx)) in Hlo1. fold d1 in Hlo1.
        fold (Zdigits2 (Zpos my)) in Hhi2. fold d2 in Hhi2.
        assert (Hd2 : (0 < d2)%Z) by (unfold d2; simpl; lia).
        assert (Hd1 : (0 < d1)%Z) by (unfold d1; simpl; lia).
        assert (Hpow : (2 ^ (d1 - 1 + s) = 2 ^ (d1 + s - d2 - 1) * 2 ^ d2)%Z).
        { rewrite <- Z.pow_add_r by lia. f_equal. lia. }
        assert (Hm'lo : (2 ^ (d1 - 1 + s) <= m')%Z).
        { rewrite Hm', Z.pow_add_r by lia. nia. }
        assert (Hk0 : (0 < 2 ^ (d1 + s - d2 - 1))%Z)
          by (apply Z.pow_pos_nonneg; lia).
        nia. }
      apply Zdigits2_gt in H2k; lia. }
    unfold s in Hdq. lia.
  - split.
    + apply Rmult_le_reg_r with (IZR (Zpos my)); [exact Hmy | lra].
    + apply Rmult_le_reg_r with (IZR (Zpos my)); [exact Hmy | lra].
  - intros Hl. apply new_location_exact in Hl. subst r.
    apply Rmult_eq_reg_r with (IZR (Zpos my)); [|lra].
    rewrite HY. unfold F2R. rewrite Hmq, plus_IZR, mult_IZR. ring.
Qed.

Lemma SFdiv_R (x y : spec_float) :
  SFfinite x = true -> SFfinite y = true -> SF2R y <> 0 ->
  SFrounds (SFdiv prec emax x y) (SF2R x / SF2R y).
Proof.
  intros Fx Fy Hy0.
  destruct y as [sy|sy| |sy my ey]; try discriminate;
    [simpl in Hy0; lra|].
  destruct x as [sx|sx| |sx mx ex]; try discriminate; simpl SFdiv.
  - apply SFrounds_ext with (SF2R (S754_zero (xorb sx sy)));
      [simpl; unfold Rdiv; ring | now apply SFrounds_exact].
  - destruct (div_core mx my ex ey) as (q & e' & l & -> & Hq & HP & HY & Hx).
    pose proof (F2R_pos mx ex) as Px. pose proof (F2R_pos my ey) as Py.
    apply SFrounds_ext
      with (if xorb sx sy then - (F2R (Zpos mx) ex / F2R (Zpos my) ey)
            else F2R (Zpos mx) ex / F2R (Zpos my) ey).
    { simpl. destruct sx, sy; simpl; field; lra. }
    apply round_signed; auto.
    apply Rdiv_lt_0_compat; assumption.
Qed.
End RealDiv.

(** ** Square roots *)

Module RealSqrt.
Import Reals Lra Psatz.
Import Binary64 Rounding Binary64Order RoundingAny RealValue RealRounding
       RoundingError RealOrder RealNotions RealOps RealDiv.
Local Open Scope R_scope.

Lemma F2R_sq (m e : Z) : F2R m e * F2R m e = F2R (m * m) (e + e).
Proof. unfold F2R. rewrite mult_IZR, pow2_add. ring. Qed.

(** The root the square root hands to the rounding: the integer root on
    an exponent fine enough, with the rest recorded. *)
Lemma sqrt_core (m : positive) (e : Z) :
  exists q e' l,
    SFsqrt_core_binary prec emax (Zpos m) e = (q, e', l) /\
    (0 <= q)%Z /\
    (e' <= fexp prec emax (Zdigits2 q + e'))%Z /\
    F2R q e' <= sqrt (F2R (Zpos m) e) <= F2R (q + 1) e' /\
    (l = loc_Exact -> sqrt (F2R (Zpos m) e) = F2R q e').
Proof.
  unfold SFsqrt_core_binary.
  set (d := Zdigits2 (Zpos m)).
  set (e' := Z.min (fexp prec emax (Z.div2 (d + e + 1))) (Z.div2 e)).
  set (s := (e - 2 * e')%Z).
  assert (He2 : (2 * Z.div2 e <= e)%Z).
  { rewrite Z.div2_div. pose proof (Z.mul_div_le e 2). lia. }
  assert (Hs : (0 <= s)%Z) by (unfold s, e'; lia).
  set (m' := match s with
             | 0%Z => Zpos m
             | Zpos _ => Z.shiftl (Zpos m) s
             | Zneg _ => 0%Z
             end).
  assert (Hm' : m' = (Zpos m * 2 ^ s)%Z).
  { unfold m'. destruct s as [|p|p] eqn:Es; [lia| |lia].
    now rewrite Z.shiftl_mul_pow2 by lia. }
  assert (Hp : (0 < 2 ^ s)%Z) by (apply Z.pow_pos_nonneg; lia).
  assert (Hm'0 : (0 < m')%Z) by (rewrite Hm'; lia).
  pose proof (Z.sqrtrem_spec m' ltac:(lia)) as Hsq.
  assert (Hqs : fst (Z.sqrtrem m') = Z.sqrt m') by apply Z.sqrtrem_sqrt.
  destruct (Z.sqrtrem m') as [q r]. simpl in Hqs. destruct Hsq as [Hmq Hr].
  pose proof (Z.sqrt_nonneg m') as Hq0. rewrite <- Hqs in Hq0.
  eexists q, e', _. split; [reflexivity|].
  split; [exact Hq0|].
  (* the value *)
  assert (HX : F2R (Zpos m) e = F2R m' (e' + e')).
  { rewrite Hm', F2R_shift by assumption. f_equal. unfold s. lia. }
  assert (Hlo : F2R q e' * F2R q e' <= F2R (Zpos m) e).
  { rewrite F2R_sq, HX. apply F2R_le. lia. }
  assert (Hhi : F2R (Zpos m) e <= F2R (q + 1) e' * F2R (q + 1) e').
  { rewrite F2R_sq, HX. apply F2R_le. lia. }
  pose proof (F2R_nonneg q e' Hq0) as Nq.
  pose proof (F2R_nonneg (q + 1) e' ltac:(lia)) as Nq1.
  split; [|split].
  - (* precision *)
    transitivity (fexp prec emax (Z.div2 (d + e + 1))); [unfold e'; lia|].
    apply fexp_mono.
    set (k := (Z.div2 (d + e + 1) - e')%Z).
    assert (Hk2 : (2 * k <= d + s + 1)%Z).
    { unfold k, s. rewrite Z.div2_div.
      pose proof (Z.mul_div_le (d + e + 1) 2). lia. }
    assert (Hdq : (k <= Zdigits2 q)%Z).
    { pose proof (Zdigits2_nonneg q).
      destruct (Z_le_gt_dec k 0) as [|Hgt]; [lia|].
      assert (H2k : (2 ^ (k - 1) <= q)%Z).
      { pose proof (digits2_bounds m) as [Hlo1 _].
        fold (Zdigits2 (Zpos m)) in Hlo1. fold d in Hlo1.
        assert (Hd : (0 < d)%Z) by (unfold d; simpl; lia).
        assert (Hm'lo : (2 ^ (d - 1 + s) <= m')%Z).
        { rewrite Hm', Z.pow_add_r by lia. nia. }
        assert (Hpow : (2 ^ (k - 1) * 2 ^ (k - 1) <= 2 ^ (d - 1 + s))%Z).
        { rewrite <- Z.pow_add_r by lia. apply Z.pow_le_mono_r; lia. }
        assert (Hk0 : (0 < 2 ^ (k - 1))%Z) by (apply Z.pow_pos_nonneg; lia).
        rewrite Hqs. apply Z.sqrt_le_square; lia. }
      apply Zdigits2_gt in H2k; lia. }
    unfold k in Hdq. lia.
  - split.
    + rewrite <- (sqrt_square (F2R q e')) by exact Nq.
      now apply sqrt_le_1_alt.
    + rewrite <- (sqrt_square (F2R (q + 1) e')) by exact Nq1.
      now apply sqrt_le_1_alt.
  - intros Hl.
    assert (Hr0 : r = 0%Z).
    { destruct (Z.eqb_spec r 0); [assumption|discriminate]. }
    rewrite HX, Hmq, Hr0, Z.add_0_r, <- F2R_sq. now apply sqrt_square.
Qed.

(** The square root of a non-negative number rounds the real one. *)
Lemma SFsqrt_R (x : spec_float) :
  SFfinite x = true -> 0 <= SF2R x ->
  SFrounds (SFsqrt prec emax x) (sqrt (SF2R x)).
Proof.
  intros Fx Nx.
  destruct x as [sx|sx| |sx mx ex]; try discriminate; simpl SFsqrt.
  - apply SFrounds_ext with (SF2R (S754_zero sx));
      [simpl; now rewrite sqrt_0 | now apply SFrounds_exact].
  - pose proof (F2R_pos mx ex) as Px.
    destruct sx; [simpl in Nx; lra|]. simpl SF2R.
    destruct (sqrt_core mx ex) as (q & e' & l & -> & Hq & HP & HY & Hx).
    apply (round_signed false q e' l (sqrt (F2R (Zpos mx) ex)));
      try assumption; [now left | now apply sqrt_lt_R0].
Qed.
End RealSqrt.

(** ** The operations on primitive floats *)

Module FloatReal.
Import Reals Lra Psatz.
Import Binary64 Rounding Binary64Order RoundingAny RealValue RealRounding
       RoundingError RealOrder RealNotions RealOps RealDiv.
Local Open Scope R_scope.

Lemma mul_R (a b : float) :
  is_finite a = true -> is_finite b = true ->
  rounds (a * b)%float (toR a * toR b).
Proof.
  intros Ha Hb. unfold rounds, toR. rewrite FloatAxioms.mul_spec.
  apply SFmul_R; auto using Prim2SF_valid, finite_SF.
Qed.

Lemma add_R (a b : float) :
  is_finite a = true -> is_finite b = true ->
  rounds (a + b)%float (toR a + toR b).
Proof.
  intros Ha Hb. unfold rounds, toR. rewrite FloatAxioms.add_spec.
  apply SFadd_R; auto using finite_SF.
Qed.

Lemma sub_R (a b : float) :
  is_finite a = true -> is_finite b = true ->
  rounds (a - b)%float (toR a - toR b).
Proof.
  intros Ha Hb. unfold rounds, toR. rewrite FloatAxioms.sub_spec.
  apply SFsub_R; auto using finite_SF.
Qed.

Lemma div_R (a b : float) :
  is_finite a = true -> is_finite b = true -> toR b <> 0 ->
  rounds (a / b)%float (toR a / toR b).
Proof.
  intros Ha Hb Hb0. unfold rounds, toR. rewrite FloatAxioms.div_spec.
  apply SFdiv_R; auto using finite_SF.
Qed.

(** The errors as numbers. *)
Lemma eps_le : eps <= / 1000000000000000.
Proof.
  unfold eps.
  assert (H : powerRZ 2 (-50) * powerRZ 2 50 = 1).
  { rewrite <- pow2_add. reflexivity. }
  rewrite <- (pow2_IZR 50) in H by lia.
  change (2 ^ 50)%Z with 1125899906842624%Z in H.
  pose proof (pow2_gt_0 (-50)). nra.
Qed.

Lemma eta_le : eta <= / 1000000000000000000000000000000.
Proof.
  unfold eta.
  pose proof (pow2_le (-1073) (-100) ltac:(lia)) as Hle.
  assert (H : powerRZ 2 (-100) * powerRZ 2 100 = 1).
  { rewrite <- pow2_add. reflexivity. }
  rewrite <- (pow2_IZR 100) in H by lia.
  change (2 ^ 100)%Z with 1267650600228229401496703205376%Z in H.
  pose proof (pow2_gt_0 (-100)). nra.
Qed.

Lemma pow2_1000_big : 1000000000000 <= powerRZ 2 1000.
Proof.
  pose proof (pow2_le 40 1000 ltac:(lia)) as H.
  rewrite <- (pow2_IZR 40) in H by lia.
  change (2 ^ 40)%Z with 1099511627776%Z in H. lra.
Qed.

Lemma Rabs_bounds (a b : R) : Rabs a <= b -> - b <= a <= b.
Proof. unfold Rabs. destruct (Rcase_abs a); lra. Qed.

(** Using a rounding: with the magnitude of the exact result bounded by
    [B], the float is finite and within [B / 10^15] of it. *)
Lemma rounds_within (r : float) (x B : R) :
  rounds r x -> - B <= x <= B -> B <= 1000000000000 ->
  is_finite r = true /\
  x - (B / 1000000000000000 + / 1000000000000000000000000000000)
  <= toR r
  <= x + (B / 1000000000000000 + / 1000000000000000000000000000000).
Proof.
  intros [(Hf & He & _) | [Hbig _]] Hx HB.
  - split; [now rewrite is_finite_spec|].
    apply Rabs_bounds in He. fold (toR r) in He.
    assert (HA : Rabs x <= B) by (apply Rabs_le; lra).
    pose proof eps_le. pose proof eta_le. pose proof eps_pos.
    pose proof (Rabs_pos x).
    assert (eps * Rabs x <= / 1000000000000000 * B).
    { apply Rmult_le_compat; lra. }
    lra.
  - exfalso. pose proof pow2_1000_big.
    assert (HA : Rabs x <= B) by (apply Rabs_le; lra). lra.
Qed.

(** ... and, when the float is known to be finite, within the relative
    error of it. *)
Lemma rounds_finite (r : float) (x : R) :
  rounds r x -> is_finite r = true -> 0 <= x ->
  x - (x / 1000000000000000 + / 1000000000000000000000000000000)
  <= toR r
  <= x + (x / 1000000000000000 + / 1000000000000000000000000000000).
Proof.
  intros [(Hf & He & _) | [_ Hinf]] Hfin Hx.
  - apply Rabs_bounds in He. fold (toR r) in He.
    rewrite (Rabs_pos_eq x Hx) in He.
    pose proof eps_le. pose proof eta_le. pose proof eps_pos.
    assert (eps * x <= / 1000000000000000 * x).
    { apply Rmult_le_compat_r; lra. }
    lra.
  - rewrite is_finite_spec in Hfin.
    destruct Hinf as [[_ H] | [_ H]]; rewrite H in Hfin; discriminate.
Qed.

(** A rounding keeps the sign. *)
Lemma rounds_nonneg (r : float) (x : R) :
  rounds r x -> is_finite r = true -> 0 <= x -> 0 <= toR r.
Proof.
  intros [(_ & _ & Hs & _) | [_ Hinf]] Hfin Hx; [now apply Hs|].
  rewrite is_finite_spec in Hfin.
  destruct Hinf as [[_ H] | [_ H]]; rewrite H in Hfin; discriminate.
Qed.

(** A positive number rounds to a non-negative float or to [+infinity]. *)
Lemma rounds_pos (r : float) (x : R) :
  rounds r x -> 0 < x ->
  (is_finite r = true /\ 0 <= toR r) \/ Prim2SF r = S754_infinity false.
Proof.
  intros [(Hf & _ & Hs & _) | [_ [[_ H] | [Hneg _]]]] Hx.
  - left. split; [now rewrite is_finite_spec | apply Hs; lra].
  - now right.
  - lra.
Qed.

Lemma toR_opp (a : float) : toR (- a) = - toR a.
Proof.
  unfold toR. rewrite FloatAxioms.opp_spec.
  destruct (Prim2SF a) as [s|s| |[|] m e]; simpl; lra.
Qed.
End FloatReal.

(** * One step on two linked nodes *)

Module TwoNodes.
Import Binary64 RepulsionSymmetry SpringFacts.
Local Open Scope float_scope.

Lemma repulsion_two (a f : Node) :
  repulsion [a; f]
  = [ addVelocity a (repulsionForce a f).1 (repulsionForce a f).2;
      subVelocity f (repulsionForce a f).1 (repulsionForce a f).2 ].
Proof.
  unfold repulsion, repelRow. cbn [length seq fold_left Nat.sub].
  unfold repelPair. cbn [lookup list_lookup].
  destruct (repulsionForce a f) as [fx fy]. reflexivity.
Qed.

Lemma springForce_place (s s' t t' : Node) :
  place s = place s' -> place t = place t' ->
  springForce s t = springForce s' t'.
Proof.
  unfold place, springForce. intros [= _ _ -> ->] [= _ _ -> ->]. reflexivity.
Qed.

Lemma attraction_two (a f : Node) :
  node_id a <> node_id f ->
  attraction [a; f] [mkLink (node_id a) (node_id f)]
  = [ addVelocity a (springForce a f).1 (springForce a f).2;
      subVelocity f (springForce a f).1 (springForce a f).2 ].
Proof.
  intros Hid. unfold attraction. cbn [fold_left].
  rewrite (springLink_resolved [a; f] _ 0%nat 1%nat a f); try reflexivity.
  - cbn [findIndex source]. now rewrite String.eqb_refl.
  - cbn [findIndex target].
    destruct (String.eqb_spec (node_id a) (node_id f)) as [Heq | _];
      [contradiction|].
    now rewrite String.eqb_refl.
  - discriminate.
Qed.

Lemma settleNode_free (width height : float) (n : Node) :
  reached width height n = false ->
  settleNode width height (getPlanetConfig width height) n
  = mkNode (node_id n) (node_type n)
           (settledPosition width 0.7 (node_vx n) (node_x n))
           (settledPosition height 0.3 (node_vy n) (node_y n))
           (settledVelocity width 0.7 (node_vx n) (node_x n))
           (settledVelocity height 0.3 (node_vy n) (node_y n)).
Proof.
  unfold reached, settleNode. cbv zeta. intros ->. reflexivity.
Qed.

(** One step on two linked nodes the obstacle does not push. *)
Lemma integrate_two (width height : float) (a f : Node) :
  node_id a <> node_id f ->
  reached width height a = false -> reached width height f = false ->
  nodes (integrate width height
           (mkPhysics [a; f] [mkLink (node_id a) (node_id f)]))
  = [ mkNode (node_id a) (node_type a)
        (settledPosition width 0.7
           (node_vx a + (repulsionForce a f).1 + (springForce a f).1) (node_x a))
        (settledPosition height 0.3
           (node_vy a + (repulsionForce a f).2 + (springForce a f).2) (node_y a))
        (settledVelocity width 0.7
           (node_vx a + (repulsionForce a f).1 + (springForce a f).1) (node_x a))
        (settledVelocity height 0.3
           (node_vy a + (repulsionForce a f).2 + (springForce a f).2) (node_y a));
      mkNode (node_id f) (node_type f)
        (settledPosition width 0.7
           (node_vx f - (repulsionForce a f).1 - (springForce a f).1) (node_x f))
        (settledPosition height 0.3
           (node_vy f - (repulsionForce a f).2 - (springForce a f).2) (node_y f))
        (settledVelocity width 0.7
           (node_vx f - (repulsionForce a f).1 - (springForce a f).1) (node_x f))
        (settledVelocity height 0.3
           (node_vy f - (repulsionForce a f).2 - (springForce a f).2) (node_y f)) ].
Proof.
  intros Hid Ha Hf. unfold integrate. cbn [nodes links].
  rewrite repulsion_two.
  set (a1 := addVelocity a _ _). set (f1 := subVelocity f _ _).
  change (mkLink (node_id a) (node_id f))
    with (mkLink (node_id a1) (node_id f1)).
  rewrite (attraction_two a1 f1 Hid).
  rewrite (springForce_place a1 a f1 f) by reflexivity.
  unfold settle. cbn [map].
  rewrite !settleNode_free by assumption.
  reflexivity.
Qed.
End TwoNodes.

(** ** The forces between two nodes farther apart than the rest length *)

Module DistanceFacts.
Import Binary64 PlanetFacts RepulsionSymmetry SpringFacts TwoNodes.
Local Open Scope float_scope.

Lemma binary_round_opp (s : bool) (m : positive) (e : Z) :
  binary_round prec emax (negb s) m e = SFopp (binary_round prec emax s m e).
Proof.
  unfold binary_round.
  destruct (shl_align m e _) as [mz ez]. apply binary_round_aux_opp.
Qed.

Lemma binary_normalize_opp (M e : Z) :
  M <> 0%Z ->
  binary_normalize prec emax (- M) e false
  = SFopp (binary_normalize prec emax M e false).
Proof.
  destruct M as [|m|m]; [congruence| |]; intros _; simpl.
  - apply (binary_round_opp false).
  - change true with (negb false). rewrite binary_round_opp.
    destruct (binary_round prec emax false m e) as [s|s| |s p e'];
      simpl; now rewrite ?Bool.negb_involutive.
Qed.

(** Swapping the operands of a subtraction flips the sign of the result,
    two zeros apart. *)
Lemma SFsub_swap (x y : spec_float) :
  SFsub prec emax y x = SFopp (SFsub prec emax x y) \/
  exists s s', SFsub prec emax x y = S754_zero s /\
               SFsub prec emax y x = S754_zero s'.
Proof.
  destruct x as [sx|sx| |sx mx ex], y as [sy|sy| |sy my ey]; simpl;
    try (left; repeat match goal with b : bool |- _ => destruct b end;
         reflexivity).
  - right. destruct sx, sy; eauto.
  - rewrite (Z.min_comm ey ex).
    set (cx := cond_Zopp sx _). set (cy := cond_Zopp sy _).
    destruct (Z.eq_dec (cx - cy)%Z 0%Z) as [H0 | Hne].
    + right. replace (cy - cx)%Z with 0%Z by lia. rewrite H0. simpl. eauto.
    + left. replace (cy - cx)%Z with (- (cx - cy))%Z by lia.
      now apply binary_normalize_opp.
Qed.

Lemma SFmul_sq_opp (z : spec_float) :
  SFmul prec emax (SFopp z) (SFopp z) = SFmul prec emax z z.
Proof. destruct z as [s|s| |s m e]; simpl; try reflexivity; now destruct s. Qed.

Lemma sub_sq_sym (a b : float) : (a - b) * (a - b) = (b - a) * (b - a).
Proof.
  apply Prim2SF_inj. rewrite !FloatAxioms.mul_spec, !FloatAxioms.sub_spec.
  unfold SF64mul, SF64sub.
  destruct (SFsub_swap (Prim2SF a) (Prim2SF b)) as [-> | (s & s' & -> & ->)].
  - now rewrite SFmul_sq_opp.
  - simpl. now destruct s, s'.
Qed.

Lemma pairDistSq_sym (a f : Node) : pairDistSq f a = pairDistSq a f.
Proof.
  unfold pairDistSq. cbv zeta.
  now rewrite (sub_sq_sym (node_x f)), (sub_sq_sym (node_y f)).
Qed.

Lemma sqrt_zero_falsy (q : float) :
  (q =? 0) = true -> JS.truthy (JS.Math_sqrt q) = false.
Proof.
  unfold JS.truthy, JS.Math_sqrt, is_nan.
  rewrite !FloatAxioms.eqb_spec, FloatAxioms.sqrt_spec.
  change (Prim2SF 0) with (S754_zero false).
  destruct (Prim2SF q) as [s|s| |s m e]; simpl; try discriminate;
    try (now destruct s).
Qed.

(** Beyond the rest length, as the spring phase measures it, the two
    phases divide by the same distance, and no floor applies. *)
Lemma far_apart (a f : Node) :
  (SPRING_LENGTH <? springDist a f) = true ->
  springDist a f = JS.Math_sqrt (pairDistSq a f) /\
  floorDistSq (pairDistSq a f) = pairDistSq a f.
Proof.
  intros H.
  assert (Hd : springDist a f
               = JS.or_else (JS.Math_sqrt (pairDistSq a f)) 1).
  { unfold springDist. cbv zeta. rewrite <- pairDistSq_sym. reflexivity. }
  rewrite Hd in *. unfold JS.or_else in *.
  destruct (JS.truthy (JS.Math_sqrt (pairDistSq a f))) eqn:Ht;
    [|discriminate].
  split; [reflexivity|]. unfold floorDistSq.
  destruct (pairDistSq a f =? 0) eqn:Hq; [|reflexivity].
  apply sqrt_zero_falsy in Hq. congruence.
Qed.

Lemma forces_far_apart (a f : Node) :
  (SPRING_LENGTH <? springDist a f) = true ->
  repulsionForce a f
  = ((node_x a - node_x f) / springDist a f * repulsionMagnitude a f,
     (node_y a - node_y f) / springDist a f * repulsionMagnitude a f) /\
  springForce a f
  = ((node_x f - node_x a) / springDist a f * springMagnitude a f,
     (node_y f - node_y a) / springDist a f * springMagnitude a f).
Proof.
  intros H. destruct (far_apart a f H) as [HD Hq].
  split; [|apply springForce_magnitude].
  unfold repulsionForce, repulsionMagnitude. cbv zeta.
  fold (pairDistSq a f). unfold pairDistSq at 1 2. cbv zeta.
  fold (pairDistSq a f). rewrite Hq, <- HD. reflexivity.
Qed.
End DistanceFacts.

(** ** The constants of the integrator as real numbers *)

Module Constants.
Import Reals Lra Psatz.
Import Binary64 RealValue RealRounding RoundingError RealOrder RealNotions
       RealOps FloatReal.
Local Open Scope R_scope.

Lemma F2R_neg_exp (m : Z) (k : positive) :
  F2R m (Zneg k) = IZR m / IZR (2 ^ Zpos k).
Proof.
  unfold F2R, Rdiv. f_equal.
  assert (H : powerRZ 2 (Zneg k) * powerRZ 2 (Zpos k) = 1).
  { rewrite <- pow2_add. replace (Zneg k + Zpos k)%Z with 0%Z by lia.
    reflexivity. }
  rewrite pow2_IZR by lia. pose proof (pow2_gt_0 (Zpos k)).
  apply Rmult_eq_reg_r with (powerRZ 2 (Zpos k)); [|lra].
  rewrite H. field. lra.
Qed.

Lemma toR_0 : toR 0 = 0.
Proof. reflexivity. Qed.

Lemma toR_REPULSION : toR REPULSION = 2000.
Proof.
  unfold toR. change (Prim2SF REPULSION)
    with (S754_finite false 8796093022208000 (-42)).
  simpl SF2R. rewrite F2R_neg_exp.
  change (2 ^ 42)%Z with 4398046511104%Z. lra.
Qed.

Lemma toR_SPRING_LENGTH : toR SPRING_LENGTH = 120.
Proof.
  unfold toR. change (Prim2SF SPRING_LENGTH)
    with (S754_finite false 8444249301319680 (-46)).
  simpl SF2R. rewrite F2R_neg_exp.
  change (2 ^ 46)%Z with 70368744177664%Z. lra.
Qed.

Lemma toR_8192 : toR 8192 = 8192.
Proof.
  unfold toR. change (Prim2SF 8192)
    with (S754_finite false 4503599627370496 (-39)).
  simpl SF2R. rewrite F2R_neg_exp.
  change (2 ^ 39)%Z with 549755813888%Z. lra.
Qed.

Lemma toR_m8192 : toR (-8192) = -8192.
Proof.
  unfold toR. change (Prim2SF (-8192))
    with (S754_finite true 4503599627370496 (-39)).
  simpl SF2R. rewrite F2R_neg_exp.
  change (2 ^ 39)%Z with 549755813888%Z. lra.
Qed.

Lemma toR_32768 : toR 32768 = 32768.
Proof.
  unfold toR. change (Prim2SF 32768)
    with (S754_finite false 4503599627370496 (-37)).
  simpl SF2R. rewrite F2R_neg_exp.
  change (2 ^ 37)%Z with 137438953472%Z. lra.
Qed.

Lemma toR_SPRING_K : 2 / 100 <= toR SPRING_K <= 20001 / 1000000.
Proof.
  unfold toR. change (Prim2SF SPRING_K)
    with (S754_finite false 5764607523034235 (-58)).
  simpl SF2R. rewrite F2R_neg_exp.
  change (2 ^ 58)%Z with 288230376151711744%Z. lra.
Qed.

Lemma toR_DAMPING : 8499 / 10000 <= toR DAMPING <= 85 / 100.
Proof.
  unfold toR. change (Prim2SF DAMPING)
    with (S754_finite false 7656119366529843 (-53)).
  simpl SF2R. rewrite F2R_neg_exp.
  change (2 ^ 53)%Z with 9007199254740992%Z. lra.
Qed.

Lemma toR_CENTER_GRAVITY :
  2999 / 10000000 <= toR CENTER_GRAVITY <= 3 / 10000.
Proof.
  unfold toR. change (Prim2SF CENTER_GRAVITY)
    with (S754_finite false 5534023222112865 (-64)).
  simpl SF2R. rewrite F2R_neg_exp.
  change (2 ^ 64)%Z with 18446744073709551616%Z. lra.
Qed.

Lemma toR_share7 : 0 <= toR 0.7 <= 1.
Proof.
  unfold toR. change (Prim2SF 0.7)
    with (S754_finite false 6305039478318694 (-53)).
  simpl SF2R. rewrite F2R_neg_exp.
  change (2 ^ 53)%Z with 9007199254740992%Z. lra.
Qed.

Lemma toR_share3 : 0 <= toR 0.3 <= 1.
Proof.
  unfold toR. change (Prim2SF 0.3)
    with (S754_finite false 5404319552844595 (-54)).
  simpl SF2R. rewrite F2R_neg_exp.
  change (2 ^ 54)%Z with 18014398509481984%Z. lra.
Qed.

(** A float between the bounds is finite and so is its value. *)
Lemma bounded_R (lo a hi : float) :
  is_finite lo = true -> is_finite hi = true ->
  (lo <=? a)%float = true -> (a <=? hi)%float = true ->
  is_finite a = true /\ toR lo <= toR a <= toR hi.
Proof.
  intros Hlo Hhi H1 H2.
  assert (Ha : is_finite a = true) by now apply leb_finite with lo hi.
  split; [exact Ha|]. split; now apply leb_R.
Qed.

Lemma strictly_bounded_R (lo a hi : float) :
  is_finite lo = true -> is_finite hi = true ->
  (lo <? a)%float = true -> (a <? hi)%float = true ->
  is_finite a = true /\ toR lo < toR a < toR hi.
Proof.
  intros Hlo Hhi H1 H2.
  assert (Ha : is_finite a = true) by now apply ltb_finite with lo hi.
  split; [exact Ha|]. split; now apply ltb_R.
Qed.

Lemma eqb_R (a b : float) :
  is_finite a = true -> is_finite b = true ->
  (a =? b)%float = false -> toR a <> toR b.
Proof.
  intros Ha Hb. rewrite FloatAxioms.eqb_spec. unfold SFeqb, toR.
  pose proof (SFcompare_R _ _ (Prim2SF_valid a) (Prim2SF_valid b)
                (finite_SF a Ha) (finite_SF b Hb)) as H.
  destruct (SFcompare (Prim2SF a) (Prim2SF b)) as [[| |]|];
    intros; try discriminate; try lra; contradiction.
Qed.
End Constants.

(** ** The arithmetic of the errors, on real numbers *)

Module ErrorArithmetic.
Import Reals Lra Psatz.
Local Open Scope R_scope.

Lemma mul_close (x x0 y d B : R) :
  - d <= x - x0 <= d -> 0 <= y <= B ->
  - (d * B) <= x * y - x0 * y <= d * B.
Proof.
  intros Hx Hy.
  assert (H1 : (x - x0 + d) * y >= 0) by nra.
  assert (H2 : (d - (x - x0)) * y >= 0) by nra.
  assert (H3 : d * (B - y) >= 0) by nra.
  split; nra.
Qed.

Lemma mul_bound (x y A B : R) :
  - A <= x <= A -> 0 <= y <= B -> - (A * B) <= x * y <= A * B.
Proof.
  intros Hx Hy.
  pose proof (mul_close x 0 y A B ltac:(lra) Hy). lra.
Qed.

Lemma inv_bound (D : R) : 120 <= D -> 0 < / D <= / 120.
Proof.
  intros H. split.
  - apply Rinv_0_lt_compat. lra.
  - apply Rinv_le_contravar; lra.
Qed.

(** The force along one coordinate: [r] is the rounded offset, [u] the
    rounded quotient by the distance, [t] the rounded product with the
    force. *)
Lemma force_chain (delta r iD F u t : R) :
  - (17 / 1000000000000) <= r - delta <= 17 / 1000000000000 ->
  - (14 / 100000000000000) <= u - r * iD <= 14 / 100000000000000 ->
  - (92 / 1000000000000) <= t - u * F <= 92 / 1000000000000 ->
  0 < iD <= / 120 -> 0 <= F <= 660 ->
  - (3 / 10000000000) <= t - delta * iD * F <= 3 / 10000000000.
Proof.
  intros Hr Hu Ht HD HF.
  pose proof (mul_close u (r * iD) F _ 660 Hu HF) as H1.
  assert (HiDF : 0 <= iD * F <= / 120 * 660).
  { split; [apply Rmult_le_pos; lra|]. apply Rmult_le_compat; lra. }
  pose proof (mul_close r delta (iD * F) _ _ Hr HiDF) as H2.
  replace (r * (iD * F)) with (r * iD * F) in H2 by ring.
  replace (delta * (iD * F)) with (delta * iD * F) in H2 by ring.
  lra.
Qed.

(** One coordinate of the step, put together: forces, their sums, and the
    last phase, for the two nodes. *)
Lemma component_chain
      (pa pf iD F G Wc cg damp fx gx va vf pa' pf' : R) :
  - (3 / 10000000000) <= fx - (pa - pf) * iD * F <= 3 / 10000000000 ->
  - (3 / 10000000000) <= gx - (pf - pa) * iD * G <= 3 / 10000000000 ->
  - (3 / 10000000000) <= va - (fx + gx) <= 3 / 10000000000 ->
  - (3 / 10000000000) <= vf + (fx + gx) <= 3 / 10000000000 ->
  - (5 / 10000000000) <= pa' - (pa + (va + (Wc - pa) * cg) * damp)
  <= 5 / 10000000000 ->
  - (5 / 10000000000) <= pf' - (pf + (vf + (Wc - pf) * cg) * damp)
  <= 5 / 10000000000 ->
  0 <= damp <= 1 ->
  - (/ 100000000)
  <= (pa' - pf') - (1 - damp * (2 * (G - F) * iD + cg)) * (pa - pf)
  <= / 100000000.
Proof.
  intros Hfx Hgx Hva Hvf Hpa Hpf Hd.
  set (X := (pa - pf) * iD * F + (pf - pa) * iD * G).
  assert (H1 : - (9 / 10000000000) <= va - X <= 9 / 10000000000)
    by (unfold X; lra).
  assert (H2 : - (9 / 10000000000) <= vf - (- X) <= 9 / 10000000000)
    by (unfold X; lra).
  pose proof (mul_close va X damp _ 1 H1 Hd) as M1.
  pose proof (mul_close vf (- X) damp _ 1 H2 Hd) as M2.
  unfold X in M1, M2. lra.
Qed.

Lemma sq_close (r d e A : R) :
  - e <= r - d <= e -> - A <= d <= A -> 0 <= e -> 0 <= A ->
  - (e * (2 * A + e)) <= r * r - d * d <= e * (2 * A + e).
Proof.
  intros Hr Hd He HA.
  replace (r * r - d * d) with ((r - d) * (r + d)) by ring.
  assert (H1 : - (2 * A + e) <= r + d <= 2 * A + e) by lra.
  split; nra.
Qed.

(** The share of the distance one step takes away. *)
Lemma share_bounds (F G D cg damp : R) :
  120 <= D -> 0 <= F <= G -> G <= 201 / 10000 * D ->
  2999 / 10000000 <= cg <= 3 / 10000 ->
  8499 / 10000 <= damp <= 85 / 100 ->
  / 4000 <= damp * (2 * (G - F) * / D + cg) <= / 25.
Proof.
  intros HD HF HG Hcg Hd.
  pose proof (inv_bound D HD) as [HiD0 HiD1].
  assert (Hk0 : 0 <= (G - F) * / D) by (apply Rmult_le_pos; lra).
  assert (Hk1 : (G - F) * / D <= 201 / 10000).
  { assert (H : G * / D <= 201 / 10000).
    { apply Rmult_le_reg_r with D; [lra|].
      replace (G * / D * D) with G by (field; lra). lra. }
    assert (F * / D >= 0) by (apply Rle_ge, Rmult_le_pos; lra).
    lra. }
  set (k := (G - F) * / D) in *.
  replace (2 * (G - F) * / D) with (2 * k) by (unfold k; ring).
  split; nra.
Qed.

(** Both coordinates shrink by the same share, up to the errors: the
    squared distance decreases by more than the roundings can hide. *)
Lemma closer (dx dy dx' dy' c : R) :
  / 4000 <= c <= / 25 ->
  - 16384 <= dx <= 16384 -> - 16384 <= dy <= 16384 ->
  3 <= dx * dx + dy * dy ->
  - (/ 100000000) <= dx' - (1 - c) * dx <= / 100000000 ->
  - (/ 100000000) <= dy' - (1 - c) * dy <= / 100000000 ->
  dx' * dx' + dy' * dy' + / 10000 < dx * dx + dy * dy.
Proof.
  intros Hc Hdx Hdy HS Hx Hy.
  assert (Hcx : - 16384 <= (1 - c) * dx <= 16384).
  { pose proof (mul_bound dx (1 - c) 16384 1 Hdx ltac:(lra)). lra. }
  assert (Hcy : - 16384 <= (1 - c) * dy <= 16384).
  { pose proof (mul_bound dy (1 - c) 16384 1 Hdy ltac:(lra)). lra. }
  pose proof (sq_close dx' ((1 - c) * dx) _ 16384 Hx Hcx ltac:(lra) ltac:(lra))
    as Sx.
  pose proof (sq_close dy' ((1 - c) * dy) _ 16384 Hy Hcy ltac:(lra) ltac:(lra))
    as Sy.
  set (S := dx * dx + dy * dy) in *.
  assert (HSq : (1 - c) * dx * ((1 - c) * dx) + (1 - c) * dy * ((1 - c) * dy)
                = (1 - c) * (1 - c) * S) by (unfold S; ring).
  assert (Hcc : (1 - c) * (1 - c) <= 1 - c * (49 / 25)) by nra.
  assert (HSc : (1 - c) * (1 - c) * S <= S - c * (49 / 25) * S).
  { replace (S - c * (49 / 25) * S) with ((1 - c * (49 / 25)) * S) by ring.
    apply Rmult_le_compat_r; lra. }
  assert (HcS : / 4000 * (49 / 25) * 3 <= c * (49 / 25) * S).
  { apply Rmult_le_compat; try lra. }
  lra.
Qed.

Lemma quotient_bound (q : R) : 0 < q -> 2000 / q <= 662 -> 302 / 100 <= q.
Proof.
  intros Hq H.
  assert (H1 : 2000 <= 662 * q).
  { apply Rmult_le_compat_r with (r := q) in H; [|lra].
    replace (2000 / q * q) with 2000 in H by (field; lra). lra. }
  lra.
Qed.
End ErrorArithmetic.

(** ** The errors of the phases *)

Module StepErrors.
Import Reals Lra Psatz.
Import RealValue RealNotions FloatReal Constants ErrorArithmetic.
Local Open Scope R_scope.

(** The force one phase adds along one coordinate. *)
Lemma force_R (p q D F : float) :
  is_finite p = true -> is_finite q = true ->
  is_finite D = true -> is_finite F = true ->
  - 8192 <= toR p <= 8192 -> - 8192 <= toR q <= 8192 ->
  120 <= toR D -> 0 <= toR F <= 660 ->
  is_finite ((p - q) / D * F)%float = true /\
  - (3 / 10000000000)
  <= toR ((p - q) / D * F)%float - (toR p - toR q) * / toR D * toR F
  <= 3 / 10000000000 /\
  - 91081 <= toR ((p - q) / D * F)%float <= 91081.
Proof.
  intros Fp Fq FD FF Bp Bq BD BF.
  destruct (rounds_within _ _ 16384 (sub_R p q Fp Fq) ltac:(lra) ltac:(lra))
    as [Fr Hr].
  pose proof (inv_bound _ BD) as HiD.
  assert (Bx2 : - 137 <= toR (p - q)%float / toR D <= 137).
  { pose proof (mul_bound (toR (p - q)%float) (/ toR D) 16385 (/ 120)
                  ltac:(lra) ltac:(lra)) as H.
    unfold Rdiv. lra. }
  destruct (rounds_within _ _ 137
              (div_R (p - q)%float D Fr FD ltac:(lra)) Bx2 ltac:(lra))
    as [Fu Hu].
  assert (Bx3 : - 91080 <= toR ((p - q) / D)%float * toR F <= 91080).
  { pose proof (mul_bound (toR ((p - q) / D)%float) (toR F) 138 660
                  ltac:(lra) BF) as H. lra. }
  destruct (rounds_within _ _ 91080
              (mul_R ((p - q) / D)%float F Fu FF) Bx3 ltac:(lra))
    as [Ft Ht].
  split; [exact Ft|]. split; [|lra].
  apply force_chain with (r := toR (p - q)%float)
                         (u := toR ((p - q) / D)%float);
    unfold Rdiv in Hu; lra.
Qed.

Lemma sum_a_R (fx gx : float) :
  is_finite fx = true -> is_finite gx = true ->
  - 91081 <= toR fx <= 91081 -> - 91081 <= toR gx <= 91081 ->
  is_finite (0 + fx + gx)%float = true /\
  - (3 / 10000000000) <= toR (0 + fx + gx)%float - (toR fx + toR gx)
  <= 3 / 10000000000 /\
  - 182164 <= toR (0 + fx + gx)%float <= 182164.
Proof.
  intros Ffx Fgx Bfx Bgx.
  destruct (rounds_within _ _ 91081 (add_R 0 fx eq_refl Ffx)
              ltac:(rewrite toR_0; lra) ltac:(lra)) as [F1 H1].
  rewrite toR_0 in H1.
  destruct (rounds_within _ _ 182163 (add_R (0 + fx)%float gx F1 Fgx)
              ltac:(lra) ltac:(lra)) as [F2 H2].
  split; [exact F2|]. split; lra.
Qed.

Lemma sum_f_R (fx gx : float) :
  is_finite fx = true -> is_finite gx = true ->
  - 91081 <= toR fx <= 91081 -> - 91081 <= toR gx <= 91081 ->
  is_finite (0 - fx - gx)%float = true /\
  - (3 / 10000000000) <= toR (0 - fx - gx)%float + (toR fx + toR gx)
  <= 3 / 10000000000 /\
  - 182164 <= toR (0 - fx - gx)%float <= 182164.
Proof.
  intros Ffx Fgx Bfx Bgx.
  destruct (rounds_within _ _ 91081 (sub_R 0 fx eq_refl Ffx)
              ltac:(rewrite toR_0; lra) ltac:(lra)) as [F1 H1].
  rewrite toR_0 in H1.
  destruct (rounds_within _ _ 182163 (sub_R (0 - fx)%float gx F1 Fgx)
              ltac:(lra) ltac:(lra)) as [F2 H2].
  split; [exact F2|]. split; lra.
Qed.

(** The last phase along one coordinate, for a node the obstacle does not
    push. *)
Lemma settle_R (span share v p : float) :
  is_finite span = true -> is_finite share = true ->
  is_finite v = true -> is_finite p = true ->
  0 <= toR span <= 8192 -> 0 <= toR share <= 1 ->
  - 182164 <= toR v <= 182164 -> - 8192 <= toR p <= 8192 ->
  is_finite (span * share)%float = true /\
  is_finite (settledPosition span share v p) = true /\
  - (5 / 10000000000)
  <= toR (settledPosition span share v p)
     - (toR p + (toR v + (toR (span * share)%float - toR p)
                         * toR CENTER_GRAVITY) * toR DAMPING)
  <= 5 / 10000000000.
Proof.
  intros Fs Fsh Fv Fp Bs Bsh Bv Bp.
  unfold settledPosition, settledVelocity.
  pose proof toR_CENTER_GRAVITY as Hcg. pose proof toR_DAMPING as Hd.
  assert (Bw : - 8192 <= toR span * toR share <= 8192).
  { pose proof (mul_bound (toR span) (toR share) 8192 1 ltac:(lra) Bsh). lra. }
  destruct (rounds_within _ _ 8192 (mul_R span share Fs Fsh) Bw ltac:(lra))
    as [Fw Hw].
  destruct (rounds_within _ _ 16385 (sub_R (span * share)%float p Fw Fp)
              ltac:(lra) ltac:(lra)) as [Ft Ht].
  set (Wc := toR (span * share)%float) in *.
  set (ta := toR (span * share - p)%float) in *.
  assert (Bg : - 5 <= ta * toR CENTER_GRAVITY <= 5).
  { pose proof (mul_bound ta (toR CENTER_GRAVITY) 16386 (3 / 10000)
                  ltac:(lra) ltac:(lra)). lra. }
  destruct (rounds_within _ _ 5
              (mul_R (span * share - p)%float CENTER_GRAVITY Ft eq_refl)
              Bg ltac:(lra)) as [Fg Hg].
  fold ta in Hg.
  set (g := toR ((span * share - p) * CENTER_GRAVITY)%float) in *.
  assert (Hg' : - (2 / 100000000000000)
                <= g - (Wc - toR p) * toR CENTER_GRAVITY
                <= 2 / 100000000000000).
  { pose proof (mul_close ta (Wc - toR p) (toR CENTER_GRAVITY)
                  (17 / 1000000000000) (3 / 10000) ltac:(lra) ltac:(lra)).
    lra. }
  destruct (rounds_within _ _ 182170
              (add_R v ((span * share - p) * CENTER_GRAVITY)%float Fv Fg)
              ltac:(fold g; lra) ltac:(lra)) as [F3 H3].
  fold g in H3.
  set (s3 := toR (v + (span * share - p) * CENTER_GRAVITY)%float) in *.
  assert (Bs3 : - 154846 <= s3 * toR DAMPING <= 154846).
  { pose proof (mul_bound s3 (toR DAMPING) 182171 (85 / 100)
                  ltac:(lra) ltac:(lra)). lra. }
  destruct (rounds_within _ _ 154846
              (mul_R (v + (span * share - p) * CENTER_GRAVITY)%float DAMPING
                     F3 eq_refl) Bs3 ltac:(lra)) as [F4 H4].
  fold s3 in H4.
  set (w := toR ((v + (span * share - p) * CENTER_GRAVITY) * DAMPING)%float)
    in *.
  destruct (rounds_within _ _ 163039
              (add_R p ((v + (span * share - p) * CENTER_GRAVITY) * DAMPING)%float
                     Fp F4)
              ltac:(fold w; lra) ltac:(lra)) as [F5 H5].
  fold w in H5.
  split; [exact Fw|]. split; [exact F5|].
  pose proof (mul_close s3 (toR v + (Wc - toR p) * toR CENTER_GRAVITY)
                (toR DAMPING) (2 / 10000000000) (85 / 100)
                ltac:(lra) ltac:(lra)) as HM.
  lra.
Qed.
End StepErrors.

(** ** Distances and magnitudes *)

Module StepDistance.
Import Reals Lra Psatz.
Import RealValue RealNotions RealOrder FloatReal Constants ErrorArithmetic
       StepErrors DistanceFacts.
Local Open Scope R_scope.

(** One coordinate of the two nodes after a step from rest: their
    difference is the old one less its share, up to the roundings. *)
Lemma component_R (pa pf D F G span share : float) :
  is_finite pa = true -> is_finite pf = true ->
  is_finite D = true -> is_finite F = true -> is_finite G = true ->
  is_finite span = true -> is_finite share = true ->
  - 8192 <= toR pa <= 8192 -> - 8192 <= toR pf <= 8192 ->
  120 <= toR D -> 0 <= toR F <= 660 -> 0 <= toR G <= 660 ->
  0 <= toR span <= 8192 -> 0 <= toR share <= 1 ->
  let fx := ((pa - pf) / D * F)%float in
  let gx := ((pf - pa) / D * G)%float in
  let pa' := settledPosition span share (0 + fx + gx)%float pa in
  let pf' := settledPosition span share (0 - fx - gx)%float pf in
  is_finite pa' = true /\ is_finite pf' = true /\
  - (/ 100000000)
  <= (toR pa' - toR pf')
     - (1 - toR DAMPING * (2 * (toR G - toR F) * / toR D + toR CENTER_GRAVITY))
       * (toR pa - toR pf)
  <= / 100000000.
Proof.
  intros Fpa Fpf FD FF FG Fs Fsh Bpa Bpf BD BF BG Bs Bsh fx gx pa' pf'.
  destruct (force_R pa pf D F Fpa Fpf FD FF Bpa Bpf BD BF) as (Ffx & Efx & Bfx).
  destruct (force_R pf pa D G Fpf Fpa FD FG Bpf Bpa BD BG) as (Fgx & Egx & Bgx).
  fold fx in Ffx, Efx, Bfx. fold gx in Fgx, Egx, Bgx.
  destruct (sum_a_R fx gx Ffx Fgx Bfx Bgx) as (Fva & Eva & Bva).
  destruct (sum_f_R fx gx Ffx Fgx Bfx Bgx) as (Fvf & Evf & Bvf).
  destruct (settle_R span share _ pa Fs Fsh Fva Fpa Bs Bsh Bva Bpa)
    as (_ & Fpa' & Epa').
  destruct (settle_R span share _ pf Fs Fsh Fvf Fpf Bs Bsh Bvf Bpf)
    as (_ & Fpf' & Epf').
  fold pa' in Fpa', Epa'. fold pf' in Fpf', Epf'.
  split; [exact Fpa'|]. split; [exact Fpf'|].
  pose proof toR_DAMPING as HD.
  apply (component_chain (toR pa) (toR pf) (/ toR D) (toR F) (toR G)
           (toR (span * share)%float) (toR CENTER_GRAVITY) (toR DAMPING)
           (toR fx) (toR gx) (toR (0 + fx + gx)%float)
           (toR (0 - fx - gx)%float)); try assumption; lra.
Qed.

(** The squared distance the code computes, against the exact one. *)
Lemma distSq_R (xa ya xf yf : float) :
  is_finite xa = true -> is_finite ya = true ->
  is_finite xf = true -> is_finite yf = true ->
  - 16385 <= toR xa - toR xf <= 16385 ->
  - 16385 <= toR ya - toR yf <= 16385 ->
  let q := ((xa - xf) * (xa - xf) + (ya - yf) * (ya - yf))%float in
  is_finite q = true /\ 0 <= toR q /\
  - (3 / 1000000)
  <= toR q - ((toR xa - toR xf) * (toR xa - toR xf)
              + (toR ya - toR yf) * (toR ya - toR yf))
  <= 3 / 1000000.
Proof.
  intros Fxa Fya Fxf Fyf Bx By q.
  destruct (rounds_within _ _ 16385 (sub_R xa xf Fxa Fxf) Bx ltac:(lra))
    as [Fdx Edx].
  destruct (rounds_within _ _ 16385 (sub_R ya yf Fya Fyf) By ltac:(lra))
    as [Fdy Edy].
  set (dx := (xa - xf)%float) in *. set (dy := (ya - yf)%float) in *.
  set (rx := toR xa - toR xf) in *. set (ry := toR ya - toR yf) in *.
  assert (Cx : - (17 / 1000000000000) <= toR dx - rx <= 17 / 1000000000000)
    by lra.
  assert (Cy : - (17 / 1000000000000) <= toR dy - ry <= 17 / 1000000000000)
    by lra.
  pose proof (sq_close (toR dx) rx _ 16385 Cx Bx ltac:(lra) ltac:(lra)) as Sx.
  pose proof (sq_close (toR dy) ry _ 16385 Cy By ltac:(lra) ltac:(lra)) as Sy.
  assert (Px : 0 <= rx * rx) by nra.
  assert (Py : 0 <= ry * ry) by nra.
  assert (Qx : rx * rx <= 268468225) by nra.
  assert (Qy : ry * ry <= 268468225) by nra.
  assert (Pdx : 0 <= toR dx * toR dx) by nra.
  assert (Pdy : 0 <= toR dy * toR dy) by nra.
  destruct (rounds_within _ _ 270000000 (mul_R dx dx Fdx Fdx)
              ltac:(lra) ltac:(lra)) as [Fsx Esx].
  destruct (rounds_within _ _ 270000000 (mul_R dy dy Fdy Fdy)
              ltac:(lra) ltac:(lra)) as [Fsy Esy].
  pose proof (rounds_nonneg _ _ (mul_R dx dx Fdx Fdx) Fsx Pdx) as Nsx.
  pose proof (rounds_nonneg _ _ (mul_R dy dy Fdy Fdy) Fsy Pdy) as Nsy.
  destruct (rounds_within _ _ 540000002
              (add_R (dx * dx)%float (dy * dy)%float Fsx Fsy)
              ltac:(lra) ltac:(lra)) as [Fq Eq].
  pose proof (rounds_nonneg _ _
                (add_R (dx * dx)%float (dy * dy)%float Fsx Fsy) Fq
                ltac:(lra)) as Nq.
  fold q in Fq, Eq, Nq.
  split; [exact Fq|]. split; [exact Nq|]. lra.
Qed.

(** A pair further apart than the rest length has a non-zero squared
    distance. *)
Lemma far_apart_nonzero (a f : Node) :
  (SPRING_LENGTH <? springDist a f)%float = true ->
  (pairDistSq a f =? 0)%float = false.
Proof.
  intros H.
  destruct (pairDistSq a f =? 0)%float eqn:Hq; [|reflexivity].
  apply sqrt_zero_falsy in Hq.
  assert (Hd : springDist a f
               = JS.or_else (JS.Math_sqrt (pairDistSq a f)) 1).
  { unfold springDist. cbv zeta. rewrite <- pairDistSq_sym. reflexivity. }
  rewrite Hd in H. unfold JS.or_else in H. rewrite Hq in H. discriminate.
Qed.

(** The spring's magnitude is at most a fiftieth of the distance, nearly. *)
Lemma springMagnitude_R (D : float) :
  is_finite D = true -> 120 < toR D < 32768 ->
  let G := ((D - SPRING_LENGTH) * SPRING_K)%float in
  is_finite G = true /\ 0 <= toR G <= 660 /\
  toR G <= 201 / 10000 * toR D.
Proof.
  intros FD BD G.
  pose proof toR_SPRING_LENGTH as HL. pose proof toR_SPRING_K as HK.
  assert (FL : is_finite SPRING_LENGTH = true) by reflexivity.
  assert (FK : is_finite SPRING_K = true) by reflexivity.
  pose proof (sub_R D SPRING_LENGTH FD FL) as Rt.
  destruct (rounds_finite _ _ Rt) as [Et0 Et1].
  { destruct (rounds_within _ _ 32768 Rt ltac:(lra) ltac:(lra)) as [F _].
    exact F. }
  { lra. }
  destruct (rounds_within _ _ 32768 Rt ltac:(lra) ltac:(lra)) as [Ft _].
  pose proof (rounds_nonneg _ _ Rt Ft ltac:(lra)) as Nt.
  set (t := (D - SPRING_LENGTH)%float) in *.
  rewrite HL in *.
  assert (Bt : toR t <= 10001 / 10000 * (toR D - 120) + / 1000000000000000000000000000000)
    by lra.
  assert (Pg : 0 <= toR t * toR SPRING_K) by (apply Rmult_le_pos; lra).
  assert (Ug : toR t * toR SPRING_K
               <= (10001 / 10000 * (toR D - 120)
                   + / 1000000000000000000000000000000) * (20001 / 1000000)).
  { apply Rmult_le_compat; lra. }
  pose proof (mul_R t SPRING_K Ft FK) as Rg.
  destruct (rounds_within _ _ 656 Rg ltac:(lra) ltac:(lra)) as [Fg Eg].
  pose proof (rounds_finite _ _ Rg Fg Pg) as [_ Eg1].
  pose proof (rounds_nonneg _ _ Rg Fg Pg) as Ng.
  fold G in Fg, Eg, Eg1, Ng.
  split; [exact Fg|]. split; [lra|]. lra.
Qed.

(** With the repulsion no stronger than the spring, it is a finite
    non-negative number and the nodes are not too close. *)
Lemma repulsionMagnitude_R (q G : float) :
  is_finite q = true -> 0 <= toR q -> (q =? 0)%float = false ->
  is_finite G = true -> toR G <= 660 ->
  (REPULSION / q <=? G)%float = true ->
  let F := (REPULSION / q)%float in
  is_finite F = true /\ 0 <= toR F <= toR G /\ 302 / 100 <= toR q.
Proof.
  intros Fq Nq Zq FG BG Hle F.
  assert (Hq0 : toR q <> 0).
  { pose proof (eqb_R q 0 Fq eq_refl Zq) as H. now rewrite toR_0 in H. }
  assert (Pq : 0 < toR q) by lra.
  assert (FR : is_finite REPULSION = true) by reflexivity.
  pose proof (div_R REPULSION q FR Fq Hq0) as RF.
  rewrite toR_REPULSION in RF.
  assert (Px : 0 < 2000 / toR q).
  { apply Rdiv_lt_0_compat; lra. }
  assert (FF : is_finite (REPULSION / q)%float = true).
  { destruct (rounds_pos _ _ RF Px) as [[H _] | H]; [exact H|].
    exfalso. revert Hle. rewrite FloatAxioms.leb_spec, H.
    apply finite_SF in FG. unfold SFleb.
    destruct (Prim2SF G) as [s|s| |s m e]; simpl in *;
      try destruct s; discriminate. }
  pose proof (rounds_nonneg _ _ RF FF ltac:(lra)) as NF.
  pose proof (proj1 (leb_R _ _ FF FG) Hle) as LF.
  pose proof (rounds_finite _ _ RF FF ltac:(lra)) as [E0 _].
  fold F in FF, NF, LF, E0.
  split; [exact FF|]. split; [lra|].
  apply quotient_bound; [exact Pq|].
  assert (H : 2000 / toR q / 1000000000000000 <= 2000 / toR q / 2) by lra.
  lra.
Qed.
End StepDistance.

(** * Spring attraction over a whole step *)

Module WholeStep.
Import Reals Lra Psatz.
Import RealValue RealNotions RealOrder FloatReal Constants ErrorArithmetic
       StepErrors DistanceFacts StepDistance TwoNodes RealSqrt RealDistance.
Local Open Scope R_scope.

Lemma inRange_R (v : float) :
  inRange v = true -> is_finite v = true /\ - 8192 <= toR v <= 8192.
Proof.
  unfold inRange. intros [H1 H2]%andb_prop.
  destruct (bounded_R (-8192) v 8192 eq_refl eq_refl H1 H2) as [F B].
  rewrite toR_m8192, toR_8192 in B. now split.
Qed.

Lemma canvasSide_R (v : float) :
  canvasSide v = true -> is_finite v = true /\ 0 <= toR v <= 8192.
Proof.
  unfold canvasSide. intros [H1 H2]%andb_prop.
  destruct (bounded_R 0 v 8192 eq_refl eq_refl H1 H2) as [F B].
  rewrite toR_0, toR_8192 in B. now split.
Qed.

Lemma sqrt_R (a : float) :
  is_finite a = true -> 0 <= toR a ->
  rounds (JS.Math_sqrt a) (sqrt (toR a)).
Proof.
  intros Ha Na. unfold rounds, toR, JS.Math_sqrt.
  rewrite FloatAxioms.sqrt_spec.
  apply SFsqrt_R; auto using finite_SF.
Qed.

(** The distance of two nodes on the canvas is a finite number. *)
Lemma distance_R (q : float) :
  is_finite q = true -> 0 <= toR q <= 536870913 ->
  is_finite (JS.Math_sqrt q) = true /\ toR (JS.Math_sqrt q) <= 23172.
Proof.
  intros Fq Bq.
  assert (H0 : 0 <= sqrt (toR q)) by apply sqrt_pos.
  assert (H1 : sqrt (toR q) <= 23171).
  { rewrite <- (sqrt_square 23171) by lra. apply sqrt_le_1_alt. lra. }
  destruct (rounds_within _ _ 23171 (sqrt_R q Fq ltac:(lra))
              ltac:(lra) ltac:(lra)) as [F E].
  split; [exact F | lra].
Qed.

(** C8, as amended.  Two nodes joined by one link, both at rest, within
    8192 pixels of the origin on a canvas of at most 8192 x 8192 pixels, and
    neither within the obstacle's reach: whenever their distance, as the
    spring phase computes it, exceeds the rest length 120 and the repulsion
    [2000 / distSq] between them is no stronger than the spring force
    [(dist - 120) * 0.02], one integration step strictly decreases their
    distance, both the squared distance as the code computes it from the
    new positions and the Euclidean distance of the positions themselves. *)
Theorem spring_attracts (width height : float) (a f : Node) :
  node_id a <> node_id f ->
  atRest a -> atRest f ->
  onCanvas a = true -> onCanvas f = true ->
  canvasSide width = true -> canvasSide height = true ->
  reached width height a = false -> reached width height f = false ->
  (SPRING_LENGTH <? springDist a f)%float = true ->
  (repulsionMagnitude a f <=? springMagnitude a f)%float = true ->
  exists a' f',
    nodes (integrate width height
             (mkPhysics [a; f] [mkLink (node_id a) (node_id f)])) = [a'; f'] /\
    (pairDistSq a' f' <? pairDistSq a f)%float = true /\
    distance a' f' < distance a f.
Proof.
  intros Hid [Hvxa Hvya] [Hvxf Hvyf] [Hxa Hya]%andb_prop [Hxf Hyf]%andb_prop
         Hw Hh Ra Rf Hfar Hle.
  apply inRange_R in Hxa as [Fxa Bxa], Hya as [Fya Bya],
                     Hxf as [Fxf Bxf], Hyf as [Fyf Byf].
  apply canvasSide_R in Hw as [Fw Bw], Hh as [Fh Bh].
  destruct (far_apart a f Hfar) as [HDq Hfloor].
  pose proof (far_apart_nonzero a f Hfar) as Hq0.
  destruct (distSq_R (node_x a) (node_y a) (node_x f) (node_y f)
              Fxa Fya Fxf Fyf ltac:(lra) ltac:(lra)) as (Fq & Nq & Eq).
  change ((node_x a - node_x f) * (node_x a - node_x f)
          + (node_y a - node_y f) * (node_y a - node_y f))%float
    with (pairDistSq a f) in Fq, Nq, Eq.
  assert (Bdx : - 16384 <= toR (node_x a) - toR (node_x f) <= 16384) by lra.
  assert (Bdy : - 16384 <= toR (node_y a) - toR (node_y f) <= 16384) by lra.
  assert (Uq : toR (pairDistSq a f) <= 536870913) by nra.
  destruct (distance_R _ Fq (conj Nq Uq)) as [FD UD].
  rewrite <- HDq in FD, UD.
  pose proof (proj1 (ltb_R SPRING_LENGTH _ eq_refl FD) Hfar) as LD.
  rewrite toR_SPRING_LENGTH in LD.
  destruct (springMagnitude_R _ FD ltac:(lra)) as (FG & BG & BGD).
  fold (springMagnitude a f) in FG, BG, BGD.
  unfold repulsionMagnitude in Hle. rewrite Hfloor in Hle.
  destruct (repulsionMagnitude_R _ _ Fq Nq Hq0 FG ltac:(lra) Hle)
    as (FF & BF & Bq).
  assert (HF : (REPULSION / pairDistSq a f)%float = repulsionMagnitude a f).
  { unfold repulsionMagnitude. now rewrite Hfloor. }
  rewrite HF in FF, BF.
  destruct (forces_far_apart a f Hfar) as [Hrep Hspr].
  pose proof (integrate_two width height a f Hid Ra Rf) as Hstep.
  rewrite Hrep, Hspr, Hvxa, Hvya, Hvxf, Hvyf in Hstep. cbn [fst snd] in Hstep.
  destruct (component_R (node_x a) (node_x f) (springDist a f)
              (repulsionMagnitude a f) (springMagnitude a f) width 0.7
              Fxa Fxf FD FF FG Fw eq_refl Bxa Bxf ltac:(lra) ltac:(lra) BG
              Bw toR_share7) as (Fxa' & Fxf' & Ex).
  destruct (component_R (node_y a) (node_y f) (springDist a f)
              (repulsionMagnitude a f) (springMagnitude a f) height 0.3
              Fya Fyf FD FF FG Fh eq_refl Bya Byf ltac:(lra) ltac:(lra) BG
              Bh toR_share3) as (Fya' & Fyf' & Ey).
  eexists _, _. split; [exact Hstep|].
  unfold distance, pairDistSq at 1. cbn [node_x node_y]. cbv zeta.
  set (xa' := settledPosition width 0.7 _ (node_x a)) in *.
  set (xf' := settledPosition width 0.7 _ (node_x f)) in *.
  set (ya' := settledPosition height 0.3 _ (node_y a)) in *.
  set (yf' := settledPosition height 0.3 _ (node_y f)) in *.
  pose proof (share_bounds (toR (repulsionMagnitude a f))
                (toR (springMagnitude a f)) (toR (springDist a f))
                (toR CENTER_GRAVITY) (toR DAMPING) ltac:(lra) BF BGD
                toR_CENTER_GRAVITY toR_DAMPING) as Hc.
  set (c := toR DAMPING * _) in *.
  assert (Bcx : - 16384 <= (1 - c) * (toR (node_x a) - toR (node_x f)) <= 16384).
  { pose proof (mul_bound _ (1 - c) 16384 1 Bdx ltac:(lra)). lra. }
  assert (Bcy : - 16384 <= (1 - c) * (toR (node_y a) - toR (node_y f)) <= 16384).
  { pose proof (mul_bound _ (1 - c) 16384 1 Bdy ltac:(lra)). lra. }
  destruct (distSq_R xa' ya' xf' yf' Fxa' Fya' Fxf' Fyf'
              ltac:(lra) ltac:(lra)) as (Fq' & _ & Eq').
  pose proof (closer _ _ _ _ c Hc Bdx Bdy ltac:(lra) Ex Ey) as Hcl.
  split; [apply ltb_R; [exact Fq' | exact Fq | lra]|].
  apply sqrt_lt_1_alt. split; [nra | lra].
Qed.
End WholeStep.

(** ** The end-to-end scenario, 200 apart *)

Module StepRuns.
Import Reals.
Import RealDistance.
Local Open Scope string_scope.
Local Open Scope float_scope.

Lemma spring_attracts_witness :
  let a := mkNode "a1" "agent" 500 100 0 0 in
  let f := mkNode "f1" "form" 700 100 0 0 in
  nodes (fst (reconcile 1000 1000 (draws 0.7 0.2) (mkPhysics [a] []) 0
                        snapshot2))
  = [a; f] /\
  (SPRING_LENGTH <? springDist a f) = true /\
  (repulsionMagnitude a f <=? springMagnitude a f) = true /\
  exists a' f',
    nodes (integrate 1000 1000 (mkPhysics [a; f] [mkLink "a1" "f1"]))
    = [a'; f'] /\
    (pairDistSq a' f' <? pairDistSq a f) = true /\
    (distance a' f' < distance a f)%R.
Proof.
  cbv zeta. split; [vm_compute; reflexivity|].
  split; [vm_compute; reflexivity|]. split; [vm_compute; reflexivity|].
  apply (WholeStep.spring_attracts 1000 1000
           (mkNode "a1" "agent" 500 100 0 0) (mkNode "f1" "form" 700 100 0 0));
    try (vm_compute; reflexivity).
  - discriminate.
  - split; reflexivity.
  - split; reflexivity.
Defined.
End StepRuns.
